(** * promfire: a shallow embedding of the replication engine

    The development follows the Go sources:
    - [internal/config/config.go]        (configuration record, [Validate]);
    - [internal/writer/remote_writer.go] ([TimestampCoordinator],
      [convertToTimeSeries], [sendInBatches], [sendBatch]);
    - [internal/benchmarker/benchmarker.go] ([NewBenchmarker], [Run],
      [filterMetrics], [processMetrics], [processMetric], [replicateSeries],
      [generateLabelCombinations], [sendSamples]).

    Go's [int] and [int64] are 64-bit two's complement integers; they are
    modelled as [Z] with the wrap-around written out ([wrap64]).  Label sets
    ([map[string]string]) are [gmap string string].  Everything outside the
    process (the wall clock, the HTTP endpoints, the cancellation context,
    the token bucket, the global logger) is collected in a [World] record
    that the code threads through explicitly. *)

From Stdlib Require Import ZArith Lia SpecFloat.
From stdpp Require Import base option list strings gmap pretty sorting.

Local Open Scope Z_scope.

(** ** Go integers *)

Definition min_int64 : Z := - 2 ^ 63.
Definition max_int64 : Z := 2 ^ 63 - 1.

(** Two's complement wrap-around of a mathematical integer into [int64]. *)
Definition wrap64 (z : Z) : Z := (z + 2 ^ 63) mod 2 ^ 64 - 2 ^ 63.

Definition in_int64 (z : Z) : Prop := min_int64 <= z <= max_int64.

Definition int_add (a b : Z) : Z := wrap64 (a + b).
Definition int_mul (a b : Z) : Z := wrap64 (a * b).

(** [len(s)] of a slice. *)
Definition len {A} (l : list A) : Z := Z.of_nat (length l).

(** [s[i]]: [None] stands for the run-time panic on an index out of range. *)
Definition index {A} (l : list A) (i : Z) : option A :=
  if decide (0 <= i) then l !! Z.to_nat i else None.

(** [s[i:j]]: [None] stands for the run-time panic when the bounds are not
    [0 <= i <= j <= len(s)] (the slices sliced here have [cap = len]). *)
Definition slice {A} (l : list A) (i j : Z) : option (list A) :=
  if decide (0 <= i /\ i <= j /\ j <= len l)
  then Some (take (Z.to_nat (j - i)) (drop (Z.to_nat i) l))
  else None.

(** Go's [a / b] on [int]: truncation towards zero, a run-time panic
    ([None]) on a zero divisor. *)
Definition int_quot (a b : Z) : option Z :=
  if decide (b = 0) then None else Some (wrap64 (Z.quot a b)).

(** [fmt.Sprintf("%d", z)]. *)
Definition itoa (z : Z) : string := pretty z.

(** ** Errors *)

Inductive error : Type :=
| errorString (msg : string)             (* fmt.Errorf without %w, errors.New *)
| wrapError (msg : string) (e : error)   (* fmt.Errorf("msg: %w", e) *)
| Canceled                               (* context.Canceled *)
| DeadlineExceeded.                      (* context.DeadlineExceeded *)

(** A Go result pair [(v, err)] with exactly one side meaningful. *)
Inductive result (A : Type) : Type :=
| Ok (a : A)
| Err (e : error).
Arguments Ok {A} a.
Arguments Err {A} e.

(** ** internal/config *)

Module config.

Record ReplicationLabel : Type := mkReplicationLabel {
  Name : string;
  Values : list string
}.

Record Config : Type := mkConfig {
  QueryURL : string;
  RemoteWriteURL : string;
  ReplicationFactor : Z;
  QueryRangeHours : Z;
  QueryStepSeconds : Z;
  SamplesPerSecond : Z;
  BatchSize : Z;
  Replication : list ReplicationLabel;
  ExcludeMetrics : list string
}.

Definition Validate (c : Config) : option error :=
  if decide (ReplicationFactor c < 1) then
    Some (errorString "replication_factor must be at least 1")
  else if decide (QueryRangeHours c < 1) then
    Some (errorString "query_range_hours must be at least 1")
  else if decide (QueryStepSeconds c < 1) then
    Some (errorString "query_step_seconds must be at least 1")
  else if decide (SamplesPerSecond c < 1) then
    Some (errorString "samples_per_second must be at least 1")
  else if decide (BatchSize c < 1) then
    Some (errorString "batch_size must be at least 1")
  else None.

End config.

(** ** internal/writer: TimestampCoordinator *)

Record TimestampCoordinator : Type := mkTimestampCoordinator {
  lastTimestamp : Z;
  increment : Z
}.

(** [NewTimestampCoordinator], given the reading of [time.Now().UnixMilli()]. *)
Definition NewTimestampCoordinator (now : Z) : TimestampCoordinator :=
  {| lastTimestamp := now; increment := 1 |}.

(** [NextTimestamp]: the body of the critical section, given the wall-clock
    reading taken inside it.  The mutex makes calls atomic, so a run of
    concurrent callers is a sequence of such steps. *)
Definition NextTimestamp (now : Z) (tc : TimestampCoordinator)
  : Z * TimestampCoordinator :=
  let last :=
    if decide (now > lastTimestamp tc) then now
    else int_add (lastTimestamp tc) (increment tc) in
  (last, {| lastTimestamp := last; increment := increment tc |}).

(** The values returned by successive calls, one per clock reading. *)
Fixpoint NextTimestamps (nows : list Z) (tc : TimestampCoordinator) : list Z :=
  match nows with
  | [] => []
  | now :: rest =>
      let '(t, tc') := NextTimestamp now tc in t :: NextTimestamps rest tc'
  end.

(** ** prompb: the wire-format records *)

(** [float64] values, as IEEE 754 data. *)
Definition float64 : Type := spec_float.

Definition is_finite (f : float64) : bool :=
  match f with
  | S754_zero _ | S754_finite _ _ _ => true
  | S754_infinity _ | S754_nan => false
  end.

Module prompb.

Record Label : Type := mkLabel { Name : string; Value : string }.
Record Sample : Type := mkSample { Timestamp : Z; SValue : float64 }.
Record TimeSeries : Type := mkTimeSeries {
  Labels : list Label;
  Samples : list Sample
}.

End prompb.

(** ** Values decoded from JSON ([interface{}]) *)

Inductive any : Type :=
| anyFloat (f : float64)     (* JSON number *)
| anyString (s : string)     (* JSON string *)
| anyBool (b : bool)
| anyNil
| anyComposite.              (* JSON array or object *)

(** One entry of [PrometheusResponse.Data.Result]. *)
Record Series : Type := mkSeries {
  Metric : gmap string string;
  Values : list (list any)
}.

(** ** internal/logger: the calls made to the global logger

    The level filter and the output format belong to the logger; the
    trace kept here is the sequence of calls. *)

Module logger.

Inductive LogLevel : Type := TRACE | DEBUG | INFO | WARN | ERROR | FATAL.

#[global] Instance LogLevel_eq_dec : EqDecision LogLevel.
Proof. solve_decision. Defined.

Inductive field : Type :=
| fString (s : string)
| fInt (z : Z)
| fStrings (l : list string)
| fLabels (m : gmap string string)
| fError (e : error).

Record LogEntry : Type := mkLogEntry {
  Level : LogLevel;
  Message : string;
  Fields : list (string * field)
}.

End logger.

(** ** The Go library functions the code calls on strings

    [strconv.ParseFloat(s, 64)] and the [regexp] package are outside the
    repository; the code is parametric in them. *)

Class GoRuntime : Type := {
  ParseFloat : string → result float64;
  Regexp : Type;
  Compile : string → result Regexp;
  MatchString : Regexp → string → bool
}.

(** ** The world outside the process *)

(** What one GET round trip and the decoding of its body come to. *)
Inductive GetOutcome (A : Type) : Type :=
| GetRequestError (e : error)      (* http.NewRequestWithContext *)
| GetTransportError (e : error)    (* client.Do *)
| GetReadError (e : error)         (* io.ReadAll *)
| GetParseError (e : error)        (* json.Unmarshal *)
| GetDecoded (status body : string) (data : A).
Arguments GetRequestError {A} e.
Arguments GetTransportError {A} e.
Arguments GetReadError {A} e.
Arguments GetParseError {A} e.
Arguments GetDecoded {A} status body data.

(** What one remote-write POST comes to. *)
Inductive PostOutcome : Type :=
| PostMarshalError (e : error)     (* writeRequest.Marshal *)
| PostRequestError (e : error)     (* http.NewRequestWithContext *)
| PostTransportError (e : error)   (* client.Do *)
| PostStatus (code : Z).           (* resp.StatusCode *)

(** The first six fields are scripts: what the outside world will answer
    to successive calls (an exhausted script keeps answering with a
    default).  [coordinator] is the heap cell behind the writer's
    [*TimestampCoordinator].  The last four fields are traces of what the
    program did. *)
Record World : Type := mkWorld {
  clock : list Z;                               (* time.Now().UnixMilli() *)
  ctxErrs : list (option error);                (* ctx.Err() at each select *)
  nameResponses : list (GetOutcome (list string));
  rangeResponses : list (GetOutcome (list Series));
  waitResults : list (option error);            (* rateLimiter.WaitN *)
  postResponses : list PostOutcome;
  coordinator : TimestampCoordinator;
  logs : list logger.LogEntry;
  queried : list string;                        (* range queries issued *)
  acquired : list Z;                            (* tokens asked of WaitN *)
  posted : list (string * list prompb.TimeSeries)  (* requests sent *)
}.

Definition set_clock (x : list Z) (w : World) : World :=
  {| clock := x; ctxErrs := ctxErrs w; nameResponses := nameResponses w;
     rangeResponses := rangeResponses w; waitResults := waitResults w;
     postResponses := postResponses w; coordinator := coordinator w;
     logs := logs w; queried := queried w; acquired := acquired w;
     posted := posted w |}.

Definition set_ctxErrs (x : list (option error)) (w : World) : World :=
  {| clock := clock w; ctxErrs := x; nameResponses := nameResponses w;
     rangeResponses := rangeResponses w; waitResults := waitResults w;
     postResponses := postResponses w; coordinator := coordinator w;
     logs := logs w; queried := queried w; acquired := acquired w;
     posted := posted w |}.

Definition set_nameResponses (x : list (GetOutcome (list string)))
    (w : World) : World :=
  {| clock := clock w; ctxErrs := ctxErrs w; nameResponses := x;
     rangeResponses := rangeResponses w; waitResults := waitResults w;
     postResponses := postResponses w; coordinator := coordinator w;
     logs := logs w; queried := queried w; acquired := acquired w;
     posted := posted w |}.

Definition set_rangeResponses (x : list (GetOutcome (list Series)))
    (w : World) : World :=
  {| clock := clock w; ctxErrs := ctxErrs w;
     nameResponses := nameResponses w; rangeResponses := x;
     waitResults := waitResults w; postResponses := postResponses w;
     coordinator := coordinator w; logs := logs w; queried := queried w;
     acquired := acquired w; posted := posted w |}.

Definition set_waitResults (x : list (option error)) (w : World) : World :=
  {| clock := clock w; ctxErrs := ctxErrs w;
     nameResponses := nameResponses w; rangeResponses := rangeResponses w;
     waitResults := x; postResponses := postResponses w;
     coordinator := coordinator w; logs := logs w; queried := queried w;
     acquired := acquired w; posted := posted w |}.

Definition set_postResponses (x : list PostOutcome) (w : World) : World :=
  {| clock := clock w; ctxErrs := ctxErrs w;
     nameResponses := nameResponses w; rangeResponses := rangeResponses w;
     waitResults := waitResults w; postResponses := x;
     coordinator := coordinator w; logs := logs w; queried := queried w;
     acquired := acquired w; posted := posted w |}.

Definition set_coordinator (x : TimestampCoordinator) (w : World) : World :=
  {| clock := clock w; ctxErrs := ctxErrs w;
     nameResponses := nameResponses w; rangeResponses := rangeResponses w;
     waitResults := waitResults w; postResponses := postResponses w;
     coordinator := x; logs := logs w; queried := queried w;
     acquired := acquired w; posted := posted w |}.

Definition set_logs (x : list logger.LogEntry) (w : World) : World :=
  {| clock := clock w; ctxErrs := ctxErrs w;
     nameResponses := nameResponses w; rangeResponses := rangeResponses w;
     waitResults := waitResults w; postResponses := postResponses w;
     coordinator := coordinator w; logs := x; queried := queried w;
     acquired := acquired w; posted := posted w |}.

Definition set_queried (x : list string) (w : World) : World :=
  {| clock := clock w; ctxErrs := ctxErrs w;
     nameResponses := nameResponses w; rangeResponses := rangeResponses w;
     waitResults := waitResults w; postResponses := postResponses w;
     coordinator := coordinator w; logs := logs w; queried := x;
     acquired := acquired w; posted := posted w |}.

Definition set_acquired (x : list Z) (w : World) : World :=
  {| clock := clock w; ctxErrs := ctxErrs w;
     nameResponses := nameResponses w; rangeResponses := rangeResponses w;
     waitResults := waitResults w; postResponses := postResponses w;
     coordinator := coordinator w; logs := logs w; queried := queried w;
     acquired := x; posted := posted w |}.

Definition set_posted (x : list (string * list prompb.TimeSeries)) (w : World) : World :=
  {| clock := clock w; ctxErrs := ctxErrs w;
     nameResponses := nameResponses w; rangeResponses := rangeResponses w;
     waitResults := waitResults w; postResponses := postResponses w;
     coordinator := coordinator w; logs := logs w; queried := queried w;
     acquired := acquired w; posted := x |}.

(** Computations: [None] is a run that does not return normally (a
    run-time panic, or a loop that never ends). *)
Definition M (A : Type) : Type := World → option (A * World).

Definition ret {A} (a : A) : M A := λ w, Some (a, w).

Definition bind {A B} (m : M A) (k : A → M B) : M B :=
  λ w, match m w with
       | None => None
       | Some (a, w') => k a w'
       end.

Definition panic {A} : M A := λ _, None.

Notation "'let*' x ':=' m 'in' k" := (bind m (λ x, k))
  (at level 10, x name, m at level 100, k at level 200, only parsing).

(** [time.Now().UnixMilli()] *)
Definition timeNow : M Z :=
  λ w, Some (hd 0 (clock w), set_clock (tl (clock w)) w).

(** The non-blocking [select] on [ctx.Done()]: [Some err] is [ctx.Err()]
    of a finished context. *)
Definition ctxDone : M (option error) :=
  λ w, Some (hd None (ctxErrs w), set_ctxErrs (tl (ctxErrs w)) w).

Definition nextNameResponse : M (GetOutcome (list string)) :=
  λ w, Some (hd (GetTransportError (errorString "EOF")) (nameResponses w),
             set_nameResponses (tl (nameResponses w)) w).

Definition nextRangeResponse : M (GetOutcome (list Series)) :=
  λ w, Some (hd (GetTransportError (errorString "EOF")) (rangeResponses w),
             set_rangeResponses (tl (rangeResponses w)) w).

Definition nextWaitResult : M (option error) :=
  λ w, Some (hd None (waitResults w), set_waitResults (tl (waitResults w)) w).

Definition nextPostResponse : M PostOutcome :=
  λ w, Some (hd (PostStatus 200) (postResponses w),
             set_postResponses (tl (postResponses w)) w).

Definition logCall (level : logger.LogLevel) (message : string)
    (fields : list (string * logger.field)) : M unit :=
  λ w, Some (tt, set_logs (logs w ++ [logger.mkLogEntry level message fields]) w).

Definition recordQuery (metricName : string) : M unit :=
  λ w, Some (tt, set_queried (queried w ++ [metricName]) w).

Definition recordAcquire (n : Z) : M unit :=
  λ w, Some (tt, set_acquired (acquired w ++ [n]) w).

Definition recordPost (endpoint : string) (ts : list prompb.TimeSeries)
  : M unit :=
  λ w, Some (tt, set_posted (posted w ++ [(endpoint, ts)]) w).

(** ** golang.org/x/time/rate: the token bucket as the code uses it *)

Record Limiter : Type := mkLimiter { limit : Z; burst : Z }.

(** [rate.NewLimiter(rate.Limit(r), b)] *)
Definition NewLimiter (r b : Z) : Limiter := {| limit := r; burst := b |}.

Definition Burst (lim : Limiter) : Z := burst lim.

(** [WaitN(ctx, n)]: a request above the burst is refused at once; any
    other request blocks and then succeeds or fails as the world has it
    (cancellation, deadline). *)
Definition WaitN (lim : Limiter) (n : Z) : M (option error) :=
  let* _ := recordAcquire n in
  if decide (n > burst lim) then
    ret (Some (errorString ("rate: Wait(n=" +:+ itoa n
                 +:+ ") exceeds limiter's burst " +:+ itoa (burst lim))))
  else nextWaitResult.

(** ** internal/writer: RemoteWriter *)

Record RemoteWriter : Type := mkRemoteWriter {
  endpoint : string;
  batchSize : Z
}.

(** The coordinator of the writer lives in the world's [coordinator]. *)
Definition NewRemoteWriter (endpoint : string) (batchSize : Z) : M RemoteWriter :=
  let* now := timeNow in
  let* _ := (λ w, Some (tt, set_coordinator (NewTimestampCoordinator now) w)) in
  ret {| endpoint := endpoint; batchSize := batchSize |}.

(** [rw.timestampCoordinator.NextTimestamp()] *)
Definition nextTimestamp : M Z :=
  let* now := timeNow in
  λ w, let '(t, tc) := NextTimestamp now (coordinator w) in
       Some (t, set_coordinator tc w).

Section Writer.
Context `{GoRuntime}.

(** The conversion loop of [convertToTimeSeries]; [samples] is the slice
    built so far. *)
Fixpoint convertSamples (values : list (list any))
    (samples : list prompb.Sample) : M (list prompb.Sample) :=
  match values with
  | [] => ret samples
  | value :: rest =>
      if decide (len value ≠ 2) then convertSamples rest samples
      else
        match index value 1 with
        | None => panic
        | Some (anyString valueStr) =>
            match ParseFloat valueStr with
            | Err _ => convertSamples rest samples
            | Ok valueFloat =>
                let* timestamp := nextTimestamp in
                convertSamples rest
                  (samples ++ [prompb.mkSample timestamp valueFloat])
            end
        | Some _ => convertSamples rest samples
        end
  end.

(** The label pairs are appended while ranging over the map; Go leaves the
    order of that iteration open, [map_to_list] fixes one. *)
Definition labelPairs (labels : gmap string string) : list prompb.Label :=
  (λ kv, prompb.mkLabel kv.1 kv.2) <$> map_to_list labels.

Definition convertToTimeSeries (labels : gmap string string)
    (values : list (list any)) : M (result prompb.TimeSeries) :=
  if decide (len values = 0) then
    ret (Err (errorString "no values provided"))
  else
    let* samples := convertSamples values [] in
    if decide (len samples = 0) then
      ret (Err (errorString "no valid samples found"))
    else
      ret (Ok {| prompb.Labels := labelPairs labels;
                 prompb.Samples := samples |}).

Definition sendBatch (rw : RemoteWriter) (timeSeries : list prompb.TimeSeries)
  : M (option error) :=
  let* outcome := nextPostResponse in
  match outcome with
  | PostMarshalError e => ret (Some (wrapError "marshaling write request" e))
  | PostRequestError e => ret (Some (wrapError "creating request" e))
  | PostTransportError e =>
      let* _ := recordPost (endpoint rw) timeSeries in
      ret (Some (wrapError "sending request" e))
  | PostStatus code =>
      let* _ := recordPost (endpoint rw) timeSeries in
      if decide (code < 200 ∨ code >= 300) then
        ret (Some (errorString
                     ("remote write failed with status " +:+ itoa code)))
      else ret None
  end.

(** The loop of [sendInBatches] from index [i].  [fuel] bounds the number
    of iterations; running out of it stands for a loop that never ends. *)
Fixpoint sendInBatchesFrom (fuel : nat) (rw : RemoteWriter)
    (timeSeries : list prompb.TimeSeries) (i : Z) : M (option error) :=
  if decide (i < len timeSeries) then
    match fuel with
    | O => panic
    | S fuel' =>
        let end0 := int_add i (batchSize rw) in
        let end_ := if decide (end0 > len timeSeries) then len timeSeries
                    else end0 in
        match slice timeSeries i end_ with
        | None => panic
        | Some batch =>
            let* err := sendBatch rw batch in
            match err with
            | Some e =>
                ret (Some (wrapError
                             ("sending batch " +:+ itoa i +:+ "-" +:+ itoa end_)
                             e))
            | None =>
                let* _ := logCall logger.DEBUG "Batch sent successfully"
                            [("batch_size", logger.fInt (len batch));
                             ("batch_id",
                              logger.fString (itoa i +:+ "-" +:+ itoa end_))] in
                sendInBatchesFrom fuel' rw timeSeries (int_add i (batchSize rw))
            end
        end
    end
  else ret None.

(** With a batch size of at least one the loop runs at most
    [len(timeSeries)] times. *)
Definition sendInBatches (rw : RemoteWriter)
    (timeSeries : list prompb.TimeSeries) : M (option error) :=
  sendInBatchesFrom (length timeSeries) rw timeSeries 0.

Definition WriteSamples (rw : RemoteWriter) (labels : gmap string string)
    (values : list (list any)) : M (option error) :=
  let* r := convertToTimeSeries labels values in
  match r with
  | Err e => ret (Some (wrapError "converting to time series" e))
  | Ok timeSeries => sendInBatches rw [timeSeries]
  end.

Definition WriteBatch (rw : RemoteWriter)
    (timeSeries : list prompb.TimeSeries) : M (option error) :=
  sendInBatches rw timeSeries.

End Writer.

(** ** internal/benchmarker: generateLabelCombinations *)

(** The fallback used when no replication labels are configured.
    [make([]map[string]string, n)] panics for a negative [n]. *)
Definition defaultCombinations (replicationFactor : Z)
  : option (list (gmap string string)) :=
  if decide (replicationFactor < 0) then None
  else Some ((λ i, {[ "benchmark_replica" := "replica-" +:+ itoa i ]})
               <$> seqZ 0 replicationFactor).

(** [autoValues[j] = fmt.Sprintf("bench-%d", j+1)] for [j] in
    [0, replicationFactor); [j+1 <= replicationFactor] cannot wrap. *)
Definition autoValues (replicationFactor : Z) : option (list string) :=
  if decide (replicationFactor < 0) then None
  else Some ((λ j, "bench-" +:+ itoa (j + 1)) <$> seqZ 0 replicationFactor).

(** The copy of the configured labels with [benchmark_instance] filled in:
    the slice that the auto-fill loop leaves.  The loop also calls
    [logger.Debug] after each fill; [processLabelsLogged] below is the
    loop with that call. *)
Fixpoint processLabels (replicationFactor : Z)
    (labels : list config.ReplicationLabel)
  : option (list config.ReplicationLabel) :=
  match labels with
  | [] => Some []
  | labelConfig :: rest =>
      if decide (config.Name labelConfig = "benchmark_instance"
                 ∧ len (config.Values labelConfig) = 0) then
        match autoValues replicationFactor with
        | None => None
        | Some auto =>
            cons {| config.Name := config.Name labelConfig;
                    config.Values := auto |}
              <$> processLabels replicationFactor rest
        end
      else cons labelConfig <$> processLabels replicationFactor rest
  end.

(** [totalCombinations], starting from the running product [total]. *)
Fixpoint totalCombinationsFrom (total : Z)
    (labels : list config.ReplicationLabel) : Z :=
  match labels with
  | [] => total
  | labelConfig :: rest =>
      let n := len (config.Values labelConfig) in
      if decide (n > 0)
      then totalCombinationsFrom (int_mul total n) rest
      else totalCombinationsFrom total rest
  end.

Definition totalCombinations (labels : list config.ReplicationLabel) : Z :=
  totalCombinationsFrom 1 labels.

(** The inner loop: one pass over the processed labels for one combination.
    Go's [%] and [/] truncate towards zero ([Z.rem], [Z.quot]). *)
Fixpoint fillLabelSet (labels : list config.ReplicationLabel) (combIndex : Z)
    (labelSet : gmap string string) : option (gmap string string) :=
  match labels with
  | [] => Some labelSet
  | labelConfig :: rest =>
      let n := len (config.Values labelConfig) in
      if decide (n > 0) then
        let valueIndex := Z.rem combIndex n in
        match index (config.Values labelConfig) valueIndex with
        | None => None
        | Some v =>
            fillLabelSet rest (Z.quot combIndex n)
              (<[config.Name labelConfig := v]> labelSet)
        end
      else fillLabelSet rest combIndex labelSet
  end.

Definition generateLabelCombinations (c : config.Config)
  : option (list (gmap string string)) :=
  if decide (len (config.Replication c) = 0) then
    defaultCombinations (config.ReplicationFactor c)
  else
    match processLabels (config.ReplicationFactor c) (config.Replication c)
    with
    | None => None
    | Some processedLabels =>
        let total := totalCombinations processedLabels in
        let maxCombinations :=
          if decide (config.ReplicationFactor c > total) then total
          else config.ReplicationFactor c in
        mapM (λ i, fillLabelSet processedLabels i ∅) (seqZ 0 maxCombinations)
    end.

(** [generateLabelCombinations] as the program runs it.  The definitions
    above give the label sets that it returns; the auto-fill branch also
    calls [logger.Debug] with the values it generated, once for each entry
    that it fills in and before the combinations are computed.
    [processLabelsLogged] is the loop over [processedLabels] with that
    call, [generateLabelCombinationsLogged] the function around it. *)
Fixpoint processLabelsLogged (replicationFactor : Z)
    (labels : list config.ReplicationLabel)
  : M (list config.ReplicationLabel) :=
  match labels with
  | [] => ret []
  | labelConfig :: rest =>
      if decide (config.Name labelConfig = "benchmark_instance"
                 ∧ len (config.Values labelConfig) = 0) then
        match autoValues replicationFactor with
        | None => panic
        | Some auto =>
            let* _ := logCall logger.DEBUG
                        "Auto-generated benchmark_instance values"
                        [("count", logger.fInt (len auto));
                         ("values", logger.fStrings auto)] in
            let* processed := processLabelsLogged replicationFactor rest in
            ret ({| config.Name := config.Name labelConfig;
                    config.Values := auto |} :: processed)
        end
      else
        let* processed := processLabelsLogged replicationFactor rest in
        ret (labelConfig :: processed)
  end.

Definition generateLabelCombinationsLogged (c : config.Config)
  : M (list (gmap string string)) :=
  if decide (len (config.Replication c) = 0) then
    match defaultCombinations (config.ReplicationFactor c) with
    | None => panic
    | Some combinations => ret combinations
    end
  else
    let* processedLabels :=
      processLabelsLogged (config.ReplicationFactor c)
        (config.Replication c) in
    let total := totalCombinations processedLabels in
    let maxCombinations :=
      if decide (config.ReplicationFactor c > total) then total
      else config.ReplicationFactor c in
    match mapM (λ i, fillLabelSet processedLabels i ∅)
            (seqZ 0 maxCombinations) with
    | None => panic
    | Some combinations => ret combinations
    end.

(** A configuration that only fixes what the label combinator reads. *)
Definition labelConfig (spec : list config.ReplicationLabel) (rf : Z)
  : config.Config :=
  {| config.QueryURL := ""; config.RemoteWriteURL := "";
     config.ReplicationFactor := rf; config.QueryRangeHours := 1;
     config.QueryStepSeconds := 1; config.SamplesPerSecond := 1;
     config.BatchSize := 1; config.Replication := spec;
     config.ExcludeMetrics := [] |}.

(** ** internal/benchmarker: Benchmarker *)

Section Benchmarker.
Context `{GoRuntime}.

(** [remoteWriter] is [None] for the nil pointer of a dry run. *)
Record Benchmarker : Type := mkBenchmarker {
  config : config.Config;
  dryRun : bool;
  excludeRegexes : list Regexp;
  remoteWriter : option RemoteWriter
}.

(** The compilation loop of [NewBenchmarker]. *)
Fixpoint compileExcludes (patterns : list string)
    (excludeRegexes : list Regexp) : M (list Regexp) :=
  match patterns with
  | [] => ret excludeRegexes
  | pattern :: rest =>
      match Compile pattern with
      | Err err =>
          let* _ := logCall logger.WARN "Invalid exclude pattern"
                      [("pattern", logger.fString pattern);
                       ("error", logger.fError err)] in
          compileExcludes rest excludeRegexes
      | Ok regex => compileExcludes rest (excludeRegexes ++ [regex])
      end
  end.

(** A writer is built unless the run is dry; [NewRemoteWriter] never
    returns nil, so the error branch after it is dead. *)
Definition NewBenchmarker (cfg : config.Config) (dryRun : bool)
  : M (result Benchmarker) :=
  let* excludeRegexes := compileExcludes (config.ExcludeMetrics cfg) [] in
  let* remoteWriter :=
    if negb dryRun then
      let* rw := NewRemoteWriter (config.RemoteWriteURL cfg)
                   (config.BatchSize cfg) in
      let* _ := logCall logger.INFO "Remote writer initialized"
                  [("remote_write_url",
                    logger.fString (config.RemoteWriteURL cfg));
                   ("batch_size", logger.fInt (config.BatchSize cfg))] in
      ret (Some rw)
    else ret None in
  ret (Ok {| config := cfg; dryRun := dryRun;
             excludeRegexes := excludeRegexes;
             remoteWriter := remoteWriter |}).

Definition discoverMetrics (b : Benchmarker) : M (result (list string)) :=
  let* outcome := nextNameResponse in
  match outcome with
  | GetRequestError e => ret (Err (wrapError "creating request" e))
  | GetTransportError e => ret (Err (wrapError "making request" e))
  | GetReadError e => ret (Err (wrapError "reading response" e))
  | GetParseError e => ret (Err (wrapError "parsing response" e))
  | GetDecoded status body data =>
      if decide (status ≠ "success") then
        ret (Err (errorString ("query failed: " +:+ body)))
      else ret (Ok data)
  end.

(** The inner loop of [filterMetrics]: does some pattern match? *)
Fixpoint excludedBy (regexes : list Regexp) (metric : string) : bool :=
  match regexes with
  | [] => false
  | regex :: rest =>
      if MatchString regex metric then true else excludedBy rest metric
  end.

Fixpoint filterMetricsFrom (regexes : list Regexp) (metrics : list string)
    (filtered : list string) : list string :=
  match metrics with
  | [] => filtered
  | metric :: rest =>
      if negb (excludedBy regexes metric)
      then filterMetricsFrom regexes rest (filtered ++ [metric])
      else filterMetricsFrom regexes rest filtered
  end.

Definition filterMetrics (b : Benchmarker) (metrics : list string)
  : list string :=
  filterMetricsFrom (excludeRegexes b) metrics [].

(** The start, end and step of the query do not change what the code does
    with the answer; the trace keeps the metric asked for. *)
Definition queryMetricRange (b : Benchmarker) (metricName : string)
  : M (result (list Series)) :=
  let* outcome := nextRangeResponse in
  match outcome with
  | GetRequestError e => ret (Err (wrapError "creating request" e))
  | GetTransportError e =>
      let* _ := recordQuery metricName in
      ret (Err (wrapError "making request" e))
  | GetReadError e =>
      let* _ := recordQuery metricName in
      ret (Err (wrapError "reading response" e))
  | GetParseError e =>
      let* _ := recordQuery metricName in
      ret (Err (wrapError "parsing response" e))
  | GetDecoded status body data =>
      let* _ := recordQuery metricName in
      if decide (status ≠ "success") then
        ret (Err (errorString ("query failed: " +:+ body)))
      else ret (Ok data)
  end.

(** The loop of [sendSamples] from index [i]; [fuel] as in
    [sendInBatchesFrom]. *)
Fixpoint sendSamplesFrom (fuel : nat) (b : Benchmarker)
    (labels : gmap string string) (values : list (list any))
    (rateLimiter : Limiter) (i : Z) : M (option error) :=
  let burstSize := Burst rateLimiter in
  let totalSamples := len values in
  if decide (i < totalSamples) then
    match fuel with
    | O => panic
    | S fuel' =>
        let end0 := int_add i burstSize in
        let end_ := if decide (end0 > totalSamples) then totalSamples
                    else end0 in
        match slice values i end_ with
        | None => panic
        | Some chunk =>
            let chunkSize := len chunk in
            let* err := WaitN rateLimiter chunkSize in
            match err with
            | Some e => ret (Some (wrapError "rate limiting" e))
            | None =>
                match int_quot i burstSize,
                      int_quot (int_add (int_add totalSamples burstSize) (-1))
                        burstSize
                with
                | Some q, Some totalChunks =>
                    let chunkNum := int_add q 1 in
                    let* _ := logCall logger.DEBUG
                                "Sending sample chunk to Prometheus"
                                [("chunk_size", logger.fInt chunkSize);
                                 ("chunk_num", logger.fInt chunkNum);
                                 ("total_chunks", logger.fInt totalChunks);
                                 ("labels", logger.fLabels labels)] in
                    let* err :=
                      match remoteWriter b with
                      | Some rw => WriteSamples rw labels chunk
                      | None => ret None
                      end in
                    match err with
                    | Some e =>
                        ret (Some (wrapError
                                     ("writing chunk " +:+ itoa chunkNum) e))
                    | None =>
                        sendSamplesFrom fuel' b labels values rateLimiter
                          (int_add i burstSize)
                    end
                | _, _ => panic
                end
            end
        end
    end
  else ret None.

Definition sendSamples (b : Benchmarker) (labels : gmap string string)
    (values : list (list any)) (rateLimiter : Limiter) : M (option error) :=
  if decide (len values = 0) then ret None
  else sendSamplesFrom (length values) b labels values rateLimiter 0.

(** The loop of [replicateSeries] over the combinations, [i] being the
    range index.  [newLabels] copies [series.Metric] and then overlays the
    label set, so the label set wins on a shared key. *)
Fixpoint replicateCombinations (b : Benchmarker) (metricName : string)
    (series : Series) (rateLimiter : Limiter) (i : Z)
    (labelCombinations : list (gmap string string)) : M (option error) :=
  match labelCombinations with
  | [] => ret None
  | labelSet :: rest =>
      if decide (i >= config.ReplicationFactor (config b)) then ret None
      else
        let newLabels := labelSet ∪ Metric series in
        if dryRun b then
          let* _ := logCall logger.INFO "DRY RUN: Would replicate series"
                      [("metric_name", logger.fString metricName);
                       ("labels", logger.fLabels newLabels);
                       ("sample_count", logger.fInt (len (Values series)))] in
          replicateCombinations b metricName series rateLimiter (i + 1) rest
        else
          let* err := sendSamples b newLabels (Values series) rateLimiter in
          match err with
          | Some e => ret (Some (wrapError "sending samples" e))
          | None =>
              replicateCombinations b metricName series rateLimiter (i + 1)
                rest
          end
  end.

Definition replicateSeries (b : Benchmarker) (metricName : string)
    (series : Series) (rateLimiter : Limiter) : M (option error) :=
  let* labelCombinations := generateLabelCombinationsLogged (config b) in
  replicateCombinations b metricName series rateLimiter 0 labelCombinations.

(** The loop of [processMetric] over the series of one answer. *)
Fixpoint replicateAll (b : Benchmarker) (metricName : string)
    (rateLimiter : Limiter) (result : list Series) : M (option error) :=
  match result with
  | [] => ret None
  | series :: rest =>
      let* err := replicateSeries b metricName series rateLimiter in
      match err with
      | Some e =>
          let* _ := logCall logger.ERROR "Error replicating series"
                      [("metric_name", logger.fString metricName);
                       ("error", logger.fError e)] in
          replicateAll b metricName rateLimiter rest
      | None => replicateAll b metricName rateLimiter rest
      end
  end.

Definition processMetric (b : Benchmarker) (metricName : string)
    (rateLimiter : Limiter) : M (option error) :=
  let* r := queryMetricRange b metricName in
  match r with
  | Err e => ret (Some (wrapError "querying metric data" e))
  | Ok result =>
      if decide (len result = 0) then
        let* _ := logCall logger.DEBUG "No data found for metric"
                    [("metric_name", logger.fString metricName)] in
        ret None
      else replicateAll b metricName rateLimiter result
  end.

(** The loop of [processMetrics] over the metric names. *)
Fixpoint processEach (b : Benchmarker) (rateLimiter : Limiter)
    (metrics : list string) : M (option error) :=
  match metrics with
  | [] => ret None
  | metricName :: rest =>
      let* done := ctxDone in
      match done with
      | Some ctxErr => ret (Some ctxErr)
      | None =>
          let* _ := logCall logger.DEBUG "Processing metric"
                      [("metric_name", logger.fString metricName)] in
          let* err := processMetric b metricName rateLimiter in
          match err with
          | Some e =>
              let* _ := logCall logger.ERROR "Error processing metric"
                          [("metric_name", logger.fString metricName);
                           ("error", logger.fError e)] in
              processEach b rateLimiter rest
          | None => processEach b rateLimiter rest
          end
      end
  end.

Definition processMetrics (b : Benchmarker) (metrics : list string)
  : M (option error) :=
  let* endTime := timeNow in
  let samplesPerSecond := config.SamplesPerSecond (config b) in
  let burstCapacity := int_mul samplesPerSecond 2 in
  let rateLimiter := NewLimiter samplesPerSecond burstCapacity in
  processEach b rateLimiter metrics.

Definition Run (b : Benchmarker) : M (option error) :=
  let* _ := logCall logger.INFO "Starting benchmark process" [] in
  let* r := discoverMetrics b in
  match r with
  | Err e => ret (Some (wrapError "discovering metrics" e))
  | Ok metrics =>
      let* _ := logCall logger.INFO "Metric discovery completed"
                  [("total_metrics", logger.fInt (len metrics))] in
      let filteredMetrics := filterMetrics b metrics in
      let* _ := logCall logger.INFO "Metric filtering completed"
                  [("filtered_metrics", logger.fInt (len filteredMetrics));
                   ("excluded_metrics",
                    logger.fInt (len metrics - len filteredMetrics))] in
      processMetrics b filteredMetrics
  end.

End Benchmarker.

(** ** Vocabulary of the statements about label combinations *)

(** The product of the lengths of the non-empty value lists. *)
Fixpoint radixProduct (labels : list config.ReplicationLabel) : Z :=
  match labels with
  | [] => 1
  | labelConfig :: rest =>
      let n := len (config.Values labelConfig) in
      if decide (n > 0) then n * radixProduct rest else radixProduct rest
  end.

(** [radixPrefix labels k]: the product of the value-list lengths of the
    entries before entry [k]. *)
Definition radixPrefix (labels : list config.ReplicationLabel) (k : nat) : Z :=
  foldr Z.mul 1 ((λ lc, len (config.Values lc)) <$> take k labels).

(** No entry after position [k] carries the label name [name] with a
    non-empty value list. *)
Definition lastWriter (labels : list config.ReplicationLabel) (k : nat)
    (name : string) : Prop :=
  ∀ (j : nat) (lc : config.ReplicationLabel),
    (k < j)%nat → labels !! j = Some lc →
    len (config.Values lc) > 0 → config.Name lc ≠ name.

(** ["bench-1" ... "bench-<replicationFactor>"] *)
Definition benchValues (replicationFactor : Z) : list string :=
  (λ j, "bench-" +:+ itoa (j + 1)) <$> seqZ 0 replicationFactor.

(** What [processLabels] makes of one entry. *)
Definition autoFill (replicationFactor : Z) (lc : config.ReplicationLabel)
  : config.ReplicationLabel :=
  if decide (config.Name lc = "benchmark_instance"
             ∧ len (config.Values lc) = 0)
  then {| config.Name := config.Name lc;
          config.Values := benchValues replicationFactor |}
  else lc.

(** [combine(spec, replicationFactor)] of the specification. *)
Definition combine (spec : list config.ReplicationLabel) (rf : Z)
  : option (list (gmap string string)) :=
  generateLabelCombinations (labelConfig spec rf).

(** ** Vocabulary of the statements about filtering *)

Section FilterVocabulary.
Context `{GoRuntime}.

(** The patterns that compile, as compiled, in configuration order. *)
Fixpoint compiledPatterns (patterns : list string) : list Regexp :=
  match patterns with
  | [] => []
  | pattern :: rest =>
      match Compile pattern with
      | Ok regex => regex :: compiledPatterns rest
      | Err _ => compiledPatterns rest
      end
  end.

(** The patterns that do not compile, with the compiler's error. *)
Fixpoint invalidPatterns (patterns : list string) : list (string * error) :=
  match patterns with
  | [] => []
  | pattern :: rest =>
      match Compile pattern with
      | Ok _ => invalidPatterns rest
      | Err err => (pattern, err) :: invalidPatterns rest
      end
  end.

Definition invalidPatternWarning (pe : string * error) : logger.LogEntry :=
  logger.mkLogEntry logger.WARN "Invalid exclude pattern"
    [("pattern", logger.fString pe.1); ("error", logger.fError pe.2)].

(** A metric name is excluded by a list of patterns when one of them
    compiles to a regular expression that matches it. *)
Definition excludedByPatterns (patterns : list string) (metric : string)
  : Prop :=
  ∃ pattern regex,
    pattern ∈ patterns ∧ Compile pattern = Ok regex
    ∧ MatchString regex metric = true.

End FilterVocabulary.

(** ** Stand-ins for the library functions, for running examples

    [strconv.ParseFloat] on the literals the examples use: the special
    values it accepts by name and two decimal literals; every other string
    is reported as a syntax error.  A regular expression is an anchored
    literal ["^prefix"]; every other pattern is reported as invalid. *)

Definition exampleParseFloat (s : string) : result float64 :=
  if decide (s = "NaN") then Ok S754_nan
  else if decide (s = "Inf" ∨ s = "+Inf") then Ok (S754_infinity false)
  else if decide (s = "-Inf") then Ok (S754_infinity true)
  else if decide (s = "0") then Ok (S754_zero false)
  else if decide (s = "3.14") then Ok (S754_finite false 7070651414971679 (-51))
  else Err (errorString "strconv.ParseFloat: invalid syntax").

Definition exampleCompile (pattern : string) : result string :=
  match pattern with
  | String (Ascii.Ascii false true true true true false true false) literal =>
      Ok literal
  | _ => Err (errorString "error parsing regexp")
  end.

Definition exampleRuntime : GoRuntime :=
  {| ParseFloat := exampleParseFloat;
     Regexp := string;
     Compile := exampleCompile;
     MatchString := String.prefix |}.

(** ** Vocabulary of the statements about value conversion *)

Section ConversionVocabulary.
Context `{GoRuntime}.

(** The float of a raw pair that the conversion keeps: the pair has
    exactly two elements, the second is a string, and [ParseFloat] returns
    it without an error. *)
Definition acceptedValue (value : list any) : option float64 :=
  match value with
  | [_; anyString valueStr] =>
      match ParseFloat valueStr with
      | Ok valueFloat => Some valueFloat
      | Err _ => None
      end
  | _ => None
  end.

End ConversionVocabulary.

(** The next [n] readings of the clock. *)
Definition clockReadings (n : nat) (w : World) : list Z :=
  take n (clock w ++ replicate n 0).

(** The world after [n] calls of [NextTimestamp]. *)
Fixpoint afterTimestamps (n : nat) (w : World) : World :=
  match n with
  | O => w
  | S n' =>
      afterTimestamps n'
        (set_coordinator (NextTimestamp (hd 0 (clock w)) (coordinator w)).2
           (set_clock (tl (clock w)) w))
  end.

(** A world with nothing scripted and nothing done yet. *)
Definition quietWorld : World :=
  mkWorld [] [] [] [] [] [] (NewTimestampCoordinator 0) [] [] [] [].

(** ** Vocabulary of the statements about batches and chunks *)

(** [l] cut into consecutive pieces of [n] elements, the last one
    possibly shorter. *)
Fixpoint chunksFrom {A} (fuel n : nat) (l : list A) : list (list A) :=
  match fuel, l with
  | S fuel', _ :: _ => take n l :: chunksFrom fuel' n (drop n l)
  | _, _ => []
  end.

Definition chunks {A} (n : Z) (l : list A) : list (list A) :=
  chunksFrom (length l) (Z.to_nat n) l.

(** The [k]-th answer the world has left for a POST. *)
Definition postOutcome (w : World) (k : nat) : PostOutcome :=
  default (PostStatus 200) (postResponses w !! k).

(** What [sendBatch] returns on an outcome, and whether the request went
    out. *)
Definition batchError (o : PostOutcome) : option error :=
  match o with
  | PostMarshalError e => Some (wrapError "marshaling write request" e)
  | PostRequestError e => Some (wrapError "creating request" e)
  | PostTransportError e => Some (wrapError "sending request" e)
  | PostStatus code =>
      if decide (code < 200 ∨ code >= 300)
      then Some (errorString
                   ("remote write failed with status " +:+ itoa code))
      else None
  end.

Definition reachesWire (o : PostOutcome) : bool :=
  match o with
  | PostTransportError _ | PostStatus _ => true
  | PostMarshalError _ | PostRequestError _ => false
  end.

(** The error of [sendInBatches] for the batch with index range
    [i, end_). *)
Definition batchRangeError (i end_ : Z) (e : error) : error :=
  wrapError ("sending batch " +:+ itoa i +:+ "-" +:+ itoa end_) e.

(** The batches of a write call sent one after the other, [i] being the
    index of the first series of the first batch: the traversal that
    [sendInBatches] is meant to perform. *)
Fixpoint sendBatches (rw : RemoteWriter) (i : Z)
    (batches : list (list prompb.TimeSeries)) : M (option error) :=
  match batches with
  | [] => ret None
  | batch :: rest =>
      let* err := sendBatch rw batch in
      match err with
      | Some e => ret (Some (batchRangeError i (i + len batch) e))
      | None =>
          let* _ := logCall logger.DEBUG "Batch sent successfully"
                      [("batch_size", logger.fInt (len batch));
                       ("batch_id",
                        logger.fString
                          (itoa i +:+ "-" +:+ itoa (i + len batch)))] in
          sendBatches rw (i + len batch) rest
      end
  end.

(** ** Vocabulary of the statements about rate-limited sending *)

(** The writer of a benchmarker, if it has one, has a batch size that
    [Validate] accepts. *)
Definition writerReady `{GoRuntime} (b : Benchmarker) : Prop :=
  match remoteWriter b with
  | Some rw => 1 <= batchSize rw <= max_int64
  | None => True
  end.

(** ** Vocabulary of the statements about the run *)

(** A computation leaves the component [f] of the world as it was. *)
Definition preserves {X A} (f : World → X) (m : M A) : Prop :=
  ∀ w a w', m w = Some (a, w') → f w' = f w.

(** The answer the world has ready for the discovery request. *)
Definition nameOutcome (w : World) : GetOutcome (list string) :=
  hd (GetTransportError (errorString "EOF")) (nameResponses w).

(** The error of [discoverMetrics] on an outcome, if it is one. *)
Definition discoveryError (o : GetOutcome (list string)) : option error :=
  match o with
  | GetRequestError e => Some (wrapError "creating request" e)
  | GetTransportError e => Some (wrapError "making request" e)
  | GetReadError e => Some (wrapError "reading response" e)
  | GetParseError e => Some (wrapError "parsing response" e)
  | GetDecoded status body _ =>
      if decide (status ≠ "success")
      then Some (errorString ("query failed: " +:+ body))
      else None
  end.

Definition errorEntry (message metricName : string) (e : error)
  : logger.LogEntry :=
  logger.mkLogEntry logger.ERROR message
    [("metric_name", logger.fString metricName);
     ("error", logger.fError e)].


(** ** Vocabulary of the statements about dry runs *)

(** A computation returns normally from every world. *)
Definition returns {A} (m : M A) : Prop := ∀ w, is_Some (m w).

(** The report of a dry run for one label combination of one series. *)
Definition dryRunReport (metricName : string) (series : Series)
    (labelSet : gmap string string) : logger.LogEntry :=
  logger.mkLogEntry logger.INFO "DRY RUN: Would replicate series"
    [("metric_name", logger.fString metricName);
     ("labels", logger.fLabels (labelSet ∪ Metric series));
     ("sample_count", logger.fInt (len (Values series)))].

Definition isDryRunReport (entry : logger.LogEntry) : Prop :=
  logger.Message entry = "DRY RUN: Would replicate series".

(** What [generateLabelCombinations] logs when it fills in
    [benchmark_instance], and the entries of one call: one for each
    configured entry of that name without values. *)
Definition autoFillReport (replicationFactor : Z) : logger.LogEntry :=
  logger.mkLogEntry logger.DEBUG "Auto-generated benchmark_instance values"
    [("count", logger.fInt (len (benchValues replicationFactor)));
     ("values", logger.fStrings (benchValues replicationFactor))].

Definition autoFillReports (c : config.Config) : list logger.LogEntry :=
  (λ _, autoFillReport (config.ReplicationFactor c))
    <$> filter (λ lc, config.Name lc = "benchmark_instance"
                      ∧ len (config.Values lc) = 0)
          (config.Replication c).

#[global] Instance isDryRunReport_dec (entry : logger.LogEntry) :
  Decision (isDryRunReport entry).
Proof. unfold isDryRunReport. apply _. Defined.

(** The answer the world has ready for the next range query. *)
Definition rangeOutcome (w : World) : GetOutcome (list Series) :=
  hd (GetTransportError (errorString "EOF")) (rangeResponses w).

(** ** internal/config: defaults and loading *)

(** [setDefaults]: each unset (zero or empty) field gets its default; the
    assignments are independent of each other. *)
Definition setDefaults (c : config.Config) : config.Config :=
  {| config.QueryURL :=
       if decide (config.QueryURL c = "") then "http://localhost:9090"
       else config.QueryURL c;
     config.RemoteWriteURL :=
       if decide (config.RemoteWriteURL c = "")
       then "http://localhost:9090/api/v1/write"
       else config.RemoteWriteURL c;
     config.ReplicationFactor :=
       if decide (config.ReplicationFactor c = 0) then 2
       else config.ReplicationFactor c;
     config.QueryRangeHours :=
       if decide (config.QueryRangeHours c = 0) then 24
       else config.QueryRangeHours c;
     config.QueryStepSeconds :=
       if decide (config.QueryStepSeconds c = 0) then 60
       else config.QueryStepSeconds c;
     config.SamplesPerSecond :=
       if decide (config.SamplesPerSecond c = 0) then 1000
       else config.SamplesPerSecond c;
     config.BatchSize :=
       if decide (config.BatchSize c = 0) then 100 else config.BatchSize c;
     config.Replication := config.Replication c;
     config.ExcludeMetrics := config.ExcludeMetrics c |}.

(** What reading and decoding the configuration file come to. *)
Inductive FileOutcome : Type :=
| FileReadError (e : error)            (* os.ReadFile *)
| FileParseError (e : error)           (* yaml.Unmarshal *)
| FileParsed (c : config.Config).

Definition LoadConfig (o : FileOutcome) : result config.Config :=
  match o with
  | FileReadError e => Err (wrapError "reading config file" e)
  | FileParseError e => Err (wrapError "parsing config" e)
  | FileParsed c => Ok (setDefaults c)
  end.

(** ** internal/logger: levels, the global logger and its filter

    [LogLevel] is an [int] in Go; the six constants are [0] to [5]. *)

Definition levelCode (l : logger.LogLevel) : Z :=
  match l with
  | logger.TRACE => 0 | logger.DEBUG => 1 | logger.INFO => 2
  | logger.WARN => 3 | logger.ERROR => 4 | logger.FATAL => 5
  end.

(** [(l LogLevel) String()] *)
Definition LogLevel_String (l : Z) : string :=
  if decide (l = 0) then "TRACE"
  else if decide (l = 1) then "DEBUG"
  else if decide (l = 2) then "INFO"
  else if decide (l = 3) then "WARN"
  else if decide (l = 4) then "ERROR"
  else if decide (l = 5) then "FATAL"
  else "UNKNOWN".

(** Upper case of an ASCII string: what [strings.ToUpper] does on a string
    of bytes below 128. *)
Definition asciiUpperChar (c : Ascii.ascii) : Ascii.ascii :=
  let n := Ascii.nat_of_ascii c in
  if decide (97 <= n <= 122)%nat then Ascii.ascii_of_nat (n - 32) else c.

Fixpoint asciiUpper (s : string) : string :=
  match s with
  | EmptyString => EmptyString
  | String c rest => String (asciiUpperChar c) (asciiUpper rest)
  end.

Fixpoint isASCII (s : string) : Prop :=
  match s with
  | EmptyString => True
  | String c rest => (Ascii.nat_of_ascii c < 128)%nat ∧ isASCII rest
  end.

Section LoggerLevels.
(** [strings.ToUpper], a function of the Go library. *)
Variable ToUpper : string → string.

Definition ParseLogLevel (level : string) : Z :=
  let upper := ToUpper level in
  if decide (upper = "TRACE") then 0
  else if decide (upper = "DEBUG") then 1
  else if decide (upper = "INFO") then 2
  else if decide (upper = "WARN" ∨ upper = "WARNING") then 3
  else if decide (upper = "ERROR") then 4
  else if decide (upper = "FATAL") then 5
  else 2.

End LoggerLevels.

Record Logger : Type := mkLogger { level : Z; component : string }.

(** A line written to the standard output. *)
Record Line : Type := mkLine {
  lineLevel : string;
  lineMessage : string;
  lineComponent : string;
  lineFields : list (string * logger.field)
}.

(** The logging side of the process: the global logger (nil until
    [Init]), the lines written, and whether [os.Exit(1)] was called. *)
Record LogState : Type := mkLogState {
  globalLogger : option Logger;
  written : list Line;
  exited : bool
}.

Definition Init (level : Z) (component : string) (s : LogState) : LogState :=
  {| globalLogger := Some {| level := level; component := component |};
     written := written s; exited := exited s |}.

Definition SetLevel (lvl : Z) (s : LogState) : LogState :=
  match globalLogger s with
  | Some l =>
      {| globalLogger := Some {| level := lvl; component := component l |};
         written := written s; exited := exited s |}
  | None => s
  end.

Definition GetLevel (s : LogState) : Z :=
  match globalLogger s with
  | Some l => level l
  | None => 2
  end.

(** [(l *Logger) log]: the fields used by the program (strings, integers,
    string lists, label maps) always marshal, so the fallback branch is
    left out.  Nothing runs after [os.Exit]. *)
Definition log (l : Logger) (lvl : Z) (message : string)
    (fields : list (string * logger.field)) (s : LogState) : LogState :=
  if exited s then s
  else if decide (lvl < level l) then s
  else
    {| globalLogger := globalLogger s;
       written := written s ++ [mkLine (LogLevel_String lvl) message
                                  (component l) fields];
       exited := if decide (lvl = 5) then true else false |}.

(** The common body of [Trace], [Debug], [Info], [Warn], [Error] and
    [Fatal], which differ in the level only. *)
Definition logAt (lvl : Z) (message : string)
    (fields : list (string * logger.field)) (s : LogState) : LogState :=
  match globalLogger s with
  | None => s
  | Some l => log l lvl message fields s
  end.

(** The calls of a trace made one after the other. *)
Definition replay (calls : list logger.LogEntry) (s : LogState) : LogState :=
  foldl (λ s e, logAt (levelCode (logger.Level e)) (logger.Message e)
                  (logger.Fields e) s) s calls.

Definition entryLine (component : string) (e : logger.LogEntry) : Line :=
  mkLine (LogLevel_String (levelCode (logger.Level e))) (logger.Message e)
    component (logger.Fields e).

(** A call passes the filter of a logger. *)
Definition passes (l : Logger) (e : logger.LogEntry) : Prop :=
  level l <= levelCode (logger.Level e).

#[global] Instance passes_dec (l : Logger) (e : logger.LogEntry) :
  Decision (passes l e).
Proof. unfold passes. apply _. Defined.

(** ** Vocabulary of the statements about live runs *)

(** The samples carried by a list of remote-write requests, and the tokens
    of a list of limiter requests. *)
Definition samplesIn (requests : list (string * list prompb.TimeSeries)) : Z :=
  foldr Z.add 0
    ((λ p, foldr Z.add 0 ((λ ts, len (prompb.Samples ts)) <$> p.2))
       <$> requests).

Definition tokensIn (tokens : list Z) : Z := foldr Z.add 0 tokens.

(** A request to [endpoint] with exactly one series of between one and
    [bound] samples. *)
Definition singleSeries (endpoint : string) (bound : Z)
    (p : string * list prompb.TimeSeries) : Prop :=
  p.1 = endpoint
  ∧ ∃ ts, p.2 = [ts] ∧ 1 <= len (prompb.Samples ts) <= bound.

(** From [w] to [w'] the limiter was asked for between one and [bound]
    tokens at a time, every write request went to [endpoint] with a
    single series of at most [bound] samples, and no more samples were
    posted than tokens were asked for. *)
Definition paced (endpoint : string) (bound : Z) (w w' : World) : Prop :=
  ∃ tokens requests,
    acquired w' = acquired w ++ tokens
    ∧ posted w' = posted w ++ requests
    ∧ Forall (λ n, 1 <= n <= bound) tokens
    ∧ Forall (singleSeries endpoint bound) requests
    ∧ samplesIn requests <= tokensIn tokens.

(** Every series of an answer, and of every answer the world has left
    for the range queries, satisfies [P]. *)
Definition answered (P : Series → Prop) (o : GetOutcome (list Series))
  : Prop :=
  match o with
  | GetDecoded _ _ data => Forall P data
  | _ => True
  end.

Definition answersSatisfy (P : Series → Prop) (w : World) : Prop :=
  Forall (answered P) (rangeResponses w).

(** The answers to the range queries hold series of fewer than [2^62]
    raw pairs: a Go slice of slices cannot be longer. *)
Definition boundedWorld (w : World) : Prop :=
  answersSatisfy (λ series, len (Values series) < 2 ^ 62) w.

(** ** Vocabulary of the statements about the queries of a run *)

(** The metric names a discovery answer yields. *)
Definition discovered (o : GetOutcome (list string)) : list string :=
  match o with
  | GetDecoded status _ data => if decide (status = "success") then data else []
  | _ => []
  end.

(** The request of a GET could be built, so that it went out (or was
    tried). *)
Definition requestCreated {A} (o : GetOutcome A) : bool :=
  match o with
  | GetRequestError _ => false
  | _ => true
  end.

(** ** Vocabulary of the statements about the order of the timestamps *)

(** The timestamps of the samples of a list of requests, in the order in
    which they were posted. *)
Definition stampsOf (requests : list (string * list prompb.TimeSeries))
  : list Z :=
  requests ≫= (λ p, p.2 ≫= (λ ts, prompb.Timestamp <$> prompb.Samples ts)).

(** The coordinator counts in steps of one and the clock shows at most
    [limit]. *)
Definition coordinated (limit : Z) (w : World) : Prop :=
  increment (coordinator w) = 1
  ∧ min_int64 <= lastTimestamp (coordinator w)
  ∧ 0 <= limit
  ∧ Forall (λ t, t <= limit) (clock w).

(** From [w] to [w'], as long as the timestamps cannot reach the end of
    [int64] -- each token asked of the limiter pays for one timestamp --
    the requests posted carry strictly increasing timestamps, all above
    the one the coordinator held at [w]. *)
Definition inOrder (limit : Z) (w w' : World) : Prop :=
  ∃ tokens requests,
    acquired w' = acquired w ++ tokens
    ∧ posted w' = posted w ++ requests
    ∧ Forall (λ n, 0 <= n) tokens
    ∧ (coordinated limit w →
       Z.max limit (lastTimestamp (coordinator w)) + tokensIn tokens
       <= max_int64 →
       coordinated limit w'
       ∧ lastTimestamp (coordinator w) <= lastTimestamp (coordinator w')
       ∧ lastTimestamp (coordinator w')
         <= Z.max limit (lastTimestamp (coordinator w)) + tokensIn tokens
       ∧ StronglySorted Z.lt (stampsOf requests)
       ∧ Forall (λ t, lastTimestamp (coordinator w) < t
                      ∧ t <= lastTimestamp (coordinator w'))
           (stampsOf requests)).

(** ** Vocabulary of the statements about the labels of a run *)

(** The series of the answers the world has left for the range queries. *)
Definition pendingSeries (w : World) : list Series :=
  rangeResponses w
    ≫= (λ o, match o with GetDecoded _ _ data => data | _ => [] end).

(** From [w] to [w'] every request posted carries one series, under the
    label pairs of a label map that satisfies [L]. *)
Definition labelledBy (L : gmap string string → Prop) (w w' : World) : Prop :=
  ∃ requests,
    posted w' = posted w ++ requests
    ∧ Forall (λ p, ∃ timeSeries labels,
                p.2 = [timeSeries] ∧ L labels
                ∧ prompb.Labels timeSeries = labelPairs labels) requests.

(** ** Vocabulary of the statements about runs in which nothing fails *)

(** Nothing the world has in store fails: the context is never
    cancelled, the limiter grants every wait, every POST is answered with
    a status in [200, 300). *)
Definition benign (w : World) : Prop :=
  Forall (λ e, e = None) (ctxErrs w)
  ∧ Forall (λ e, e = None) (waitResults w)
  ∧ Forall (λ o, batchError o = None) (postResponses w).

(** The values of the samples of a list of requests, in the order in
    which they were posted. *)
Definition valuesOf (requests : list (string * list prompb.TimeSeries))
  : list float64 :=
  requests ≫= (λ p, p.2 ≫= (λ ts, prompb.SValue <$> prompb.Samples ts)).

Section CompleteVocabulary.
Context `{GoRuntime}.

(** Every chunk of the series holds a raw pair that the conversion
    accepts (a chunk without one fails its write). *)
Definition sendable (bound : Z) (series : Series) : Prop :=
  Forall (λ chunk, omap acceptedValue chunk ≠ [])
    (chunks bound (Values series)).

(** The accepted values of a series, once for each label set. *)
Definition seriesValues (combos : list (gmap string string))
    (series : Series) : list float64 :=
  combos ≫= (λ _, omap acceptedValue (Values series)).

(** What the answer to a range query contributes. *)
Definition answerValues (combos : list (gmap string string))
    (o : GetOutcome (list Series)) : list float64 :=
  match o with
  | GetDecoded status _ data =>
      if decide (status = "success") then data ≫= seriesValues combos else []
  | _ => []
  end.

End CompleteVocabulary.

(** * Properties *)

(** ** Integer arithmetic without wrap-around *)

Lemma wrap64_id (z : Z) : in_int64 z → wrap64 z = z.
Proof.
  unfold in_int64, min_int64, max_int64, wrap64. intros Hz.
  rewrite Z.mod_small; lia.
Qed.

Lemma len_nil {A} : len (@nil A) = 0.
Proof. reflexivity. Qed.

Lemma len_cons {A} (x : A) (l : list A) : len (x :: l) = len l + 1.
Proof. unfold len. simpl. lia. Qed.

Lemma len_nonneg {A} (l : list A) : 0 <= len l.
Proof. unfold len. lia. Qed.

Lemma len_app {A} (l k : list A) : len (l ++ k) = len l + len k.
Proof. unfold len. rewrite length_app. lia. Qed.

(** ** TimestampCoordinator *)

Section TimestampCoordinatorFacts.

(** One call, as long as [lastTimestamp + 1] fits an [int64]. *)
Lemma NextTimestamp_step (now : Z) (tc : TimestampCoordinator) :
  increment tc = 1 →
  min_int64 <= lastTimestamp tc → lastTimestamp tc < max_int64 →
  ∃ t, NextTimestamp now tc = (t, {| lastTimestamp := t; increment := 1 |})
       ∧ t = (if decide (now > lastTimestamp tc) then now
              else lastTimestamp tc + 1)
       ∧ lastTimestamp tc < t.
Proof.
  intros Hinc Hlo Hhi. unfold NextTimestamp, int_add. rewrite Hinc.
  rewrite (wrap64_id (lastTimestamp tc + 1)) by (unfold in_int64; lia).
  eexists. split; [reflexivity|]. split; [reflexivity|].
  case_decide; lia.
Qed.

Lemma NextTimestamps_cons (now : Z) (rest : list Z) (tc : TimestampCoordinator) :
  NextTimestamps (now :: rest) tc
  = (NextTimestamp now tc).1 :: NextTimestamps rest (NextTimestamp now tc).2.
Proof. reflexivity. Qed.

Lemma NextTimestamps_spec (nows : list Z) :
  ∀ tc : TimestampCoordinator,
    increment tc = 1 →
    min_int64 <= lastTimestamp tc →
    Forall (λ t, t + len nows <= max_int64) (lastTimestamp tc :: nows) →
    length (NextTimestamps nows tc) = length nows
    ∧ StronglySorted Z.lt (lastTimestamp tc :: NextTimestamps nows tc)
    ∧ ∀ (k : nat) (now last : Z),
        nows !! k = Some now →
        (lastTimestamp tc :: NextTimestamps nows tc) !! k = Some last →
        NextTimestamps nows tc !! k
        = Some (if decide (now > last) then now else last + 1).
Proof.
  induction nows as [|now rest IH]; intros tc Hinc Hlo Hb.
  - simpl. split; [done|]. split; [repeat constructor|]. intros k ? ? Hk.
    by rewrite lookup_nil in Hk.
  - apply Forall_cons in Hb as [Hb0 Hb]. rewrite len_cons in Hb0.
    pose proof (len_nonneg rest) as Hlen.
    destruct (NextTimestamp_step now tc Hinc Hlo ltac:(lia))
      as (t & Hstep & Ht & Hlt).
    rewrite NextTimestamps_cons, Hstep. cbn [fst snd].
    assert (Hbt : t + len rest <= max_int64).
    { apply Forall_cons in Hb as [Hnow _]. rewrite len_cons in Hnow.
      subst t. case_decide; lia. }
    destruct (IH {| lastTimestamp := t; increment := 1 |}) as (IHl & IHs & IHk).
    + reflexivity.
    + simpl. lia.
    + simpl. constructor; [exact Hbt|].
      apply Forall_cons in Hb as [_ Hb].
      eapply Forall_impl; [exact Hb|]. simpl. intros x Hx.
      rewrite len_cons in Hx. lia.
    + simpl in IHl, IHs, IHk. split; [simpl; by rewrite IHl|]. split.
      * apply StronglySorted_inv in IHs as [IHs1 IHs2].
        constructor; [by constructor|].
        constructor; [exact Hlt|].
        eapply Forall_impl; [exact IHs2|]. simpl. intros; lia.
      * intros [|k] now' last Hk Hlast; simpl in *.
        -- injection Hk as <-. injection Hlast as <-. by rewrite Ht.
        -- by apply IHk.
Qed.

End TimestampCoordinatorFacts.

(** C1.  Successive calls of [NextTimestamp] -- whoever the callers are,
    the mutex puts them in a sequence -- return strictly increasing
    values: each one is greater than every value returned before it (and
    than the initial [lastTimestamp]).  The value returned is the clock
    reading [now] when [now] exceeds the previous [lastTimestamp], and the
    previous [lastTimestamp] plus the increment of 1 ms otherwise.  The
    [int64] counter is assumed not to reach its maximum. *)
Theorem NextTimestamp_strictly_increasing
    (now0 : Z) (nows : list Z) :
  let tc := NewTimestampCoordinator now0 in
  min_int64 <= now0 →
  Forall (λ t, t + len nows <= max_int64) (now0 :: nows) →
  increment tc = 1
  ∧ length (NextTimestamps nows tc) = length nows
  ∧ StronglySorted Z.lt (now0 :: NextTimestamps nows tc)
  ∧ ∀ (k : nat) (now last : Z),
      nows !! k = Some now →
      (now0 :: NextTimestamps nows tc) !! k = Some last →
      NextTimestamps nows tc !! k
      = Some (if decide (now > last) then now else last + 1).
Proof.
  intros tc Hlo Hb. split; [reflexivity|].
  apply (NextTimestamps_spec nows tc); done.
Qed.

Lemma NextTimestamp_strictly_increasing_witness :
  NextTimestamps [1000; 999; 1005; 1005] (NewTimestampCoordinator 1000)
  = [1001; 1002; 1005; 1006]
  ∧ StronglySorted Z.lt
      (1000 :: NextTimestamps [1000; 999; 1005; 1005]
                 (NewTimestampCoordinator 1000)).
Proof.
  split; [reflexivity|].
  apply (NextTimestamp_strictly_increasing 1000 [1000; 999; 1005; 1005]).
  - unfold min_int64. lia.
  - unfold max_int64, len. repeat constructor; simpl; lia.
Defined.

(** Why the bound is there: at the largest [int64] the increment wraps. *)
Remark NextTimestamp_wraps_at_max_int64 :
  (NextTimestamp 0 {| lastTimestamp := max_int64; increment := 1 |}).1
  = min_int64.
Proof. reflexivity. Qed.

(** ** generateLabelCombinations *)

Section LabelCombinations.
Implicit Types (labels : list config.ReplicationLabel)
  (lc : config.ReplicationLabel) (m : gmap string string).

Lemma radixProduct_pos labels : 0 < radixProduct labels.
Proof.
  induction labels as [|lc rest IH]; simpl; [lia|].
  case_decide; [nia|done].
Qed.

Lemma index_mod {A} (l : list A) (c : Z) :
  0 <= c → len l > 0 →
  index l (Z.rem c (len l)) = l !! Z.to_nat (c mod len l)
  ∧ is_Some (l !! Z.to_nat (c mod len l)).
Proof.
  intros Hc Hl. rewrite Z.rem_mod_nonneg by lia.
  pose proof (Z.mod_pos_bound c (len l) ltac:(lia)) as Hb.
  unfold index. rewrite decide_True by lia. split; [done|].
  apply lookup_lt_is_Some. unfold len in *. lia.
Qed.

(** The inner loop returns for every non-negative combination index. *)
Lemma fillLabelSet_total labels : ∀ c m,
  0 <= c → is_Some (fillLabelSet labels c m).
Proof.
  induction labels as [|lc rest IH]; intros c m Hc; simpl; [by eexists|].
  case_decide as Hn; [|by apply IH].
  destruct (index_mod (config.Values lc) c Hc Hn) as [-> [v ->]].
  apply IH. rewrite Z.quot_div_nonneg by lia. apply Z.div_pos; lia.
Qed.

(** Keys no entry writes keep what they had. *)
Lemma fillLabelSet_other labels : ∀ c m m' name,
  fillLabelSet labels c m = Some m' →
  (∀ lc, lc ∈ labels → len (config.Values lc) > 0 → config.Name lc ≠ name) →
  m' !! name = m !! name.
Proof.
  induction labels as [|lc rest IH]; intros c m m' name Hf Hn; simpl in Hf.
  - by simplify_eq.
  - assert (Hrest : ∀ lc', lc' ∈ rest → len (config.Values lc') > 0 →
                            config.Name lc' ≠ name).
    { intros lc' Hin. apply Hn. by right. }
    case_decide as Hlen.
    + destruct (index _ _) as [v|]; [|done].
      rewrite (IH _ _ _ _ Hf Hrest). apply lookup_insert_ne.
      apply Hn; [by left|done].
    + by apply (IH _ _ _ _ Hf).
Qed.

(** A key that is present stays present. *)
Lemma fillLabelSet_keeps labels : ∀ c m m' name,
  fillLabelSet labels c m = Some m' →
  is_Some (m !! name) → is_Some (m' !! name).
Proof.
  induction labels as [|lc rest IH]; intros c m m' name Hf Hm; simpl in Hf.
  - by simplify_eq.
  - case_decide.
    + destruct (index _ _) as [v|]; [|done].
      apply (IH _ _ _ _ Hf). rewrite lookup_insert. case_decide; [by eexists|done].
    + by apply (IH _ _ _ _ Hf).
Qed.

(** Every entry with values puts its name into the label set. *)
Lemma fillLabelSet_has labels : ∀ c m m' lc,
  fillLabelSet labels c m = Some m' →
  lc ∈ labels → len (config.Values lc) > 0 →
  is_Some (m' !! config.Name lc).
Proof.
  induction labels as [|lc0 rest IH]; intros c m m' lc Hf Hin Hlen; simpl in Hf.
  - by apply elem_of_nil in Hin.
  - apply elem_of_cons in Hin as [->|Hin].
    + rewrite decide_True in Hf by done.
      destruct (index _ _) as [v|]; [|done].
      apply (fillLabelSet_keeps _ _ _ _ _ Hf). rewrite lookup_insert_eq. by eexists.
    + case_decide.
      * destruct (index _ _) as [v|]; [|done]. by apply (IH _ _ _ _ Hf).
      * by apply (IH _ _ _ _ Hf).
Qed.

(** Whatever the loop leaves in the label set was there before or is a
    value of an entry with that name. *)
Lemma fillLabelSet_drawn labels : ∀ c m m' name v,
  fillLabelSet labels c m = Some m' →
  m' !! name = Some v →
  m !! name = Some v
  ∨ ∃ lc, lc ∈ labels ∧ config.Name lc = name ∧ v ∈ config.Values lc.
Proof.
  induction labels as [|lc rest IH]; intros c m m' name v Hf Hv; simpl in Hf.
  - simplify_eq. by left.
  - case_decide as Hlen.
    + unfold index in Hf. case_decide; [|done].
      destruct (config.Values lc !! _) as [v0|] eqn:Hv0; [|done].
      destruct (IH _ _ _ _ _ Hf Hv) as [Hm|(lc' & Hin & Hname & Hval)].
      * rewrite lookup_insert in Hm. case_decide as Hk.
        -- simplify_eq. right. exists lc. split; [by left|]. split; [done|].
           by eapply list_elem_of_lookup_2.
        -- by left.
      * right. exists lc'. split; [by right|done].
    + destruct (IH _ _ _ _ _ Hf Hv) as [Hm|(lc' & Hin & Hname & Hval)];
        [by left|].
      right. exists lc'. split; [by right|done].
Qed.

(** The mixed-radix digit of entry [k], when no later entry overwrites it.
    The radix prefix counts the non-empty value lists before [k]. *)
Lemma fillLabelSet_digit labels : ∀ (k : nat) c m m' lc,
  0 <= c →
  fillLabelSet labels c m = Some m' →
  labels !! k = Some lc → len (config.Values lc) > 0 →
  lastWriter labels k (config.Name lc) →
  m' !! config.Name lc
  = config.Values lc
      !! Z.to_nat ((c / radixProduct (take k labels)) mod len (config.Values lc)).
Proof.
  induction labels as [|lc0 rest IH]; intros k c m m' lc Hc Hf Hk Hlen Hlast;
    [by rewrite lookup_nil in Hk|].
  simpl in Hf. destruct k as [|k].
  - simpl in Hk. simplify_eq. rewrite decide_True in Hf by done.
    destruct (index_mod (config.Values lc) c Hc Hlen) as [Hi [v Hv]].
    rewrite Hi, Hv in Hf. simpl. rewrite Z.div_1_r, Hv.
    rewrite (fillLabelSet_other _ _ _ _ _ Hf).
    + apply lookup_insert_eq.
    + intros lc' Hin Hl'. apply list_elem_of_lookup in Hin as [j Hj].
      apply (Hlast (S j) lc'); [lia|done|done].
  - simpl in Hk.
    assert (Hlast' : lastWriter rest k (config.Name lc)).
    { intros j lc' Hj Hlc'. apply (Hlast (S j) lc'); [lia|done]. }
    simpl. case_decide as Hlen0.
    + destruct (index_mod (config.Values lc0) c Hc Hlen0) as [Hi [v Hv]].
      rewrite Hi, Hv in Hf.
      rewrite Z.quot_div_nonneg in Hf by lia.
      pose proof (radixProduct_pos (take k rest)) as Hpos.
      assert (Hne : len (config.Values lc0) ≠ 0) by lia.
      rewrite <- (Z.div_div c _ _ Hne Hpos).
      assert (Hc' : 0 <= c / len (config.Values lc0)) by (apply Z.div_pos; lia).
      apply (IH k _ _ _ _ Hc' Hf Hk Hlen Hlast').
    + apply (IH k _ _ _ _ Hc Hf Hk Hlen Hlast').
Qed.

Lemma generateLabelCombinations_combine (c : config.Config) :
  generateLabelCombinations c
  = combine (config.Replication c) (config.ReplicationFactor c).
Proof. reflexivity. Qed.

Lemma processLabels_autoFill (rf : Z) labels :
  0 <= rf → processLabels rf labels = Some (autoFill rf <$> labels).
Proof.
  intros Hrf. induction labels as [|lc rest IH]; simpl; [done|].
  unfold autoFill at 1, autoValues. rewrite (decide_False (P := rf < 0)) by lia.
  case_decide; rewrite IH; reflexivity.
Qed.

Lemma autoFill_id (rf : Z) lc :
  len (config.Values lc) > 0 → autoFill rf lc = lc.
Proof. intros Hlen. unfold autoFill. rewrite decide_False; [done|lia]. Qed.

Lemma autoFill_Name (rf : Z) lc : config.Name (autoFill rf lc) = config.Name lc.
Proof. unfold autoFill. by case_decide. Qed.

(** Without overflow the running product is the mathematical one. *)
Lemma totalCombinationsFrom_exact labels : ∀ total,
  0 < total → total * radixProduct labels <= max_int64 →
  totalCombinationsFrom total labels = total * radixProduct labels.
Proof.
  induction labels as [|lc rest IH]; intros total Ht Hb; simpl in *; [lia|].
  pose proof (radixProduct_pos rest) as Hpos.
  case_decide as Hlen; [|by apply IH].
  unfold int_mul. rewrite wrap64_id.
  - rewrite IH; [lia|nia|lia].
  - unfold in_int64, min_int64, max_int64 in *. nia.
Qed.

Lemma totalCombinations_exact labels :
  radixProduct labels <= max_int64 →
  totalCombinations labels = radixProduct labels.
Proof.
  intros Hb. unfold totalCombinations.
  rewrite totalCombinationsFrom_exact; lia.
Qed.

(** The outer loop over the combination indices. *)
Lemma mapM_fillLabelSet labels (n : Z) :
  ∃ combos,
    mapM (λ i, fillLabelSet labels i ∅) (seqZ 0 n) = Some combos
    ∧ length combos = Z.to_nat n
    ∧ ∀ (i : nat) comb, combos !! i = Some comb →
        fillLabelSet labels (Z.of_nat i) ∅ = Some comb.
Proof.
  assert (Hsome : is_Some (mapM (λ i, fillLabelSet labels i ∅) (seqZ 0 n))).
  { apply mapM_is_Some, Forall_forall. intros i Hi.
    apply elem_of_seqZ in Hi. apply fillLabelSet_total. lia. }
  destruct Hsome as [combos Hc]. exists combos. split; [done|].
  pose proof (length_mapM _ _ _ Hc) as Hlen. rewrite length_seqZ in Hlen.
  split; [done|]. intros i comb Hi.
  apply mapM_Some_1 in Hc.
  destruct (Forall2_lookup_r _ _ _ _ _ Hc Hi) as (z & Hz & Hfill).
  apply lookup_seqZ in Hz as [-> _]. by rewrite Z.add_0_l in Hfill.
Qed.

(** The shape of the result for a configured (non-empty) spec. *)
Lemma combine_configured (spec : list config.ReplicationLabel) (rf : Z) :
  spec ≠ [] → 0 <= rf →
  let processed := autoFill rf <$> spec in
  ∃ combos,
    combine spec rf = Some combos
    ∧ length combos
      = Z.to_nat (Z.min rf (totalCombinations processed))
    ∧ ∀ (i : nat) comb, combos !! i = Some comb →
        fillLabelSet processed (Z.of_nat i) ∅ = Some comb.
Proof.
  intros Hne Hrf processed. unfold combine, generateLabelCombinations. simpl.
  rewrite decide_False
    by (destruct spec; [done|];
        rewrite len_cons; pose proof (len_nonneg spec); lia).
  rewrite processLabels_autoFill by done. fold processed.
  destruct (mapM_fillLabelSet processed
              (Z.min rf (totalCombinations processed)))
    as (combos & Hc & Hlen & Hfill).
  exists combos. split; [|done].
  rewrite <- Hc. f_equal. f_equal. case_decide; lia.
Qed.

Lemma combine_default (rf : Z) :
  0 <= rf →
  combine [] rf
  = Some ((λ i, {[ "benchmark_replica" := "replica-" +:+ itoa i ]})
            <$> seqZ 0 rf).
Proof.
  intros Hrf. unfold combine, generateLabelCombinations, defaultCombinations.
  simpl. by rewrite decide_False by lia.
Qed.

(** An entry without values leaves every loop as it found it. *)
Lemma totalCombinationsFrom_delete labels : ∀ (k : nat) lc total,
  labels !! k = Some lc → len (config.Values lc) = 0 →
  totalCombinationsFrom total (delete k labels)
  = totalCombinationsFrom total labels.
Proof.
  induction labels as [|lc0 rest IH]; intros k lc total Hk Hlen;
    [by rewrite lookup_nil in Hk|].
  destruct k as [|k]; simpl in *.
  - simplify_eq. by rewrite decide_False by lia.
  - case_decide; by eapply IH.
Qed.

Lemma fillLabelSet_delete labels : ∀ (k : nat) lc c m,
  labels !! k = Some lc → len (config.Values lc) = 0 →
  fillLabelSet (delete k labels) c m = fillLabelSet labels c m.
Proof.
  induction labels as [|lc0 rest IH]; intros k lc c m Hk Hlen;
    [by rewrite lookup_nil in Hk|].
  destruct k as [|k]; simpl in *.
  - simplify_eq. by rewrite decide_False by lia.
  - case_decide; [|by eapply IH].
    destruct (index _ _); [|done]. by eapply IH.
Qed.

Lemma radixProduct_all_nonempty labels (k : nat) :
  Forall (λ lc, len (config.Values lc) > 0) labels →
  radixProduct (take k labels) = radixPrefix labels k.
Proof.
  unfold radixPrefix. revert k.
  induction labels as [|lc rest IH]; intros k Hall; [by destruct k|].
  apply Forall_cons in Hall as [Hlc Hall].
  destruct k as [|k]; [done|]. simpl.
  rewrite decide_True by done. by rewrite IH.
Qed.

End LabelCombinations.

(** ** What generateLabelCombinations logs *)

Lemma set_logs_nil (w : World) : set_logs (logs w ++ []) w = w.
Proof. destruct w. simpl. by rewrite app_nil_r. Qed.

(** The logged loop returns the slice of [processLabels] and appends one
    entry for each entry it fills in. *)
Lemma processLabelsLogged_spec (rf : Z)
    (labels : list config.ReplicationLabel) :
  ∀ w,
    processLabelsLogged rf labels w
    = match processLabels rf labels with
      | None => None
      | Some processed =>
          Some (processed,
                set_logs
                  (logs w
                   ++ ((λ _, autoFillReport rf)
                         <$> filter (λ lc, config.Name lc = "benchmark_instance"
                                           ∧ len (config.Values lc) = 0)
                               labels)) w)
      end.
Proof.
  induction labels as [|lc rest IH]; intros w.
  - simpl. by rewrite set_logs_nil.
  - cbn [processLabelsLogged processLabels]. rewrite filter_cons.
    destruct (decide (config.Name lc = "benchmark_instance"
                      ∧ len (config.Values lc) = 0)) as [Hfill|Hkeep].
    + unfold autoValues. destruct (decide (rf < 0)); [done|].
      unfold bind at 1. cbn [logCall]. unfold bind at 1. rewrite IH.
      destruct (processLabels rf rest) as [processed|]; [|done].
      cbn [fmap option_fmap option_map ret logs set_logs].
      rewrite fmap_cons, <- app_assoc. reflexivity.
    + unfold bind at 1. rewrite IH.
      by destruct (processLabels rf rest) as [processed|].
Qed.

(** The logged function returns the label sets of
    [generateLabelCombinations] and appends the entries of the auto-fill. *)
Lemma generateLabelCombinationsLogged_spec (c : config.Config) (w : World) :
  generateLabelCombinationsLogged c w
  = match generateLabelCombinations c with
    | None => None
    | Some combos =>
        Some (combos, set_logs (logs w ++ autoFillReports c) w)
    end.
Proof.
  unfold generateLabelCombinationsLogged, generateLabelCombinations,
    autoFillReports.
  case_decide as Hempty.
  - assert (Hnil : config.Replication c = []).
    { destruct (config.Replication c) as [|lc rest]; [done|].
      rewrite len_cons in Hempty. pose proof (len_nonneg rest). lia. }
    rewrite Hnil. simpl.
    destruct (defaultCombinations _); [|done]. by rewrite set_logs_nil.
  - unfold bind. rewrite processLabelsLogged_spec.
    destruct (processLabels _ _) as [processed|]; [|done].
    by destruct (mapM _ _).
Qed.

Lemma preserves_generateLabelCombinationsLogged {X} (f : World → X)
    (c : config.Config) :
  (∀ x w, f (set_logs x w) = f w) →
  preserves f (generateLabelCombinationsLogged c).
Proof.
  intros f_logs w combos w'. rewrite generateLabelCombinationsLogged_spec.
  destruct (generateLabelCombinations c); [|done].
  intros [= _ <-]. apply f_logs.
Qed.

(** The entries of the auto-fill are no dry-run reports. *)
Lemma filter_autoFillReports (c : config.Config) :
  filter isDryRunReport (autoFillReports c) = [].
Proof.
  unfold autoFillReports.
  induction (filter _ (config.Replication c)) as [|lc rest IH]; [done|].
  rewrite fmap_cons, filter_cons, decide_False by done. exact IH.
Qed.

(** C2 (as amended).  For a replication factor of at least 1: an empty
    spec yields exactly the [replicationFactor] singleton sets
    [{benchmark_replica: "replica-<i>"}], [i] in [0, replicationFactor).
    A non-empty spec yields [min(replicationFactor, P)] label sets, where
    [P] is the product of the lengths of the non-empty value lists after
    the [benchmark_instance] auto-fill (provided [P] fits Go's [int]);
    every value of a produced set is drawn from the value list of an entry
    carrying that label name, and every entry with values has its name in
    every produced set. *)
Theorem combine_count_and_values
    (spec : list config.ReplicationLabel) (rf : Z) :
  let processed := autoFill rf <$> spec in
  1 <= rf →
  radixProduct processed <= max_int64 →
  ∃ combos : list (gmap string string),
    combine spec rf = Some combos
    ∧ (spec = [] →
       combos = (λ i, {[ "benchmark_replica" := "replica-" +:+ itoa i ]})
                  <$> seqZ 0 rf
       ∧ len combos = rf)
    ∧ (spec ≠ [] →
       len combos = Z.min rf (radixProduct processed)
       ∧ ∀ comb, comb ∈ combos →
           (∀ name v, comb !! name = Some v →
              ∃ lc, lc ∈ processed ∧ config.Name lc = name
                    ∧ v ∈ config.Values lc)
           ∧ (∀ lc, lc ∈ processed → len (config.Values lc) > 0 →
                is_Some (comb !! config.Name lc))).
Proof.
  intros processed Hrf Hfit. destruct (decide (spec = [])) as [->|Hne].
  - eexists. split; [apply combine_default; lia|]. split; [|done].
    intros _. split; [done|]. unfold len. rewrite length_fmap, length_seqZ. lia.
  - destruct (combine_configured spec rf Hne ltac:(lia))
      as (combos & Hc & Hlen & Hfill).
    fold processed in Hlen, Hfill.
    exists combos. split; [done|]. split; [done|]. intros _.
    rewrite totalCombinations_exact in Hlen by done.
    pose proof (radixProduct_pos processed) as Hpos.
    split; [unfold len; lia|].
    intros comb Hin. apply list_elem_of_lookup in Hin as [i Hi].
    apply Hfill in Hi. split.
    + intros name v Hv.
      destruct (fillLabelSet_drawn _ _ _ _ _ _ Hi Hv) as [Hm|Hd]; [|done].
      by rewrite lookup_empty in Hm.
    + intros lc Hlc Hl. by eapply fillLabelSet_has.
Qed.

Lemma combine_count_and_values_witness :
  ∃ combos : list (gmap string string),
    combine [config.mkReplicationLabel "region" ["us"; "eu"; "ap"];
             config.mkReplicationLabel "benchmark_instance" []] 2
    = Some combos
    ∧ len combos = 2.
Proof.
  destruct (combine_count_and_values
              [config.mkReplicationLabel "region" ["us"; "eu"; "ap"];
               config.mkReplicationLabel "benchmark_instance" []] 2)
    as (combos & Hc & _ & Hne).
  - lia.
  - vm_compute. discriminate.
  - exists combos. split; [exact Hc|].
    destruct Hne as [Hlen _]; [discriminate|]. exact Hlen.
Defined.

(** The count formula covers neither the empty spec (two sets are
    produced, while the empty product of value-list lengths is 1) nor the
    configured list of an auto-filled [benchmark_instance] (three sets,
    with values that the configured, empty list does not hold). *)
Lemma combine_count_counterexample :
  (∃ combos : list (gmap string string),
     combine [] 2 = Some combos
     ∧ len combos = 2
     ∧ Z.min 2 (radixProduct []) = 1)
  ∧ let spec := [config.mkReplicationLabel "benchmark_instance" []] in
    combine spec 3
    = Some [ {[ "benchmark_instance" := "bench-1" ]};
             {[ "benchmark_instance" := "bench-2" ]};
             {[ "benchmark_instance" := "bench-3" ]} ]
    ∧ Z.min 3 (radixProduct spec) = 1.
Proof.
  split.
  - eexists. split; [reflexivity|]. split; reflexivity.
  - split; vm_compute; reflexivity.
Qed.

(** C3 (as amended).  With all value lists non-empty, combination [i]
    maps the label name of entry [k] to
    [values[k][(i / radixPrefix_k) mod len(values[k])]], where
    [radixPrefix_k] is the product of the value-list lengths of the entries
    before [k] -- for every entry whose name is not used again by a later
    entry (a later entry with the same name overwrites the key).  For
    [region: us, eu] and [env: x, y] with a replication factor of 4 the
    combinations are (us,x), (eu,x), (us,y), (eu,y) in this order. *)
Theorem combine_mixed_radix :
  combine [config.mkReplicationLabel "region" ["us"; "eu"];
           config.mkReplicationLabel "env" ["x"; "y"]] 4
  = Some [ {[ "region" := "us"; "env" := "x" ]};
           {[ "region" := "eu"; "env" := "x" ]};
           {[ "region" := "us"; "env" := "y" ]};
           {[ "region" := "eu"; "env" := "y" ]} ]
  ∧ ∀ (spec : list config.ReplicationLabel) (rf : Z),
      0 <= rf →
      Forall (λ lc, len (config.Values lc) > 0) spec →
      ∃ combos : list (gmap string string),
        combine spec rf = Some combos
        ∧ ∀ (i k : nat) comb lc,
            combos !! i = Some comb →
            spec !! k = Some lc →
            lastWriter spec k (config.Name lc) →
            ∃ v, comb !! config.Name lc = Some v
                 ∧ index (config.Values lc)
                     ((Z.of_nat i / radixPrefix spec k)
                        mod len (config.Values lc)) = Some v.
Proof.
  split; [vm_compute; reflexivity|].
  intros spec rf Hrf Hall. destruct (decide (spec = [])) as [->|Hne].
  - eexists. split; [by apply combine_default|].
    intros i k comb lc _ Hk. by rewrite lookup_nil in Hk.
  - destruct (combine_configured spec rf Hne Hrf)
      as (combos & Hc & _ & Hfill).
    assert (Hid : autoFill rf <$> spec = spec).
    { clear -Hall. induction Hall as [|lc rest Hlc _ IH]; [done|].
      rewrite fmap_cons, autoFill_id by done. by f_equal. }
    rewrite Hid in Hfill.
    exists combos. split; [done|]. intros i k comb lc Hi Hk Hlast.
    apply Hfill in Hi.
    assert (Hlen : len (config.Values lc) > 0).
    { eapply (proj1 (Forall_lookup _ _) Hall); eauto. }
    pose proof (fillLabelSet_digit spec k _ _ _ lc (Nat2Z.is_nonneg i)
                  Hi Hk Hlen Hlast) as Hd.
    rewrite radixProduct_all_nonempty in Hd by done.
    assert (Hlen' : 0 < len (config.Values lc)) by lia.
    pose proof (Z.mod_pos_bound (Z.of_nat i / radixPrefix spec k)
                  (len (config.Values lc)) Hlen') as Hb.
    unfold index. rewrite decide_True by lia. rewrite <- Hd.
    destruct (fillLabelSet_has spec _ _ _ lc Hi) as [v Hv];
      [by eapply list_elem_of_lookup_2|done|].
    exists v. by rewrite Hv.
Qed.

Lemma combine_mixed_radix_witness :
  ∃ combos : list (gmap string string),
    combine [config.mkReplicationLabel "a" ["p"; "q"; "r"];
             config.mkReplicationLabel "b" ["x"; "y"]] 5 = Some combos
    ∧ ∀ comb, combos !! 4%nat = Some comb → comb !! "b" = Some "y".
Proof.
  destruct (proj2 combine_mixed_radix
              [config.mkReplicationLabel "a" ["p"; "q"; "r"];
               config.mkReplicationLabel "b" ["x"; "y"]] 5)
    as (combos & Hc & Hdigit).
  - lia.
  - repeat constructor.
  - exists combos. split; [exact Hc|]. intros comb Hcomb.
    destruct (Hdigit 4%nat 1%nat comb (config.mkReplicationLabel "b" ["x"; "y"])
                Hcomb eq_refl) as (v & Hv & Hidx).
    + intros j lc Hj Hlc. destruct j as [|[|[|j]]]; try lia; discriminate.
    + simpl in Hv. rewrite Hv. vm_compute in Hidx. exact (eq_sym Hidx).
Defined.

(** Two entries with one name: the set maps the name to the value of the
    later entry, not to the value chosen for entry 0. *)
Lemma combine_mixed_radix_counterexample :
  let spec := [config.mkReplicationLabel "a" ["x"];
               config.mkReplicationLabel "a" ["y"]] in
  ∃ comb : gmap string string,
    combine spec 1 = Some [comb]
    ∧ Forall (λ lc, len (config.Values lc) > 0) spec
    ∧ comb !! "a" = Some "y"
    ∧ index ["x"] ((0 / radixPrefix spec 0) mod len ["x"]) = Some "x".
Proof.
  eexists. split; [vm_compute; reflexivity|].
  split; [repeat constructor|]. split; reflexivity.
Qed.

(** C10 (as amended).  An entry that is not named [benchmark_instance] and
    has no values contributes nothing: taking it out of the spec (while
    other entries remain) changes neither the number of combinations nor
    any produced label set, and no combination has its label name as a key
    unless another entry with values carries the same name.  An entry
    named [benchmark_instance] without values is first given the values
    ["bench-1"] to ["bench-<replicationFactor>"], and every combination has
    the key [benchmark_instance]. *)
Theorem combine_empty_values
    (spec : list config.ReplicationLabel) (rf : Z) (k : nat)
    (lc : config.ReplicationLabel) :
  1 <= rf →
  spec !! k = Some lc →
  config.Values lc = [] →
  (config.Name lc ≠ "benchmark_instance" →
     (delete k spec ≠ [] → combine (delete k spec) rf = combine spec rf)
     ∧ ((∀ lc', lc' ∈ autoFill rf <$> spec → len (config.Values lc') > 0 →
               config.Name lc' ≠ config.Name lc) →
        ∀ combos comb, combine spec rf = Some combos → comb ∈ combos →
          comb !! config.Name lc = None))
  ∧ (config.Name lc = "benchmark_instance" →
     (autoFill rf <$> spec) !! k
     = Some {| config.Name := "benchmark_instance";
               config.Values := benchValues rf |}
     ∧ len (benchValues rf) = rf
     ∧ ∃ combos, combine spec rf = Some combos
         ∧ (radixProduct (autoFill rf <$> spec) <= max_int64 →
            0 < len combos)
         ∧ ∀ comb, comb ∈ combos → is_Some (comb !! "benchmark_instance")).
Proof.
  intros Hrf Hk Hvals.
  assert (Hspec : spec ≠ []) by (intros ->; by rewrite lookup_nil in Hk).
  destruct (combine_configured spec rf Hspec ltac:(lia))
    as (combos & Hc & Hlen & Hfill).
  split.
  - intros Hname.
    assert (Hfix : autoFill rf lc = lc).
    { unfold autoFill. rewrite decide_False; [done|]. by intros [? _]. }
    assert (Hk' : (autoFill rf <$> spec) !! k = Some lc).
    { rewrite list_lookup_fmap, Hk. simpl. by rewrite Hfix. }
    assert (Hlen0 : len (config.Values lc) = 0) by (by rewrite Hvals).
    split.
    + intros Hdel. unfold combine, generateLabelCombinations. simpl.
      assert (Hl : ∀ l : list config.ReplicationLabel,
                 l ≠ [] → len l ≠ 0).
      { intros [|x l] Hl; [done|]. rewrite len_cons.
        pose proof (len_nonneg l). lia. }
      rewrite !decide_False by (by apply Hl).
      rewrite !processLabels_autoFill by lia.
      rewrite list_fmap_delete. unfold totalCombinations.
      rewrite (totalCombinationsFrom_delete _ _ _ _ Hk' Hlen0).
      apply mapM_ext. intros i. by apply (fillLabelSet_delete _ _ lc).
    + intros Hnone combos' comb Hc' Hin. rewrite Hc in Hc'. simplify_eq.
      apply list_elem_of_lookup in Hin as [i Hi]. apply Hfill in Hi.
      rewrite (fillLabelSet_other _ _ _ _ _ Hi); [apply lookup_empty|].
      exact Hnone.
  - intros Hname.
    assert (Hk' : (autoFill rf <$> spec) !! k
                  = Some {| config.Name := "benchmark_instance";
                            config.Values := benchValues rf |}).
    { rewrite list_lookup_fmap, Hk. simpl. unfold autoFill.
      rewrite decide_True; [by rewrite Hname|]. by rewrite Hvals. }
    assert (Hbench : len (benchValues rf) = rf).
    { unfold len, benchValues. rewrite length_fmap, length_seqZ. lia. }
    split; [done|]. split; [done|]. exists combos. split; [done|].
    split.
    + intros Hfit. pose proof (radixProduct_pos (autoFill rf <$> spec)) as Hpos.
      unfold len. rewrite Hlen, totalCombinations_exact by done. lia.
    + intros comb Hin. apply list_elem_of_lookup in Hin as [i Hi].
      apply Hfill in Hi.
      apply (fillLabelSet_has _ _ _ _ _ Hi (list_elem_of_lookup_2 _ _ _ Hk')).
      simpl. lia.
Qed.

Lemma combine_empty_values_witness :
  let spec := [config.mkReplicationLabel "region" [];
               config.mkReplicationLabel "benchmark_instance" []] in
  combine (delete 0%nat spec) 2 = combine spec 2
  ∧ ∃ combos, combine spec 2 = Some combos
      ∧ ∀ comb, comb ∈ combos → is_Some (comb !! "benchmark_instance").
Proof.
  intros spec. split.
  - destruct (combine_empty_values spec 2 0
                (config.mkReplicationLabel "region" [])) as [Hskip _].
    + lia.
    + reflexivity.
    + reflexivity.
    + destruct Hskip as [Hdel _]; [discriminate|].
      apply Hdel. discriminate.
  - destruct (combine_empty_values spec 2 1
                (config.mkReplicationLabel "benchmark_instance" []))
      as [_ Hfill].
    + lia.
    + reflexivity.
    + reflexivity.
    + destruct Hfill as (_ & _ & combos & Hc & _ & Hkey); [reflexivity|].
      exists combos. split; [exact Hc|exact Hkey].
Defined.

(** The label name of an entry without values can still be a key: here
    the second entry writes it. *)
Lemma combine_empty_values_counterexample :
  let spec := [config.mkReplicationLabel "region" [];
               config.mkReplicationLabel "region" ["us"]] in
  ∃ comb : gmap string string,
    combine spec 1 = Some [comb]
    ∧ spec !! 0%nat = Some (config.mkReplicationLabel "region" [])
    ∧ "region" ≠ "benchmark_instance"
    ∧ comb !! "region" = Some "us".
Proof.
  eexists. split; [vm_compute; reflexivity|].
  split; [reflexivity|]. split; [discriminate|reflexivity].
Qed.

(** ** Metric filtering *)

Section Filtering.
Context `{GoRuntime}.

Lemma compileExcludes_spec (patterns : list string) :
  ∀ (acc : list Regexp) (w : World),
    compileExcludes patterns acc w
    = Some (acc ++ compiledPatterns patterns,
            set_logs (logs w ++ (invalidPatternWarning
                                   <$> invalidPatterns patterns)) w).
Proof.
  induction patterns as [|pattern rest IH]; intros acc w; simpl.
  - rewrite !app_nil_r. by destruct w.
  - destruct (Compile pattern) as [regex|err].
    + rewrite IH. by rewrite <- app_assoc.
    + unfold bind, logCall. rewrite IH. simpl. by rewrite <- app_assoc.
Qed.

Lemma excludedBy_existsb (regexes : list Regexp) (metric : string) :
  excludedBy regexes metric
  = existsb (λ regex, MatchString regex metric) regexes.
Proof.
  induction regexes as [|regex rest IH]; simpl; [done|].
  by destruct (MatchString regex metric).
Qed.

Lemma filterMetricsFrom_spec (regexes : list Regexp) (metrics : list string) :
  ∀ filtered,
    filterMetricsFrom regexes metrics filtered
    = filtered ++ filter (λ metric, excludedBy regexes metric = false) metrics.
Proof.
  induction metrics as [|metric rest IH]; intros filtered; simpl.
  - by rewrite app_nil_r.
  - rewrite filter_cons. destruct (excludedBy regexes metric) eqn:Hex; simpl.
    + apply IH.
    + rewrite IH. by rewrite <- app_assoc.
Qed.

Lemma excludedBy_compiled (patterns : list string) (metric : string) :
  excludedBy (compiledPatterns patterns) metric = true
  ↔ excludedByPatterns patterns metric.
Proof.
  rewrite excludedBy_existsb, existsb_exists. unfold excludedByPatterns.
  induction patterns as [|pattern rest IH]; simpl.
  - split; [intros (r & [] & _)|intros (p & r & Hp & _); by apply elem_of_nil in Hp].
  - split.
    + intros (r & Hin & Hm). destruct (Compile pattern) as [regex|err] eqn:Hc.
      * destruct Hin as [->|Hin].
        -- exists pattern, r. split; [by left|done].
        -- destruct (proj1 IH) as (p' & r' & Hp' & Hc' & Hm'); [by exists r|].
           exists p', r'. split; [by right|done].
      * destruct (proj1 IH) as (p' & r' & Hp' & Hc' & Hm'); [by exists r|].
        exists p', r'. split; [by right|done].
    + intros (p & r & Hp & Hc & Hm). apply elem_of_cons in Hp as [->|Hp].
      * rewrite Hc. exists r. split; [by left|done].
      * destruct (proj2 IH) as (r' & Hin' & Hm'); [by exists p, r|].
        exists r'. split; [|done]. destruct (Compile pattern); [by right|done].
Qed.

End Filtering.

(** C7.  [NewBenchmarker] compiles the exclude patterns in order: a pattern
    that does not compile is logged with a warning and skipped, the others
    are all kept.  [filterMetrics] then keeps, in order, exactly the names
    that no compiled pattern matches: a name is dropped if and only if at
    least one pattern compiles to an expression matching it. *)
Theorem filterMetrics_excludes_matches `{GoRuntime}
    (cfg : config.Config) (dry : bool) (w : World) :
  ∃ (b : Benchmarker) (w' : World),
    NewBenchmarker cfg dry w = Some (Ok b, w')
    ∧ excludeRegexes b = compiledPatterns (config.ExcludeMetrics cfg)
    ∧ filter (λ e, logger.Level e = logger.WARN) (logs w')
      = filter (λ e, logger.Level e = logger.WARN) (logs w)
        ++ (invalidPatternWarning
              <$> invalidPatterns (config.ExcludeMetrics cfg))
    ∧ ∀ metrics : list string,
        filterMetrics b metrics
        = filter (λ metric,
                    existsb (λ regex, MatchString regex metric)
                      (compiledPatterns (config.ExcludeMetrics cfg)) = false)
            metrics
        ∧ ∀ metric, metric ∈ filterMetrics b metrics
                    ↔ metric ∈ metrics
                      ∧ ¬ excludedByPatterns
                            (config.ExcludeMetrics cfg) metric.
Proof.
  unfold NewBenchmarker, bind. rewrite compileExcludes_spec. simpl.
  set (warnings := invalidPatternWarning
                     <$> invalidPatterns (config.ExcludeMetrics cfg)).
  assert (Hfilter : filter (λ e, logger.Level e = logger.WARN) warnings
                    = warnings).
  { subst warnings. induction (invalidPatterns _) as [|pe l IH]; [done|].
    rewrite fmap_cons, filter_cons, decide_True by done. by rewrite IH. }
  assert (Hcommon : ∀ b : Benchmarker,
    excludeRegexes b = compiledPatterns (config.ExcludeMetrics cfg) →
    ∀ metrics : list string,
      filterMetrics b metrics
      = filter (λ metric,
                  existsb (λ regex, MatchString regex metric)
                    (compiledPatterns (config.ExcludeMetrics cfg)) = false)
          metrics
      ∧ ∀ metric, metric ∈ filterMetrics b metrics
                  ↔ metric ∈ metrics
                    ∧ ¬ excludedByPatterns
                          (config.ExcludeMetrics cfg) metric).
  { intros b Hb metrics. unfold filterMetrics.
    rewrite filterMetricsFrom_spec, Hb. simpl. split.
    - apply list_filter_iff. intros metric. by rewrite excludedBy_existsb.
    - intros metric. rewrite list_elem_of_filter.
      rewrite <- excludedBy_compiled.
      destruct (excludedBy _ metric); split; intros [Hin Hex]; split;
        try done; try (by intros []); by destruct Hex. }
  destruct dry; simpl.
  - eexists _, _. split; [reflexivity|]. simpl. split; [done|].
    split; [by rewrite filter_app, Hfilter|]. by apply Hcommon.
  - eexists _, _. split; [reflexivity|]. simpl. split; [done|].
    split; [|by apply Hcommon].
    rewrite !filter_app, Hfilter. rewrite filter_cons, decide_False by done.
    by rewrite filter_nil, app_nil_r.
Qed.

(** The example of the specification: [^go_] removes
    [go_memstats_alloc_bytes] and keeps [http_requests_total]; the invalid
    pattern before it is skipped with a warning. *)
Example filterMetrics_example :
  let cfg := {| config.QueryURL := ""; config.RemoteWriteURL := "";
                config.ReplicationFactor := 2; config.QueryRangeHours := 1;
                config.QueryStepSeconds := 1; config.SamplesPerSecond := 1;
                config.BatchSize := 1; config.Replication := [];
                config.ExcludeMetrics := ["[unclosed"; "^go_"] |} in
  let w := mkWorld [] [] [] [] [] [] (NewTimestampCoordinator 0) [] [] [] [] in
  ∃ b w',
    @NewBenchmarker exampleRuntime cfg true w = Some (Ok b, w')
    ∧ @filterMetrics exampleRuntime b
        ["go_memstats_alloc_bytes"; "http_requests_total"]
      = ["http_requests_total"]
    ∧ logs w' = [invalidPatternWarning
                   ("[unclosed", errorString "error parsing regexp")].
Proof. eexists _, _. split; [reflexivity|]. split; reflexivity. Qed.

(** ** Value conversion *)

Section Conversion.
Context `{GoRuntime}.

Lemma clockReadings_S (n : nat) (w : World) :
  clockReadings (S n) w
  = hd 0 (clock w) :: clockReadings n (set_clock (tl (clock w)) w).
Proof.
  unfold clockReadings. destruct (clock w) as [|now rest]; simpl; [done|].
  f_equal. change (0 :: replicate n 0) with (replicate (S n) 0).
  rewrite !take_app, !take_replicate. do 2 f_equal. lia.
Qed.

Lemma nextTimestamp_spec (w : World) :
  nextTimestamp w
  = Some ((NextTimestamp (hd 0 (clock w)) (coordinator w)).1,
          afterTimestamps 1 w).
Proof.
  reflexivity.
Qed.

(** The conversion loop: the accepted floats, stamped in order. *)
Lemma convertSamples_spec (values : list (list any)) :
  ∀ (samples : list prompb.Sample) (w : World),
    let floats := omap acceptedValue values in
    ∃ stamped : list prompb.Sample,
      convertSamples values samples w
      = Some (samples ++ stamped, afterTimestamps (length floats) w)
      ∧ prompb.SValue <$> stamped = floats
      ∧ prompb.Timestamp <$> stamped
        = NextTimestamps (clockReadings (length floats) w) (coordinator w).
Proof.
  induction values as [|value rest IH]; intros samples w; simpl.
  - exists []. by rewrite app_nil_r.
  - assert (Hskip : acceptedValue value = None →
      ∃ stamped : list prompb.Sample,
        convertSamples rest samples w
        = Some (samples ++ stamped,
                afterTimestamps
                  (length (omap acceptedValue (value :: rest))) w)
        ∧ prompb.SValue <$> stamped = omap acceptedValue (value :: rest)
        ∧ prompb.Timestamp <$> stamped
          = NextTimestamps
              (clockReadings
                 (length (omap acceptedValue (value :: rest))) w)
              (coordinator w)).
    { intros Hnone. simpl. rewrite Hnone. apply IH. }
    destruct value as [|x [|y [|z value]]]; simpl;
      try (apply Hskip; reflexivity).
    + destruct y as [f|valueStr|b0| |]; try (by apply Hskip).
      destruct (ParseFloat valueStr) as [valueFloat|err] eqn:Hparse.
      * unfold bind. rewrite nextTimestamp_spec.
        destruct (IH (samples ++ [prompb.mkSample
                        (NextTimestamp (hd 0 (clock w)) (coordinator w)).1
                        valueFloat]) (afterTimestamps 1 w))
          as (stamped & Hc & Hv & Ht).
        eexists (_ :: stamped). rewrite Hc, <- app_assoc.
        split; [done|]. rewrite !fmap_cons, Hv. split; [done|].
        cbn [length]. rewrite clockReadings_S, NextTimestamps_cons.
        by rewrite Ht.
      * apply IH.
    + rewrite decide_True
        by (rewrite !len_cons; pose proof (len_nonneg value); lia).
      destruct y; apply IH.
Qed.

End Conversion.

(** C4 (as amended).  [convertToTimeSeries] drops, without failing, every
    raw pair that does not have exactly two elements, or whose second
    element is not a string, or whose second element [ParseFloat] rejects
    with an error; the pairs it keeps become the samples, in order, with
    the parsed values and fresh timestamps from the coordinator.  The call
    fails with "no valid samples found" exactly when the list of pairs is
    not empty and no sample remains; an empty list of pairs fails with "no
    values provided".  Finiteness is not checked: whatever float
    [ParseFloat] returns without an error is kept. *)
Theorem convertToTimeSeries_keeps_accepted `{GoRuntime}
    (labels : gmap string string) (values : list (list any)) (w : World) :
  let floats := omap acceptedValue values in
  ∃ (r : result prompb.TimeSeries) (w' : World),
    convertToTimeSeries labels values w = Some (r, w')
    ∧ (r = Err (errorString "no values provided") ↔ values = [])
    ∧ (r = Err (errorString "no valid samples found")
       ↔ values ≠ [] ∧ floats = [])
    ∧ (floats ≠ [] →
       ∃ timeSeries,
         r = Ok timeSeries
         ∧ prompb.SValue <$> prompb.Samples timeSeries = floats
         ∧ prompb.Timestamp <$> prompb.Samples timeSeries
           = NextTimestamps (clockReadings (length floats) w)
               (coordinator w)).
Proof.
  intros floats. unfold convertToTimeSeries.
  destruct values as [|value rest].
  - rewrite decide_True by done. eexists _, _. split; [reflexivity|].
    split; [done|]. split; [|done]. split; [done|]. by intros [? _].
  - rewrite decide_False
      by (rewrite len_cons; pose proof (len_nonneg rest); lia).
    destruct (convertSamples_spec (value :: rest) [] w)
      as (stamped & Hc & Hv & Ht).
    fold floats in Hc, Hv, Ht. unfold bind. rewrite Hc. simpl.
    destruct stamped as [|sample stamped].
    + rewrite decide_True by done. eexists _, _. split; [reflexivity|].
      split; [done|]. split; [done|]. intros Hne. by rewrite <- Hv in Hne.
    + rewrite decide_False
        by (rewrite len_cons; pose proof (len_nonneg stamped); lia).
      eexists _, _. split; [reflexivity|].
      split; [done|]. split.
      * split; [done|]. intros [_ Hnil]. by rewrite <- Hv in Hnil.
      * intros _. eexists. split; [reflexivity|]. by split.
Qed.

Lemma convertToTimeSeries_keeps_accepted_witness :
  ∃ (timeSeries : prompb.TimeSeries) (w' : World),
    @convertToTimeSeries exampleRuntime ∅
      [[anyFloat (S754_zero false); anyString "3.14"];
       [anyString "x"; anyString "not-a-number"]] quietWorld
    = Some (Ok timeSeries, w')
    ∧ prompb.SValue <$> prompb.Samples timeSeries
      = [S754_finite false 7070651414971679 (-51)].
Proof.
  destruct (@convertToTimeSeries_keeps_accepted exampleRuntime ∅
              [[anyFloat (S754_zero false); anyString "3.14"];
               [anyString "x"; anyString "not-a-number"]] quietWorld)
    as (r & w' & Hc & _ & _ & Hok).
  destruct Hok as (timeSeries & Hr & Hv & _); [discriminate|].
  exists timeSeries, w'. split; [by rewrite <- Hr|exact Hv].
Defined.

(** A string that [ParseFloat] turns into NaN (as Go's does for the
    literal "NaN") gives a sample that is kept although it is not
    finite. *)
Lemma convertToTimeSeries_keeps_accepted_counterexample :
  ∃ (timeSeries : prompb.TimeSeries) (w' : World),
    @convertToTimeSeries exampleRuntime ∅
      [[anyFloat (S754_zero false); anyString "NaN"]] quietWorld
    = Some (Ok timeSeries, w')
    ∧ prompb.SValue <$> prompb.Samples timeSeries = [S754_nan]
    ∧ is_finite S754_nan = false.
Proof. eexists _, _. split; [reflexivity|]. split; reflexivity. Qed.

(** The examples of the specification: ["3.14"] is converted, a pair
    whose string is not a number is dropped, and a series of invalid pairs
    only is an error. *)
Example convertToTimeSeries_examples :
  (∃ timeSeries w',
     @convertToTimeSeries exampleRuntime ∅
       [[anyFloat (S754_zero false); anyString "3.14"];
        [anyString "x"; anyString "not-a-number"]] quietWorld
     = Some (Ok timeSeries, w')
     ∧ prompb.SValue <$> prompb.Samples timeSeries
       = [S754_finite false 7070651414971679 (-51)])
  ∧ ∃ w',
      @convertToTimeSeries exampleRuntime ∅
        [[anyString "x"; anyString "not-a-number"];
         [anyFloat (S754_zero false)]] quietWorld
      = Some (Err (errorString "no valid samples found"), w').
Proof.
  split.
  - eexists _, _. split; reflexivity.
  - eexists. reflexivity.
Qed.

(** ** Chunks of a list *)

Section Chunks.
Context {A : Type}.
Implicit Types (l : list A) (n fuel : nat).

Lemma chunksFrom_fuel n : ∀ fuel1 fuel2 l,
  (length l <= fuel1)%nat → (length l <= fuel2)%nat →
  (0 < n)%nat →
  chunksFrom fuel1 n l = chunksFrom fuel2 n l.
Proof.
  induction fuel1 as [|fuel1 IH]; intros fuel2 l H1 H2 Hn.
  - destruct l; [by destruct fuel2|simpl in H1; lia].
  - destruct l as [|x l]; [by destruct fuel2|].
    destruct fuel2 as [|fuel2]; [simpl in H2; lia|].
    cbn [chunksFrom]. f_equal.
    apply IH; [| |done]; rewrite length_drop; simpl in *; lia.
Qed.

(** The unfolding that defines the chunks. *)
Lemma chunks_cons (n : Z) (x : A) l :
  1 <= n →
  chunks n (x :: l)
  = take (Z.to_nat n) (x :: l) :: chunks n (drop (Z.to_nat n) (x :: l)).
Proof.
  intros Hn. unfold chunks. cbn [length chunksFrom]. f_equal.
  apply chunksFrom_fuel; [|done|lia].
  rewrite length_drop. simpl. lia.
Qed.

Lemma chunks_nil (n : Z) : chunks n (@nil A) = [].
Proof. reflexivity. Qed.

(** Induction along the chunks. *)
Lemma chunks_ind (n : Z) (Hn : 1 <= n) (P : list A → Prop) :
  P [] →
  (∀ x l, P (drop (Z.to_nat n) (x :: l)) → P (x :: l)) →
  ∀ l, P l.
Proof.
  intros Hnil Hcons l. remember (length l) as m eqn:Hm. revert l Hm.
  induction m as [m IH] using lt_wf_ind. intros [|x l] Hm; [done|].
  apply Hcons. apply (IH (length (drop (Z.to_nat n) (x :: l)))); [|done].
  rewrite length_drop. subst m. simpl. lia.
Qed.

Lemma chunks_concat (n : Z) l : 1 <= n → concat (chunks n l) = l.
Proof.
  intros Hn. induction l as [|x l IH] using (chunks_ind n Hn); [done|].
  rewrite chunks_cons by done. cbn [concat]. rewrite IH.
  apply take_drop.
Qed.

Lemma chunks_bounds (n : Z) l :
  1 <= n → Forall (λ chunk, 1 <= len chunk <= n) (chunks n l).
Proof.
  intros Hn. induction l as [|x l IH] using (chunks_ind n Hn);
    [by constructor|].
  rewrite chunks_cons by done. constructor; [|done].
  unfold len. rewrite length_take. simpl. lia.
Qed.

(** Chunk [k] starts at index [k * n]. *)
Lemma chunks_lookup (n : Z) l : 1 <= n → ∀ (k : nat) chunk,
  chunks n l !! k = Some chunk →
  chunk = take (Z.to_nat n) (drop (k * Z.to_nat n) l)
  ∧ Z.of_nat k * n < len l.
Proof.
  intros Hn. induction l as [|x l IH] using (chunks_ind n Hn);
    [intros k chunk Hk; by rewrite chunks_nil, lookup_nil in Hk|].
  intros k chunk. rewrite chunks_cons by done. destruct k as [|k]; simpl.
  - intros [= <-]. split; [done|]. rewrite len_cons.
    pose proof (len_nonneg l). lia.
  - intros Hk. apply IH in Hk as [-> Hlt]. split.
    + by rewrite drop_drop, (Nat.add_comm (Z.to_nat n)).
    + unfold len in *. rewrite length_drop in Hlt.
      cbn [length] in *. lia.
Qed.

(** The chunks before chunk [j] are the first [j * n] elements. *)
Lemma chunks_take_concat (n : Z) l : 1 <= n → ∀ j : nat,
  concat (take j (chunks n l)) = take (j * Z.to_nat n) l.
Proof.
  intros Hn. induction l as [|x l IH] using (chunks_ind n Hn);
    intros j; [by rewrite chunks_nil, take_nil, take_nil|].
  rewrite chunks_cons by done. destruct j as [|j]; [done|].
  cbn [take concat]. rewrite IH.
  change (firstn (Z.to_nat n) (x :: l)) with (take (Z.to_nat n) (x :: l)).
  rewrite take_take_drop. f_equal.
Qed.

End Chunks.

(** ** sendInBatches *)

Section SendInBatches.
Implicit Types (rw : RemoteWriter) (w : World)
  (timeSeries : list prompb.TimeSeries).

Lemma sendBatch_spec rw (batch : list prompb.TimeSeries) w :
  let o := postOutcome w 0 in
  let w1 := set_postResponses (tl (postResponses w)) w in
  sendBatch rw batch w
  = Some (batchError o,
          if reachesWire o
          then set_posted (posted w ++ [(endpoint rw, batch)]) w1
          else w1).
Proof.
  unfold sendBatch, bind, nextPostResponse, postOutcome.
  destruct (postResponses w) as [|o rest]; simpl.
  - reflexivity.
  - destruct o as [e|e|e|code]; simpl; try reflexivity.
    by case_decide.
Qed.

Lemma sendInBatchesFrom_done (fuel : nat) rw timeSeries (i : Z) w :
  len timeSeries <= i → sendInBatchesFrom fuel rw timeSeries i w = Some (None, w).
Proof. intros Hi. destruct fuel; simpl; by rewrite decide_False by lia. Qed.

Lemma slice_chunk {A} (l : list A) (i n : Z) :
  0 <= i < len l → 1 <= n →
  slice l i (if decide (i + n > len l) then len l else i + n)
  = Some (take (Z.to_nat n) (drop (Z.to_nat i) l))
  ∧ (if decide (i + n > len l) then len l else i + n)
    = i + len (take (Z.to_nat n) (drop (Z.to_nat i) l)).
Proof.
  intros Hi Hn. unfold len in *. rewrite length_take, length_drop.
  destruct (decide (i + n > Z.of_nat (length l))) as [Hend|Hend];
    unfold slice, len.
  - rewrite decide_True by lia. split; [|lia]. f_equal.
    rewrite !take_ge; [done|rewrite length_drop; lia..].
  - rewrite decide_True by lia. split; [|lia]. do 2 f_equal. lia.
Qed.

(** From index [i] on, the loop sends the chunks of what is left. *)
Lemma sendInBatchesFrom_chunks rw timeSeries :
  1 <= batchSize rw <= max_int64 → len timeSeries < 2 ^ 62 →
  ∀ (fuel : nat) (i : Z) w,
    0 <= i → (i = 0 ∨ batchSize rw <= i) →
    (length (drop (Z.to_nat i) timeSeries) <= fuel)%nat →
    sendInBatchesFrom fuel rw timeSeries i w
    = sendBatches rw i
        (chunks (batchSize rw) (drop (Z.to_nat i) timeSeries)) w.
Proof.
  intros Hbs Hlen. induction fuel as [|fuel IH]; intros i w Hi Hmul Hfuel.
  - destruct (drop (Z.to_nat i) timeSeries) eqn:Hdrop; [|simpl in Hfuel; lia].
    rewrite sendInBatchesFrom_done; [done|].
    apply (f_equal length) in Hdrop. rewrite length_drop in Hdrop.
    unfold len. simpl in Hdrop. lia.
  - destruct (decide (i < len timeSeries)) as [Hlt|Hge].
    2:{ rewrite sendInBatchesFrom_done by lia.
        rewrite drop_ge by (unfold len in *; lia). done. }
    cbn [sendInBatchesFrom]. rewrite decide_True by done.
    assert (Hadd : int_add i (batchSize rw) = i + batchSize rw).
    { apply wrap64_id. unfold in_int64, min_int64, max_int64 in *. lia. }
    rewrite Hadd.
    destruct (slice_chunk timeSeries i (batchSize rw)) as [Hslice Hend];
      [lia..|].
    rewrite Hslice, Hend.
    destruct (drop (Z.to_nat i) timeSeries) as [|x rest] eqn:Hdrop.
    { apply (f_equal length) in Hdrop. rewrite length_drop in Hdrop.
      unfold len in *. simpl in Hdrop. lia. }
    rewrite chunks_cons by lia.
    set (batch := take (Z.to_nat (batchSize rw)) (x :: rest)).
    cbn [sendBatches]. unfold bind.
    destruct (sendBatch rw batch w) as [[[e|] w1]|]; [done| |done].
    destruct (logCall _ _ _ w1) as [[[] w2]|]; [|done].
    rewrite IH.
    + replace (drop (Z.to_nat (i + batchSize rw)) timeSeries)
        with (drop (Z.to_nat (batchSize rw)) (x :: rest)).
      2:{ rewrite <- Hdrop, drop_drop. f_equal. lia. }
      destruct (decide (len batch = batchSize rw)) as [->|Hshort]; [done|].
      assert (Hnil : drop (Z.to_nat (batchSize rw)) (x :: rest) = []).
      { apply drop_ge. subst batch. unfold len in Hshort.
        rewrite length_take in Hshort. lia. }
      by rewrite Hnil.
    + lia.
    + lia.
    + apply (f_equal length) in Hdrop. rewrite length_drop in Hdrop.
      rewrite length_drop. simpl in Hdrop, Hfuel. lia.
Qed.

Lemma drop_tail {A} (n : nat) (l : list A) :
  drop n (tail l) = drop (S n) l.
Proof. destruct l; [|done]. simpl. by destruct n. Qed.

Lemma postOutcome_tail w w' (k : nat) :
  postResponses w' = tl (postResponses w) →
  postOutcome w' k = postOutcome w (S k).
Proof.
  unfold postOutcome. intros ->. by destruct (postResponses w).
Qed.

(** All batches succeed: each is sent once, in order. *)
Lemma sendBatches_ok rw (batches : list (list prompb.TimeSeries)) :
  ∀ (i : Z) w,
    (∀ k : nat, (k < length batches)%nat →
                batchError (postOutcome w k) = None) →
    ∃ w',
      sendBatches rw i batches w = Some (None, w')
      ∧ posted w' = posted w ++ (pair (endpoint rw) <$> batches)
      ∧ postResponses w' = drop (length batches) (postResponses w).
Proof.
  induction batches as [|batch rest IH]; intros i w Hok.
  - exists w. simpl. by rewrite app_nil_r.
  - cbn [sendBatches]. unfold bind. rewrite sendBatch_spec.
    pose proof (Hok 0%nat ltac:(simpl; lia)) as H0. rewrite H0.
    assert (Hwire : reachesWire (postOutcome w 0) = true).
    { destruct (postOutcome w 0); try done. }
    rewrite Hwire. cbn [logCall].
    match goal with |- context [sendBatches rw ?i' rest ?w1] =>
      destruct (IH i' w1) as (w' & Hrun & Hposted & Hresp) end.
    { intros k Hk. rewrite (postOutcome_tail w) by done.
      apply Hok. simpl. lia. }
    exists w'. split; [done|]. rewrite Hposted, Hresp. simpl.
    rewrite <- app_assoc. split; [done|]. apply drop_tail.
Qed.

(** Batch [j] is the first to fail: the batches before it are sent, it is
    tried once, the call ends with its error. *)
Lemma sendBatches_fail rw (batches : list (list prompb.TimeSeries)) :
  ∀ (i : Z) w (j : nat) (e : error),
    (j < length batches)%nat →
    (∀ k : nat, (k < j)%nat → batchError (postOutcome w k) = None) →
    batchError (postOutcome w j) = Some e →
    ∃ w' batch,
      batches !! j = Some batch
      ∧ sendBatches rw i batches w
        = Some (Some (batchRangeError
                        (i + len (concat (take j batches)))
                        (i + len (concat (take j batches)) + len batch) e),
                w')
      ∧ posted w'
        = posted w ++ (pair (endpoint rw)
                         <$> (take j batches
                              ++ if reachesWire (postOutcome w j)
                                 then [batch] else []))
      ∧ postResponses w' = drop (S j) (postResponses w).
Proof.
  induction batches as [|batch rest IH]; intros i w j e Hj Hok He;
    [simpl in Hj; lia|].
  cbn [sendBatches]. unfold bind. rewrite sendBatch_spec.
  destruct j as [|j].
  - rewrite He. eexists _, batch. split; [done|]. simpl.
    rewrite Z.add_0_r. split; [done|].
    destruct (reachesWire (postOutcome w 0)); simpl.
    + split; [done|]. by destruct (postResponses w).
    + rewrite app_nil_r. split; [done|]. by destruct (postResponses w).
  - pose proof (Hok 0%nat ltac:(lia)) as H0. rewrite H0.
    assert (Hwire : reachesWire (postOutcome w 0) = true).
    { destruct (postOutcome w 0); try done. }
    rewrite Hwire. cbn [logCall].
    match goal with |- context [sendBatches rw ?i' rest ?w1] =>
      destruct (IH i' w1 j e) as (w' & b & Hb & Hrun & Hposted & Hresp) end.
    { simpl in Hj. lia. }
    { intros k Hk. rewrite (postOutcome_tail w) by done. apply Hok. lia. }
    { by rewrite (postOutcome_tail w). }
    exists w', b. split; [done|]. rewrite Hrun, Hposted, Hresp.
    rewrite (postOutcome_tail w _ j) by done. simpl.
    rewrite len_app, <- app_assoc, Z.add_assoc.
    split; [done|]. split; [done|]. apply drop_tail.
Qed.

End SendInBatches.

(** C6.  [sendInBatches] cuts the series list, in order, into consecutive
    batches of at most [batchSize] series.  When every batch succeeds each
    one is sent exactly once.  When batch [j] is the first to fail the
    call returns an error that carries the index range of that batch; the
    batches before it have been sent, the failing batch has been tried
    once and not again, and no later batch is sent. *)
Theorem sendInBatches_batches
    (rw : RemoteWriter) (timeSeries : list prompb.TimeSeries) (w : World) :
  1 <= batchSize rw <= max_int64 →
  len timeSeries < 2 ^ 62 →
  let batches := chunks (batchSize rw) timeSeries in
  concat batches = timeSeries
  ∧ Forall (λ batch, 1 <= len batch <= batchSize rw) batches
  ∧ sendInBatches rw timeSeries w = sendBatches rw 0 batches w
  ∧ ((∀ k : nat, (k < length batches)%nat →
                 batchError (postOutcome w k) = None) →
     ∃ w',
       sendInBatches rw timeSeries w = Some (None, w')
       ∧ posted w' = posted w ++ (pair (endpoint rw) <$> batches)
       ∧ postResponses w' = drop (length batches) (postResponses w))
  ∧ ∀ (j : nat) (e : error),
      (j < length batches)%nat →
      (∀ k : nat, (k < j)%nat → batchError (postOutcome w k) = None) →
      batchError (postOutcome w j) = Some e →
      ∃ w' batch,
        batches !! j = Some batch
        ∧ sendInBatches rw timeSeries w
          = Some (Some (batchRangeError
                          (Z.of_nat j * batchSize rw)
                          (Z.min ((Z.of_nat j + 1) * batchSize rw)
                             (len timeSeries)) e), w')
        ∧ posted w'
          = posted w ++ (pair (endpoint rw)
                           <$> (take j batches
                                ++ if reachesWire (postOutcome w j)
                                   then [batch] else []))
        ∧ postResponses w' = drop (S j) (postResponses w).
Proof.
  intros Hbs Hlen batches.
  assert (Hrun : sendInBatches rw timeSeries w = sendBatches rw 0 batches w).
  { unfold sendInBatches.
    rewrite sendInBatchesFrom_chunks; [done..|lia|by left|done]. }
  split; [apply chunks_concat; lia|].
  split; [apply chunks_bounds; lia|].
  split; [done|]. rewrite Hrun. split.
  - apply sendBatches_ok.
  - intros j e Hj Hok He.
    destruct (sendBatches_fail rw batches 0 w j e Hj Hok He)
      as (w' & batch & Hb & Hr & Hposted & Hresp).
    exists w', batch. split; [done|]. split; [|done].
    assert (Hn : 1 <= batchSize rw) by lia.
    rewrite Hr. subst batches. rewrite chunks_take_concat by done.
    destruct (chunks_lookup (batchSize rw) timeSeries Hn _ _ Hb) as [-> Hlt].
    unfold len in *. rewrite !length_take, length_drop.
    remember (Z.to_nat (batchSize rw)) as m eqn:Hm.
    assert (Hbsm : batchSize rw = Z.of_nat m) by lia.
    rewrite Hbsm in *.
    assert (Hjm : (j * m < length timeSeries)%nat) by nia.
    rewrite (Nat.min_l (j * m)) by lia.
    replace (0 + Z.of_nat (j * m)) with (Z.of_nat j * Z.of_nat m) by nia.
    assert (Hend : Z.of_nat j * Z.of_nat m
                   + Z.of_nat (m `min` (length timeSeries - j * m))
                   = Z.min ((Z.of_nat j + 1) * Z.of_nat m)
                       (Z.of_nat (length timeSeries))).
    { destruct (decide (m <= length timeSeries - j * m)%nat).
      - rewrite Nat.min_l by done. nia.
      - rewrite Nat.min_r by lia. nia. }
    by rewrite Hend.
Qed.

Lemma sendInBatches_batches_witness :
  let rw := {| endpoint := "http://localhost:9090/api/v1/write";
               batchSize := 2 |} in
  let series (name : string) :=
    prompb.mkTimeSeries [prompb.mkLabel "__name__" name] [] in
  let w := set_postResponses [PostStatus 200; PostStatus 500] quietWorld in
  ∃ w',
    sendInBatches rw
      [series "a"; series "b"; series "c"; series "d"; series "e"] w
    = Some (Some (batchRangeError 2 4
                    (errorString "remote write failed with status 500")),
            w')
    ∧ posted w' = [(endpoint rw, [series "a"; series "b"]);
                   (endpoint rw, [series "c"; series "d"])]
    ∧ postResponses w' = [].
Proof.
  intros rw series w.
  destruct (sendInBatches_batches rw
              [series "a"; series "b"; series "c"; series "d"; series "e"] w)
    as (_ & _ & _ & _ & Hfail).
  - simpl. unfold max_int64. lia.
  - unfold len. simpl. lia.
  - destruct (Hfail 1%nat (errorString "remote write failed with status 500"))
      as (w' & batch & Hb & Hr & Hp & Hresp).
    + vm_compute. lia.
    + intros k Hk. destruct k; [reflexivity|lia].
    + reflexivity.
    + vm_compute in Hb. injection Hb as <-.
      exists w'. split; [exact Hr|]. split; [exact Hp|exact Hresp].
Defined.

(** ** sendSamples *)

Section SendSamples.
Context `{GoRuntime}.
Implicit Types (b : Benchmarker) (w : World) (rw : RemoteWriter).

(** A write call returns and asks nothing of the limiter. *)
Lemma sendBatches_acquired rw (batches : list (list prompb.TimeSeries)) :
  ∀ (i : Z) w,
    ∃ r w', sendBatches rw i batches w = Some (r, w')
            ∧ acquired w' = acquired w.
Proof.
  induction batches as [|batch rest IH]; intros i w; [by exists None, w|].
  cbn [sendBatches]. unfold bind. rewrite sendBatch_spec.
  destruct (batchError (postOutcome w 0)) as [e|].
  - eexists _, _. split; [reflexivity|]. by destruct (reachesWire _).
  - cbn [logCall].
    match goal with |- context [sendBatches rw ?i' rest ?w1] =>
      destruct (IH i' w1) as (r & w' & Hrun & Hacq) end.
    exists r, w'. split; [done|]. rewrite Hacq.
    by destruct (reachesWire _).
Qed.

Lemma afterTimestamps_acquired (n : nat) : ∀ w,
  acquired (afterTimestamps n w) = acquired w.
Proof. induction n as [|n IH]; intros w; [done|]. simpl. by rewrite IH. Qed.

Lemma sendInBatches_acquired rw (timeSeries : list prompb.TimeSeries) w :
  1 <= batchSize rw <= max_int64 → len timeSeries < 2 ^ 62 →
  ∃ r w', sendInBatches rw timeSeries w = Some (r, w')
          ∧ acquired w' = acquired w.
Proof.
  intros Hbs Hlen. unfold sendInBatches.
  rewrite sendInBatchesFrom_chunks; [|done|done|lia|by left|done].
  apply sendBatches_acquired.
Qed.

Lemma convertToTimeSeries_acquired (labels : gmap string string)
    (values : list (list any)) w :
  ∃ r w', convertToTimeSeries labels values w = Some (r, w')
          ∧ acquired w' = acquired w.
Proof.
  unfold convertToTimeSeries. case_decide; [by eexists _, _|].
  destruct (convertSamples_spec values [] w) as (stamped & Hc & _).
  unfold bind. rewrite Hc.
  case_decide; eexists _, _; (split; [reflexivity|]);
    apply afterTimestamps_acquired.
Qed.

Lemma WriteSamples_acquired rw (labels : gmap string string)
    (values : list (list any)) w :
  1 <= batchSize rw <= max_int64 →
  ∃ r w', WriteSamples rw labels values w = Some (r, w')
          ∧ acquired w' = acquired w.
Proof.
  intros Hbs. unfold WriteSamples, bind.
  destruct (convertToTimeSeries_acquired labels values w)
    as ([timeSeries|e] & w1 & -> & Hacq1).
  - destruct (sendInBatches_acquired rw [timeSeries] w1 Hbs)
      as (r & w' & Hrun & Hacq); [by vm_compute|].
    exists r, w'. split; [done|]. by rewrite Hacq.
  - by eexists _, _.
Qed.

Lemma WaitN_spec (lim : Limiter) (n : Z) w :
  ∃ r w', WaitN lim n w = Some (r, w')
          ∧ acquired w' = acquired w ++ [n]
          ∧ (n > burst lim → r ≠ None).
Proof.
  unfold WaitN, bind, recordAcquire. case_decide.
  - eexists _, _. split; [reflexivity|]. by split.
  - eexists _, _. split; [reflexivity|]. split; [done|lia].
Qed.

(** The loop from index [i]: it returns, and what it asked of the limiter
    is the sizes of the first [n] chunks of what was left, [n] being all
    of them unless an error ended the call. *)
Lemma sendSamplesFrom_acquired b (labels : gmap string string)
    (values : list (list any)) (lim : Limiter) :
  writerReady b →
  1 <= Burst lim <= max_int64 → len values < 2 ^ 62 →
  ∀ (fuel : nat) (i : Z) w,
    0 <= i → (i = 0 ∨ Burst lim <= i) →
    (length (drop (Z.to_nat i) values) <= fuel)%nat →
    let left := chunks (Burst lim) (drop (Z.to_nat i) values) in
    ∃ r w' (n : nat),
      sendSamplesFrom fuel b labels values lim i w = Some (r, w')
      ∧ (n <= length left)%nat
      ∧ (i < len values → (1 <= n)%nat)
      ∧ acquired w' = acquired w ++ (len <$> take n left)
      ∧ (r = None → n = length left).
Proof.
  intros Hready Hburst Hlen.
  induction fuel as [|fuel IH]; intros i w Hi Hmul Hfuel left.
  - assert (Hge : len values <= i).
    { destruct (drop (Z.to_nat i) values) eqn:Hdrop;
        [|simpl in Hfuel; lia].
      apply (f_equal length) in Hdrop. rewrite length_drop in Hdrop.
      unfold len. simpl in Hdrop. lia. }
    exists None, w, 0%nat. simpl. rewrite decide_False by lia.
    subst left. rewrite drop_ge by (unfold len in *; lia).
    rewrite app_nil_r. repeat split; try done; lia.
  - destruct (decide (i < len values)) as [Hlt|Hge].
    2:{ exists None, w, 0%nat. cbn [sendSamplesFrom].
        rewrite decide_False by lia.
        subst left. rewrite drop_ge by (unfold len in *; lia).
        rewrite app_nil_r. repeat split; try done; lia. }
    cbn [sendSamplesFrom]. rewrite decide_True by done.
    assert (Hadd : int_add i (Burst lim) = i + Burst lim).
    { apply wrap64_id. unfold in_int64, min_int64, max_int64 in *. lia. }
    rewrite Hadd.
    destruct (slice_chunk values i (Burst lim)) as [Hslice Hend]; [lia..|].
    rewrite Hslice. subst left.
    destruct (drop (Z.to_nat i) values) as [|x rest] eqn:Hdrop.
    { apply (f_equal length) in Hdrop. rewrite length_drop in Hdrop.
      unfold len in *. simpl in Hdrop. lia. }
    rewrite chunks_cons by lia.
    set (chunk := take (Z.to_nat (Burst lim)) (x :: rest)).
    unfold bind at 1.
    destruct (WaitN_spec lim (len chunk) w) as (rw0 & w1 & Hwait & Hacq1 & _).
    rewrite Hwait.
    destruct rw0 as [e|].
    { exists (Some (wrapError "rate limiting" e)), w1, 1%nat.
      split; [done|]. split; [simpl; lia|]. split; [lia|]. by split. }
    unfold int_quot. rewrite !decide_False by lia.
    unfold bind at 1. cbn [logCall]. unfold bind at 1.
    match goal with |- context [match remoteWriter b with _ => _ end ?w2] =>
      assert (Hwrite : ∃ r w3,
        match remoteWriter b with
        | Some rw => WriteSamples rw labels chunk
        | None => ret None
        end w2 = Some (r, w3) ∧ acquired w3 = acquired w1);
      [|destruct Hwrite as (r2 & w3 & Hwrite & Hacq3); rewrite Hwrite]
    end.
    { unfold writerReady in Hready. destruct (remoteWriter b) as [rw|].
      - destruct (WriteSamples_acquired rw labels chunk
                    (set_logs (logs w1 ++ [logger.mkLogEntry logger.DEBUG
                       "Sending sample chunk to Prometheus"
                       [("chunk_size", logger.fInt (len chunk));
                        ("chunk_num", logger.fInt
                           (int_add (wrap64 (Z.quot i (Burst lim))) 1));
                        ("total_chunks", logger.fInt
                           (wrap64 (Z.quot
                              (int_add (int_add (len values) (Burst lim)) (-1))
                              (Burst lim))));
                        ("labels", logger.fLabels labels)]]) w1) Hready)
          as (r & w3 & Hr & Ha).
        exists r, w3. split; [exact Hr|exact Ha].
      - eexists _, _. split; [reflexivity|done]. }
    destruct r2 as [e|].
    { eexists _, w3, 1%nat. split; [reflexivity|]. split; [simpl; lia|].
      split; [lia|]. split; [by rewrite Hacq3, Hacq1|done]. }
    destruct (IH (i + Burst lim) w3)
      as (r & w' & n & Hrun & Hn & _ & Hacq & Hall).
    + lia.
    + lia.
    + apply (f_equal length) in Hdrop. rewrite length_drop in Hdrop.
      rewrite length_drop. simpl in Hdrop, Hfuel. lia.
    + replace (drop (Z.to_nat (i + Burst lim)) values)
        with (drop (Z.to_nat (Burst lim)) (x :: rest)) in *.
      2:{ rewrite <- Hdrop, drop_drop. f_equal. lia. }
      exists r, w', (S n). split; [exact Hrun|]. split; [simpl; lia|].
      split; [lia|]. split.
      * rewrite Hacq, Hacq3, Hacq1. cbn [take fmap list_fmap].
        by rewrite <- app_assoc.
      * intros Hr. simpl. by rewrite Hall.
Qed.

End SendSamples.

(** C8.  With the limiter that [processMetrics] builds (burst
    [2 * samplesPerSecond]), [sendSamples] on a non-empty sample list cuts
    the list into consecutive chunks of at most [burst] samples and calls
    [WaitN] once for each chunk it comes to, in order, with the size of
    that chunk; it comes to every chunk unless an error ends the call
    before.  No request exceeds the burst. *)
Theorem sendSamples_acquires_chunks `{GoRuntime}
    (b : Benchmarker) (labels : gmap string string)
    (values : list (list any)) (samplesPerSecond : Z) (w : World) :
  let rateLimiter := NewLimiter samplesPerSecond (int_mul samplesPerSecond 2) in
  let pieces := chunks (2 * samplesPerSecond) values in
  writerReady b →
  1 <= samplesPerSecond → 2 * samplesPerSecond <= max_int64 →
  values ≠ [] → len values < 2 ^ 62 →
  Burst rateLimiter = 2 * samplesPerSecond
  ∧ concat pieces = values
  ∧ Forall (λ chunk, 1 <= len chunk <= Burst rateLimiter) pieces
  ∧ ∃ (r : option error) (w' : World) (n : nat),
      sendSamples b labels values rateLimiter w = Some (r, w')
      ∧ (1 <= n <= length pieces)%nat
      ∧ acquired w' = acquired w ++ (len <$> take n pieces)
      ∧ Forall (λ tokens, 1 <= tokens <= Burst rateLimiter)
          (len <$> take n pieces)
      ∧ (r = None → n = length pieces).
Proof.
  intros rateLimiter pieces Hready Hsps Hfit Hne Hlen.
  assert (Hburst : Burst rateLimiter = 2 * samplesPerSecond).
  { unfold rateLimiter, Burst, NewLimiter, int_mul. simpl.
    rewrite wrap64_id; [lia|]. unfold in_int64, min_int64, max_int64 in *. lia. }
  assert (Hbounds : Forall (λ chunk, 1 <= len chunk <= Burst rateLimiter)
                      pieces).
  { rewrite Hburst. apply chunks_bounds. lia. }
  split; [done|]. split; [apply chunks_concat; lia|]. split; [done|].
  unfold sendSamples. rewrite decide_False.
  2:{ destruct values; [done|]. rewrite len_cons.
      pose proof (len_nonneg values). lia. }
  destruct (sendSamplesFrom_acquired b labels values rateLimiter Hready
              ltac:(rewrite Hburst; lia) Hlen (length values) 0 w)
    as (r & w' & n & Hrun & Hn & Hpos & Hacq & Hall); [lia|by left|done|].
  rewrite Hburst in *. change (drop (Z.to_nat 0) values) with values in *.
  fold pieces in Hn, Hacq, Hall.
  exists r, w', n. split; [done|]. split.
  { split; [|done]. apply Hpos. destruct values; [done|].
    rewrite len_cons. pose proof (len_nonneg values). lia. }
  split; [done|]. split; [|done].
  apply Forall_fmap. eapply Forall_impl.
  - apply Forall_take. exact Hbounds.
  - simpl. intros chunk Hc. lia.
Qed.

Lemma sendSamples_acquires_chunks_witness :
  let b := @mkBenchmarker exampleRuntime (labelConfig [] 2) false []
             (Some {| endpoint := "http://localhost:9090/api/v1/write";
                      batchSize := 100 |}) in
  let value := [anyFloat (S754_zero false); anyString "3.14"] in
  ∃ w',
    @sendSamples exampleRuntime b ∅ [value; value; value; value; value]
      (NewLimiter 1 (int_mul 1 2)) quietWorld
    = Some (None, w')
    ∧ acquired w' = [2; 2; 1].
Proof.
  intros b value.
  destruct (@sendSamples_acquires_chunks exampleRuntime b ∅
              [value; value; value; value; value] 1 quietWorld)
    as (_ & _ & _ & r & w' & n & Hrun & _ & Hacq & _ & Hall).
  - unfold writerReady, max_int64. simpl. lia.
  - lia.
  - unfold max_int64. lia.
  - discriminate.
  - unfold len. simpl. lia.
  - assert (Hr : r = None).
    { vm_compute in Hrun. by injection Hrun as <- _. }
    rewrite Hr in Hrun. rewrite (Hall Hr) in Hacq.
    exists w'. split; [exact Hrun|exact Hacq].
Defined.

(** Why the bound on [samplesPerSecond] is there: from [2 ^ 62] on the
    doubled value wraps and the burst is not positive. *)
Remark burstCapacity_wraps :
  Burst (NewLimiter (2 ^ 62) (int_mul (2 ^ 62) 2)) = min_int64.
Proof. reflexivity. Qed.

(** ** Frame properties *)

Lemma preserves_ret {X A} (f : World → X) (a : A) : preserves f (ret a).
Proof. by intros w a' w' [= <- <-]. Qed.

Lemma preserves_panic {X A} (f : World → X) : preserves f (@panic A).
Proof. by intros w a w'. Qed.

Lemma preserves_bind {X A B} (f : World → X) (m : M A) (k : A → M B) :
  preserves f m → (∀ a, preserves f (k a)) → preserves f (bind m k).
Proof.
  intros Hm Hk w b w'. unfold bind.
  destruct (m w) as [[a w1]|] eqn:Hmw; [|done].
  intros Hkw. rewrite (Hk a _ _ _ Hkw). by apply (Hm _ _ _ Hmw).
Qed.

Create HintDb frame.

(** One step through a computation: its shape decides. *)
Ltac frame_step :=
  match goal with
  | |- preserves _ (ret _) => apply preserves_ret
  | |- preserves _ panic => apply preserves_panic
  | |- preserves _ (bind _ _) => apply preserves_bind; [|intros ?]
  | |- preserves _ (match ?x with _ => _ end) => destruct x
  | |- preserves _ _ => solve [eauto with frame]
  | |- preserves _ _ =>
      solve [intros ? ? ? [= <- <-]; first [reflexivity | auto]]
  end.
Ltac frame := repeat frame_step.

Section CtxFrame.
Context `{GoRuntime}.

Lemma ctxErrs_nextTimestamp : preserves ctxErrs nextTimestamp.
Proof. intros w t w'. rewrite nextTimestamp_spec. by intros [= _ <-]. Qed.
Hint Resolve ctxErrs_nextTimestamp : frame.

Lemma ctxErrs_convertSamples values : ∀ samples,
  preserves ctxErrs (convertSamples values samples).
Proof.
  induction values as [|value rest IH]; intros samples; simpl; frame.
Qed.
Hint Resolve ctxErrs_convertSamples : frame.

Lemma ctxErrs_convertToTimeSeries labels values :
  preserves ctxErrs (convertToTimeSeries labels values).
Proof. unfold convertToTimeSeries. frame. Qed.
Hint Resolve ctxErrs_convertToTimeSeries : frame.

Lemma ctxErrs_sendBatch rw timeSeries :
  preserves ctxErrs (sendBatch rw timeSeries).
Proof. unfold sendBatch. frame. Qed.
Hint Resolve ctxErrs_sendBatch : frame.

Lemma ctxErrs_sendInBatchesFrom rw timeSeries (fuel : nat) : ∀ i,
  preserves ctxErrs (sendInBatchesFrom fuel rw timeSeries i).
Proof.
  induction fuel as [|fuel IH]; intros i; cbn [sendInBatchesFrom]; frame.
Qed.
Hint Resolve ctxErrs_sendInBatchesFrom : frame.

Lemma ctxErrs_WriteSamples rw labels values :
  preserves ctxErrs (WriteSamples rw labels values).
Proof. unfold WriteSamples, sendInBatches. frame. Qed.
Hint Resolve ctxErrs_WriteSamples : frame.

Lemma ctxErrs_WaitN lim n : preserves ctxErrs (WaitN lim n).
Proof. unfold WaitN. frame. Qed.
Hint Resolve ctxErrs_WaitN : frame.

Lemma ctxErrs_sendSamplesFrom b labels values lim (fuel : nat) : ∀ i,
  preserves ctxErrs (sendSamplesFrom fuel b labels values lim i).
Proof.
  induction fuel as [|fuel IH]; intros i; cbn [sendSamplesFrom]; frame.
Qed.
Hint Resolve ctxErrs_sendSamplesFrom : frame.

Lemma ctxErrs_sendSamples b labels values lim :
  preserves ctxErrs (sendSamples b labels values lim).
Proof. unfold sendSamples. frame. Qed.
Hint Resolve ctxErrs_sendSamples : frame.

Lemma ctxErrs_replicateCombinations b metricName series lim combos : ∀ i,
  preserves ctxErrs (replicateCombinations b metricName series lim i combos).
Proof.
  induction combos as [|labelSet rest IH]; intros i; simpl; frame.
Qed.
Hint Resolve ctxErrs_replicateCombinations : frame.

Lemma ctxErrs_replicateSeries b metricName series lim :
  preserves ctxErrs (replicateSeries b metricName series lim).
Proof.
  unfold replicateSeries. apply preserves_bind; [|intros ?; frame].
  by apply preserves_generateLabelCombinationsLogged.
Qed.
Hint Resolve ctxErrs_replicateSeries : frame.

Lemma ctxErrs_replicateAll b metricName lim result :
  preserves ctxErrs (replicateAll b metricName lim result).
Proof. induction result as [|series rest IH]; simpl; frame. Qed.
Hint Resolve ctxErrs_replicateAll : frame.

Lemma ctxErrs_queryMetricRange b metricName :
  preserves ctxErrs (queryMetricRange b metricName).
Proof. unfold queryMetricRange. frame. Qed.
Hint Resolve ctxErrs_queryMetricRange : frame.


End CtxFrame.

(** ** The run *)

Section RunFacts.
Context `{GoRuntime}.
Implicit Types (b : Benchmarker) (w : World) (lim : Limiter).

(** What [discoverMetrics] returns. *)
Lemma discoverMetrics_spec b w :
  ∃ r, discoverMetrics b w
       = Some (r, set_nameResponses (tl (nameResponses w)) w)
       ∧ match discoveryError (nameOutcome w) with
         | Some e => r = Err e
         | None => ∃ metrics, r = Ok metrics
         end.
Proof.
  unfold discoverMetrics, bind, nextNameResponse, nameOutcome, discoveryError.
  destruct (hd _ (nameResponses w)) as [e|e|e|e|status body data];
    try (eexists; split; [reflexivity|done]).
  case_decide; eexists; (split; [reflexivity|]); [done|by eexists].
Qed.




End RunFacts.



(** A run in which the query of the first metric fails: the failure is
    logged, the second metric is still queried, the run returns no
    error. *)
Example Run_goes_on_after_a_failed_query :
  let b := @mkBenchmarker exampleRuntime (labelConfig [] 2) true [] None in
  let w := set_nameResponses [GetDecoded "success" "" ["up"; "down"]]
             (set_rangeResponses
                [GetTransportError (errorString "timeout");
                 GetDecoded "success" "" []] quietWorld) in
  ∃ w', Run b w = Some (None, w')
        ∧ queried w' = ["up"; "down"]
        ∧ filter (λ entry, logger.Level entry = logger.ERROR) (logs w')
          = [errorEntry "Error processing metric" "up"
               (wrapError "querying metric data"
                  (wrapError "making request" (errorString "timeout")))].
Proof.
  intros b w. destruct (Run b w) as [[r w']|] eqn:Hrun;
    vm_compute in Hrun; [|discriminate].
  injection Hrun as <- <-. eexists. split; [reflexivity|].
  split; vm_compute; reflexivity.
Qed.

(** ** Dry runs *)

Lemma returns_ret {A} (a : A) : returns (ret a).
Proof. intros w. by eexists. Qed.

Lemma returns_bind {A B} (m : M A) (k : A → M B) :
  returns m → (∀ a, returns (k a)) → returns (bind m k).
Proof.
  intros Hm Hk w. unfold bind. destruct (Hm w) as [[a w1] ->]. apply Hk.
Qed.

Create HintDb total.

Ltac total_step :=
  match goal with
  | |- returns (ret _) => apply returns_ret
  | |- returns (bind _ _) => apply returns_bind; [|intros ?]
  | |- returns (match ?x with _ => _ end) => destruct x
  | |- returns _ => solve [eauto with total]
  | |- returns _ => solve [intros ?; by eexists]
  end.
Ltac total := repeat total_step.

Section DryRun.
Context `{GoRuntime}.
Implicit Types (b : Benchmarker) (w : World) (lim : Limiter).

Lemma combine_total (spec : list config.ReplicationLabel) (rf : Z) :
  0 <= rf →
  ∃ combos, combine spec rf = Some combos ∧ len combos <= rf.
Proof.
  intros Hrf. destruct (decide (spec = [])) as [->|Hne].
  - eexists. split; [by apply combine_default|].
    unfold len. rewrite length_fmap, length_seqZ. lia.
  - destruct (combine_configured spec rf Hne Hrf) as (combos & Hc & Hlen & _).
    exists combos. split; [done|]. unfold len. lia.
Qed.

(** The combination loop of a dry run: one report for each combination it
    comes to, no other effect. *)
Lemma replicateCombinations_dry b metricName series lim :
  dryRun b = true →
  ∀ (combos : list (gmap string string)) (i : Z) w,
    replicateCombinations b metricName series lim i combos w
    = Some (None,
            set_logs
              (logs w ++ (dryRunReport metricName series
                            <$> take (Z.to_nat
                                        (config.ReplicationFactor (config b)
                                         - i)) combos)) w).
Proof.
  intros Hdry. induction combos as [|labelSet rest IH]; intros i w.
  - rewrite take_nil. simpl. by rewrite set_logs_nil.
  - cbn [replicateCombinations]. case_decide as Hi.
    + replace (Z.to_nat _) with 0%nat by lia. simpl.
      by rewrite set_logs_nil.
    + rewrite Hdry. unfold bind. cbn [logCall]. rewrite IH.
      replace (Z.to_nat (config.ReplicationFactor (config b) - i))
        with (S (Z.to_nat (config.ReplicationFactor (config b) - (i + 1))))
        by lia.
      simpl. by rewrite <- app_assoc.
Qed.

(** A series in a dry run: one report per label combination. *)
Lemma replicateSeries_dry b metricName series lim w :
  dryRun b = true →
  0 <= config.ReplicationFactor (config b) →
  ∃ combos,
    generateLabelCombinations (config b) = Some combos
    ∧ replicateSeries b metricName series lim w
      = Some (None,
              set_logs (logs w ++ autoFillReports (config b)
                        ++ (dryRunReport metricName series <$> combos))
                w).
Proof.
  intros Hdry Hrf. rewrite generateLabelCombinations_combine.
  destruct (combine_total (config.Replication (config b)) _ Hrf)
    as (combos & Hc & Hlen).
  exists combos. split; [done|]. unfold replicateSeries, bind.
  rewrite generateLabelCombinationsLogged_spec.
  rewrite generateLabelCombinations_combine, Hc.
  rewrite replicateCombinations_dry by done.
  rewrite take_ge by (unfold len in Hlen; lia).
  cbn [logs set_logs]. by rewrite <- app_assoc.
Qed.

(** A dry run returns. *)
Lemma returns_replicateSeries_dry b metricName series lim :
  dryRun b = true → 0 <= config.ReplicationFactor (config b) →
  returns (replicateSeries b metricName series lim).
Proof.
  intros Hdry Hrf w.
  destruct (replicateSeries_dry b metricName series lim w Hdry Hrf)
    as (combos & _ & ->). by eexists.
Qed.

Lemma returns_Run_dry b :
  dryRun b = true → 0 <= config.ReplicationFactor (config b) →
  returns (Run b).
Proof.
  intros Hdry Hrf.
  assert (Hseries : ∀ metricName series lim,
            returns (replicateSeries b metricName series lim))
    by (intros; by apply returns_replicateSeries_dry).
  assert (Hall : ∀ metricName lim result,
            returns (replicateAll b metricName lim result)).
  { intros metricName lim result.
    induction result as [|series rest IH]; simpl; total. }
  assert (Hmetric : ∀ metricName lim,
            returns (processMetric b metricName lim)).
  { intros. unfold processMetric, queryMetricRange. total. }
  assert (Heach : ∀ lim metrics, returns (processEach b lim metrics)).
  { intros lim metrics.
    induction metrics as [|metricName rest IH]; simpl; total. }
  unfold Run, discoverMetrics, processMetrics. total.
Qed.

(** What a dry run leaves alone: every component of the world that only
    sending touches. *)
Section Frame.
Context {X : Type} (f : World → X).
Hypothesis f_clock : ∀ x w, f (set_clock x w) = f w.
Hypothesis f_ctxErrs : ∀ x w, f (set_ctxErrs x w) = f w.
Hypothesis f_nameResponses : ∀ x w, f (set_nameResponses x w) = f w.
Hypothesis f_rangeResponses : ∀ x w, f (set_rangeResponses x w) = f w.
Hypothesis f_logs : ∀ x w, f (set_logs x w) = f w.
Hypothesis f_queried : ∀ x w, f (set_queried x w) = f w.

Lemma preserves_Run_dry b : dryRun b = true → preserves f (Run b).
Proof.
  intros Hdry.
  assert (Hcombos : ∀ metricName series lim combos i,
            preserves f
              (replicateCombinations b metricName series lim i combos)).
  { intros metricName series lim combos i w r w'.
    rewrite replicateCombinations_dry by done. intros [= _ <-].
    apply f_logs. }
  assert (Hseries : ∀ metricName series lim,
            preserves f (replicateSeries b metricName series lim)).
  { intros metricName series lim. unfold replicateSeries.
    apply preserves_bind; [|intros ?; apply Hcombos].
    by apply preserves_generateLabelCombinationsLogged. }
  assert (Hall : ∀ metricName lim result,
            preserves f (replicateAll b metricName lim result)).
  { intros metricName lim result.
    induction result as [|series rest IH]; simpl; frame. }
  assert (Hmetric : ∀ metricName lim,
            preserves f (processMetric b metricName lim)).
  { intros. unfold processMetric, queryMetricRange. frame. }
  assert (Heach : ∀ lim metrics, preserves f (processEach b lim metrics)).
  { intros lim metrics.
    induction metrics as [|metricName rest IH]; simpl; frame. }
  unfold Run, discoverMetrics, processMetrics. frame.
Qed.

End Frame.

Lemma filter_dryRunReports (metricName : string) (series : Series)
    (combos : list (gmap string string)) :
  filter isDryRunReport (dryRunReport metricName series <$> combos)
  = dryRunReport metricName series <$> combos.
Proof.
  induction combos as [|c l IH]; [done|].
  rewrite fmap_cons, filter_cons, decide_True by done. by rewrite IH.
Qed.

(** One discovered metric with one series, end to end. *)
Lemma Run_dry_one_series b w (metricName body body' : string)
    (series : Series) :
  dryRun b = true →
  0 <= config.ReplicationFactor (config b) →
  nameOutcome w = GetDecoded "success" body [metricName] →
  filterMetrics b [metricName] = [metricName] →
  hd None (ctxErrs w) = None →
  rangeOutcome w = GetDecoded "success" body' [series] →
  ∃ combos w',
    generateLabelCombinations (config b) = Some combos
    ∧ Run b w = Some (None, w')
    ∧ filter isDryRunReport (logs w')
      = filter isDryRunReport (logs w)
        ++ (dryRunReport metricName series <$> combos)
    ∧ posted w' = posted w.
Proof.
  intros Hdry Hrf Hname Hfilter Hctx Hrange.
  unfold nameOutcome in Hname. unfold rangeOutcome in Hrange.
  unfold Run, bind. cbn [logCall]. unfold discoverMetrics, bind.
  unfold nextNameResponse. cbn [nameResponses set_logs]. rewrite Hname.
  rewrite decide_False by (by intros []). cbn [ret logCall].
  rewrite Hfilter. unfold processMetrics, bind. cbn [timeNow].
  cbn [processEach]. unfold bind at 1. unfold ctxDone.
  cbn [ctxErrs set_logs set_clock set_nameResponses]. rewrite Hctx.
  unfold bind at 1. cbn [logCall]. unfold bind at 1.
  unfold processMetric. unfold bind at 1. unfold queryMetricRange.
  unfold bind at 1. unfold nextRangeResponse.
  cbn [rangeResponses set_logs set_clock set_nameResponses set_ctxErrs].
  rewrite Hrange. unfold bind at 1. cbn [recordQuery].
  rewrite decide_False by (by intros []). cbn [ret].
  rewrite decide_False by done. cbn [replicateAll]. unfold bind at 1.
  match goal with |- context [replicateSeries b metricName series ?lim ?w0] =>
    destruct (replicateSeries_dry b metricName series lim w0 Hdry Hrf)
      as (combos & Hc & ->) end.
  exists combos. eexists. split; [done|]. split; [reflexivity|].
  split; [|reflexivity].
  cbn [logs set_logs set_queried set_rangeResponses set_ctxErrs set_clock
       set_nameResponses].
  rewrite !filter_app, filter_dryRunReports, filter_autoFillReports.
  rewrite app_nil_l, <- !app_assoc. f_equal.
Qed.

End DryRun.

(** C9 (as amended).  A benchmarker built with the dry-run flag has no
    writer.  Its run returns and sends nothing: no request reaches the
    remote-write endpoint and nothing is asked of the rate limiter.  For
    every series, [replicateSeries] logs what [generateLabelCombinations]
    logs (the auto-fill of [benchmark_instance]) and then reports one
    intended replicated series per label combination (the series labels
    overlaid with the combination), in order, and nothing else.  With one
    discovered metric that has one series, the reports of the run are
    exactly those of the combinations.  Their number is the replication
    factor when no replication labels are configured -- two for a
    replication factor of 2 -- and otherwise the smaller of the
    replication factor and the product [P] of the lengths of the
    non-empty value lists after the auto-fill (provided [P] fits Go's
    [int]). *)
Theorem dry_run_reports_without_writing `{GoRuntime} :
  (∀ cfg w,
     ∃ b w', NewBenchmarker cfg true w = Some (Ok b, w')
             ∧ config b = cfg ∧ dryRun b = true ∧ remoteWriter b = None
             ∧ posted w' = posted w)
  ∧ ∀ b : Benchmarker,
      dryRun b = true →
      0 <= config.ReplicationFactor (config b) →
      (∀ w, ∃ r w', Run b w = Some (r, w')
                    ∧ posted w' = posted w ∧ acquired w' = acquired w)
      ∧ (∀ metricName series lim w,
           ∃ combos w',
             generateLabelCombinations (config b) = Some combos
             ∧ replicateSeries b metricName series lim w = Some (None, w')
             ∧ w' = set_logs (logs w ++ autoFillReports (config b)
                              ++ (dryRunReport metricName series <$> combos))
                      w
             ∧ filter isDryRunReport (logs w')
               = filter isDryRunReport (logs w)
                 ++ (dryRunReport metricName series <$> combos))
      ∧ (∀ w (metricName body body' : string) (series : Series),
           nameOutcome w = GetDecoded "success" body [metricName] →
           filterMetrics b [metricName] = [metricName] →
           hd None (ctxErrs w) = None →
           rangeOutcome w = GetDecoded "success" body' [series] →
           ∃ combos w',
             generateLabelCombinations (config b) = Some combos
             ∧ Run b w = Some (None, w')
             ∧ filter isDryRunReport (logs w')
               = filter isDryRunReport (logs w)
                 ++ (dryRunReport metricName series <$> combos)
             ∧ posted w' = posted w
             ∧ (config.Replication (config b) = [] →
                len combos = config.ReplicationFactor (config b))
             ∧ (config.Replication (config b) = [] →
                config.ReplicationFactor (config b) = 2 →
                length combos = 2%nat)
             ∧ (let processed :=
                  autoFill (config.ReplicationFactor (config b))
                    <$> config.Replication (config b) in
                config.Replication (config b) ≠ [] →
                radixProduct processed <= max_int64 →
                len combos
                = Z.min (config.ReplicationFactor (config b))
                    (radixProduct processed))).
Proof.
  split.
  - intros cfg w. unfold NewBenchmarker, bind.
    rewrite compileExcludes_spec. simpl. by eexists _, _.
  - intros b Hdry Hrf. split; [|split].
    + intros w. destruct (returns_Run_dry b Hdry Hrf w) as [[r w'] Hrun].
      exists r, w'. split; [done|].
      split; eapply (preserves_Run_dry _); try exact Hrun; done.
    + intros metricName series lim w.
      destruct (replicateSeries_dry b metricName series lim w Hdry Hrf)
        as (combos & Hc & Hrun).
      exists combos. eexists. split; [done|]. split; [exact Hrun|].
      split; [reflexivity|]. cbn [logs set_logs].
      rewrite !filter_app, filter_dryRunReports, filter_autoFillReports.
      by rewrite app_nil_l.
    + intros w metricName body body' series Hname Hfilter Hctx Hrange.
      destruct (Run_dry_one_series b w metricName body body' series
                  Hdry Hrf Hname Hfilter Hctx Hrange)
        as (combos & w' & Hc & Hrun & Hlogs & Hposted).
      exists combos, w'. repeat (split; [done|]).
      rewrite generateLabelCombinations_combine in Hc.
      assert (Hdefault : config.Replication (config b) = [] →
                         len combos = config.ReplicationFactor (config b)).
      { intros Hspec. rewrite Hspec, combine_default in Hc by done.
        injection Hc as <-. unfold len.
        rewrite length_fmap, length_seqZ. lia. }
      split; [exact Hdefault|]. split.
      * intros Hspec Hrf2. apply Hdefault in Hspec. unfold len in Hspec. lia.
      * intros processed Hspec Hfit.
        destruct (combine_configured (config.Replication (config b))
                    (config.ReplicationFactor (config b)) Hspec Hrf)
          as (combos' & Hc' & Hlen & _).
        rewrite Hc in Hc'. injection Hc' as <-.
        fold processed in Hlen.
        rewrite totalCombinations_exact in Hlen by done.
        pose proof (radixProduct_pos processed). unfold len. lia.
Qed.

Lemma dry_run_reports_without_writing_witness :
  let b := @mkBenchmarker exampleRuntime (labelConfig [] 2) true [] None in
  let series := mkSeries {[ "job" := "api" ]}
                  [[anyFloat (S754_zero false); anyString "3.14"]] in
  let w := set_nameResponses [GetDecoded "success" "" ["up"]]
             (set_rangeResponses [GetDecoded "success" "" [series]]
                quietWorld) in
  ∃ w',
    Run b w = Some (None, w')
    ∧ filter isDryRunReport (logs w')
      = [dryRunReport "up" series {[ "benchmark_replica" := "replica-0" ]};
         dryRunReport "up" series {[ "benchmark_replica" := "replica-1" ]}]
    ∧ posted w' = [].
Proof.
  intros b series w.
  destruct (proj2 (@dry_run_reports_without_writing exampleRuntime) b)
    as (_ & _ & Hone).
  - reflexivity.
  - simpl. lia.
  - destruct (Hone w "up" "" "" series)
      as (combos & w' & Hc & Hrun & Hlogs & Hposted & _);
      [reflexivity..|].
    vm_compute in Hc. injection Hc as <-.
    exists w'. split; [exact Hrun|]. split; [exact Hlogs|exact Hposted].
Defined.

(** A replication factor of 2 does not by itself give two reports: with
    the one replication label [env: prod] there is one label combination,
    and the dry run of one metric with one series reports one intended
    series. *)
Lemma dry_run_reports_counterexample :
  let spec := [config.mkReplicationLabel "env" ["prod"]] in
  let b := @mkBenchmarker exampleRuntime (labelConfig spec 2) true [] None in
  let series := mkSeries {[ "job" := "api" ]}
                  [[anyFloat (S754_zero false); anyString "3.14"]] in
  let w := set_nameResponses [GetDecoded "success" "" ["up"]]
             (set_rangeResponses [GetDecoded "success" "" [series]]
                quietWorld) in
  config.ReplicationFactor (config b) = 2
  ∧ ∃ w',
      Run b w = Some (None, w')
      ∧ filter isDryRunReport (logs w')
        = [dryRunReport "up" series {[ "env" := "prod" ]}]
      ∧ posted w' = [].
Proof.
  split; [reflexivity|]. eexists. split; [vm_compute; reflexivity|].
  split; vm_compute; reflexivity.
Qed.

(** The auto-fill is logged before the reports: with the one entry
    [benchmark_instance] without values and a replication factor of 2, a
    series in a dry run leaves the entry of the auto-fill and then the two
    reports. *)
Example replicateSeries_logs_the_auto_fill :
  let spec := [config.mkReplicationLabel "benchmark_instance" []] in
  let b := @mkBenchmarker exampleRuntime (labelConfig spec 2) true [] None in
  let series := mkSeries {[ "job" := "api" ]}
                  [[anyFloat (S754_zero false); anyString "3.14"]] in
  ∃ w',
    replicateSeries b "up" series (NewLimiter 1 2) quietWorld
    = Some (None, w')
    ∧ logs w'
      = [logger.mkLogEntry logger.DEBUG
           "Auto-generated benchmark_instance values"
           [("count", logger.fInt 2);
            ("values", logger.fStrings ["bench-1"; "bench-2"])];
         dryRunReport "up" series {[ "benchmark_instance" := "bench-1" ]};
         dryRunReport "up" series {[ "benchmark_instance" := "bench-2" ]}].
Proof. eexists. split; vm_compute; reflexivity. Qed.

(** * Further properties *)

(** ** Configuration *)

(** After the defaults, validation rejects exactly the configurations with
    a negative numeric field: an unset (zero) field is never an error. *)
Lemma Validate_setDefaults (c : config.Config) :
  config.Validate (setDefaults c) = None
  ↔ 0 <= config.ReplicationFactor c ∧ 0 <= config.QueryRangeHours c
    ∧ 0 <= config.QueryStepSeconds c ∧ 0 <= config.SamplesPerSecond c
    ∧ 0 <= config.BatchSize c.
Proof.
  unfold config.Validate, setDefaults. simpl.
  repeat case_decide; split; intros Hx; try done; lia.
Qed.

(** X1.  A configuration file that is read and decoded gives the decoded
    configuration with the defaults filled in, and that configuration
    passes [Validate] exactly when no numeric field of the file is
    negative (a missing or zero field is defaulted, never rejected).  A
    file that cannot be read or decoded gives an error and no
    configuration. *)
Theorem LoadConfig_then_Validate (o : FileOutcome) :
  match LoadConfig o with
  | Err err =>
      (∃ e, o = FileReadError e ∧ err = wrapError "reading config file" e)
      ∨ (∃ e, o = FileParseError e ∧ err = wrapError "parsing config" e)
  | Ok cfg =>
      ∃ c, o = FileParsed c ∧ cfg = setDefaults c
           ∧ (config.Validate cfg = None
              ↔ 0 <= config.ReplicationFactor c
                ∧ 0 <= config.QueryRangeHours c
                ∧ 0 <= config.QueryStepSeconds c
                ∧ 0 <= config.SamplesPerSecond c
                ∧ 0 <= config.BatchSize c)
  end.
Proof.
  destruct o as [e|e|c]; simpl.
  - left. by exists e.
  - right. by exists e.
  - exists c. split; [done|]. split; [done|]. apply Validate_setDefaults.
Qed.

(** X2.  [setDefaults] keeps every field that was set, leaves no numeric
    field at zero and no URL empty, and applying it a second time changes
    nothing. *)
Theorem setDefaults_fills_once (c : config.Config) :
  let d := setDefaults c in
  setDefaults d = d
  ∧ config.ReplicationFactor d ≠ 0 ∧ config.QueryRangeHours d ≠ 0
  ∧ config.QueryStepSeconds d ≠ 0 ∧ config.SamplesPerSecond d ≠ 0
  ∧ config.BatchSize d ≠ 0
  ∧ config.QueryURL d ≠ "" ∧ config.RemoteWriteURL d ≠ ""
  ∧ (config.ReplicationFactor c = 0
     ∨ config.ReplicationFactor d = config.ReplicationFactor c)
  ∧ (config.QueryRangeHours c = 0
     ∨ config.QueryRangeHours d = config.QueryRangeHours c)
  ∧ (config.QueryStepSeconds c = 0
     ∨ config.QueryStepSeconds d = config.QueryStepSeconds c)
  ∧ (config.SamplesPerSecond c = 0
     ∨ config.SamplesPerSecond d = config.SamplesPerSecond c)
  ∧ (config.BatchSize c = 0 ∨ config.BatchSize d = config.BatchSize c)
  ∧ (config.QueryURL c = "" ∨ config.QueryURL d = config.QueryURL c)
  ∧ (config.RemoteWriteURL c = ""
     ∨ config.RemoteWriteURL d = config.RemoteWriteURL c)
  ∧ config.Replication d = config.Replication c
  ∧ config.ExcludeMetrics d = config.ExcludeMetrics c.
Proof.
  destruct c as [q r rf h st sps bs repl excl]. unfold setDefaults. simpl.
  split; [f_equal; repeat case_decide; done|].
  repeat split; repeat case_decide; try done; try lia; try (by left);
    by right.
Qed.

(** ** Logger *)

Section LoggerFacts.
Variable ToUpper : string → string.
Hypothesis ToUpper_ascii : ∀ s, isASCII s → ToUpper s = asciiUpper s.

(** X3.  [ParseLogLevel] undoes [String] on the six levels, accepts any
    ASCII spelling of a level name whatever its case, and reads every
    unknown name -- like the name of an unknown level -- as [INFO]. *)
Theorem ParseLogLevel_String :
  (∀ l : logger.LogLevel,
     ParseLogLevel ToUpper (LogLevel_String (levelCode l)) = levelCode l)
  ∧ (∀ (s : string) (l : logger.LogLevel),
       isASCII s → asciiUpper s = LogLevel_String (levelCode l) →
       ParseLogLevel ToUpper s = levelCode l)
  ∧ (∀ l : Z, ¬ (0 <= l <= 5) →
       ParseLogLevel ToUpper (LogLevel_String l) = 2).
Proof.
  assert (Hcase : ∀ (s : string) (l : logger.LogLevel),
    isASCII s → asciiUpper s = LogLevel_String (levelCode l) →
    ParseLogLevel ToUpper s = levelCode l).
  { intros s l Hs Hup. unfold ParseLogLevel.
    rewrite (ToUpper_ascii s Hs), Hup. by destruct l. }
  split; [|split; [exact Hcase|]].
  - intros l. apply Hcase; destruct l; vm_compute; intuition lia.
  - intros l Hl.
    assert (Hname : LogLevel_String l = "UNKNOWN").
    { unfold LogLevel_String. by rewrite !decide_False by lia. }
    rewrite Hname. unfold ParseLogLevel.
    rewrite ToUpper_ascii by (vm_compute; intuition lia). reflexivity.
Qed.

End LoggerFacts.

Lemma ParseLogLevel_String_witness :
  ParseLogLevel asciiUpper "warn" = levelCode logger.WARN
  ∧ ParseLogLevel asciiUpper (LogLevel_String 4) = 4.
Proof.
  destruct (ParseLogLevel_String asciiUpper (λ s _, eq_refl))
    as (Hround & Hcase & _).
  split.
  - apply Hcase; [vm_compute; intuition lia|reflexivity].
  - apply (Hround logger.ERROR).
Defined.

Section LoggerFilter.
Implicit Types (s : LogState) (l : Logger) (calls : list logger.LogEntry).

Lemma replay_app calls1 calls2 s :
  replay (calls1 ++ calls2) s = replay calls2 (replay calls1 s).
Proof. unfold replay. apply foldl_app. Qed.

Lemma replay_cons (e : logger.LogEntry) calls s :
  replay (e :: calls) s
  = replay calls (logAt (levelCode (logger.Level e)) (logger.Message e)
                    (logger.Fields e) s).
Proof. reflexivity. Qed.

Lemma replay_exited calls s : exited s = true → replay calls s = s.
Proof.
  revert s. induction calls as [|e rest IH]; intros s Hs; [done|].
  unfold replay in *. simpl. unfold logAt at 2.
  destruct (globalLogger s) as [l|] eqn:Hl; [|by apply IH].
  unfold log. rewrite Hs. by apply IH.
Qed.

Lemma replay_nil_logger calls s : globalLogger s = None → replay calls s = s.
Proof.
  revert s. induction calls as [|e rest IH]; intros s Hs; [done|].
  unfold replay in *. simpl. unfold logAt at 2. rewrite Hs. by apply IH.
Qed.

Lemma replay_no_fatal calls : ∀ s l,
  globalLogger s = Some l → exited s = false →
  Forall (λ e, logger.Level e ≠ logger.FATAL) calls →
  replay calls s
  = {| globalLogger := Some l;
       written := written s ++ (entryLine (component l) <$> filter (passes l) calls);
       exited := false |}.
Proof.
  induction calls as [|e rest IH]; intros s l Hl Hex Hnf.
  - simpl. rewrite app_nil_r. destruct s. simpl in *. by subst.
  - apply Forall_cons in Hnf as [He Hnf]. unfold replay in *.
    cbn [foldl]. unfold logAt at 2. rewrite Hl. unfold log. rewrite Hex.
    rewrite filter_cons.
    destruct (decide (levelCode (logger.Level e) < level l)) as [Hlt|Hge].
    + rewrite (decide_False (P := passes l e)) by (unfold passes; lia).
      by apply IH.
    + rewrite (decide_True (P := passes l e)) by (unfold passes; lia).
      rewrite (IH _ l); cbn [globalLogger written exited]; try done.
      * rewrite fmap_cons, <- app_assoc. done.
      * rewrite decide_False; [done|]. by destruct (logger.Level e).
Qed.

End LoggerFilter.

(** X4.  Once the logger is initialised, a sequence of calls writes, in
    order, exactly the calls whose level is not below the configured one;
    a [Fatal] call that is written ends the process, so nothing after it
    is written.  Before [Init] nothing is written and even [Fatal] does not
    end the process. *)
Theorem logger_writes_from_level
    (lvl : Z) (comp : string) (pre post : list logger.LogEntry)
    (fatal : logger.LogEntry) (s : LogState) :
  exited s = false →
  Forall (λ e, logger.Level e ≠ logger.FATAL) pre →
  logger.Level fatal = logger.FATAL →
  let l := {| level := lvl; component := comp |} in
  replay pre (Init lvl comp s)
  = {| globalLogger := Some l;
       written := written s ++ (entryLine comp <$> filter (passes l) pre);
       exited := false |}
  ∧ (lvl <= 5 →
     replay (pre ++ fatal :: post) (Init lvl comp s)
     = {| globalLogger := Some l;
          written := written s
                     ++ (entryLine comp <$> filter (passes l) pre)
                     ++ [entryLine comp fatal];
          exited := true |})
  ∧ (globalLogger s = None → replay (pre ++ fatal :: post) s = s).
Proof.
  intros Hex Hpre Hfatal l. subst l.
  set (l := {| level := lvl; component := comp |}).
  assert (Hrun : replay pre (Init lvl comp s)
    = {| globalLogger := Some l;
         written := written s ++ (entryLine comp <$> filter (passes l) pre);
         exited := false |}).
  { by rewrite (replay_no_fatal pre _ l). }
  split; [exact Hrun|]. split.
  - intros Hlvl. rewrite replay_app, Hrun, replay_cons.
    unfold logAt. cbn [globalLogger]. unfold log. cbn [exited].
    rewrite Hfatal. cbn [levelCode]. subst l. cbn [level component].
    rewrite decide_False by lia. rewrite decide_True by done.
    rewrite replay_exited by done.
    cbn [written]. unfold entryLine. rewrite Hfatal.
    by rewrite <- app_assoc.
  - intros Hnil. by apply replay_nil_logger.
Qed.

Lemma logger_writes_from_level_witness :
  let debug := logger.mkLogEntry logger.DEBUG "Processing metric" [] in
  let err := logger.mkLogEntry logger.ERROR "Error processing metric" [] in
  let fatal := logger.mkLogEntry logger.FATAL "Benchmarker failed" [] in
  let s := mkLogState None [] false in
  written (replay [debug; err; fatal; err] (Init 2 "promfire" s))
  = [entryLine "promfire" err; entryLine "promfire" fatal]
  ∧ replay [debug; err; fatal; err] s = s.
Proof.
  intros debug err fatal s.
  destruct (logger_writes_from_level 2 "promfire" [debug; err] [err] fatal s)
    as (_ & Hfatal & Hnil).
  - reflexivity.
  - repeat constructor; discriminate.
  - reflexivity.
  - split.
    + change [debug; err; fatal; err] with ([debug; err] ++ fatal :: [err]).
      rewrite Hfatal by lia. reflexivity.
    + apply Hnil. reflexivity.
Defined.

(** ** Timestamps *)

Section TimestampFacts.

(** Each value is at least the clock reading of its call and at most one
    millisecond per call ahead of the largest reading. *)
Lemma NextTimestamps_bounds (nows : list Z) :
  ∀ (tc : TimestampCoordinator) (B : Z),
    increment tc = 1 →
    min_int64 <= lastTimestamp tc →
    Forall (λ t, t <= B) (lastTimestamp tc :: nows) →
    B + len nows <= max_int64 →
    ∀ (k : nat) (t : Z),
      NextTimestamps nows tc !! k = Some t →
      (∃ now, nows !! k = Some now ∧ now <= t) ∧ t <= B + Z.of_nat k + 1.
Proof.
  induction nows as [|now rest IH]; intros tc B Hinc Hlo Hb Hfit k t Hk;
    [done|].
  apply Forall_cons in Hb as [Hb0 Hb]. apply Forall_cons in Hb as [Hnow Hb].
  rewrite len_cons in Hfit. pose proof (len_nonneg rest) as Hlen.
  destruct (NextTimestamp_step now tc Hinc Hlo ltac:(lia))
    as (t0 & Hstep & Ht0 & Hlt).
  rewrite NextTimestamps_cons, Hstep in Hk. cbn [fst snd] in Hk.
  destruct k as [|k]; simpl in Hk.
  - injection Hk as <-. split.
    + exists now. split; [done|]. subst t0. case_decide; lia.
    + subst t0. case_decide; lia.
  - assert (Ht0B : t0 <= B + 1) by (subst t0; case_decide; lia).
    destruct (IH {| lastTimestamp := t0; increment := 1 |} (B + 1))
      with (k := k) (t := t) as [Hge Hle]; simpl; try done; try lia.
    + constructor; [done|]. eapply Forall_impl; [exact Hb|].
      simpl. intros; lia.
    + split; [exact Hge|]. lia.
Qed.

Lemma last_cons {A} (a d : A) (l : list A) :
  List.last (a :: l) d = List.last l a.
Proof.
  revert a d. induction l as [|x l IH]; intros a d; [done|].
  change (List.last (a :: x :: l) d) with (List.last (x :: l) d).
  by rewrite !IH.
Qed.

(** The coordinator after [n] calls holds the last value returned. *)
Lemma afterTimestamps_coordinator (n : nat) : ∀ w,
  increment (coordinator (afterTimestamps n w)) = increment (coordinator w)
  ∧ lastTimestamp (coordinator (afterTimestamps n w))
    = List.last (NextTimestamps (clockReadings n w) (coordinator w))
        (lastTimestamp (coordinator w)).
Proof.
  induction n as [|n IH]; intros w; [done|].
  cbn [afterTimestamps]. rewrite clockReadings_S, NextTimestamps_cons.
  rewrite last_cons.
  match goal with |- context [afterTimestamps n ?w1] =>
    destruct (IH w1) as [IHi IHl] end.
  rewrite IHi, IHl. split; reflexivity.
Qed.

End TimestampFacts.

(** X5.  The timestamps of a coordinator are never behind the clock and
    never run ahead of it by more than one millisecond per call: the value
    of call [k] is at least the clock reading of that call and at most
    [B + k + 1], for any bound [B] on the initial reading and the readings
    so far (as long as the [int64] counter cannot wrap). *)
Theorem NextTimestamps_near_clock (now0 : Z) (nows : list Z) (B : Z) :
  min_int64 <= now0 →
  Forall (λ t, t <= B) (now0 :: nows) →
  B + len nows <= max_int64 →
  ∀ (k : nat) (t : Z),
    NextTimestamps nows (NewTimestampCoordinator now0) !! k = Some t →
    (∃ now, nows !! k = Some now ∧ now <= t) ∧ t <= B + Z.of_nat k + 1.
Proof.
  intros Hlo Hb Hfit.
  by apply (NextTimestamps_bounds nows (NewTimestampCoordinator now0) B).
Qed.

Lemma NextTimestamps_near_clock_witness :
  NextTimestamps [1000; 1000; 1000; 1007] (NewTimestampCoordinator 1000)
    !! 2%nat = Some 1003
  ∧ (∃ now, [1000; 1000; 1000; 1007] !! 2%nat = Some now ∧ now <= 1003)
  ∧ 1003 <= 1007 + Z.of_nat 2 + 1.
Proof.
  split; [reflexivity|].
  apply (NextTimestamps_near_clock 1000 [1000; 1000; 1000; 1007] 1007).
  - unfold min_int64. lia.
  - repeat constructor; lia.
  - unfold max_int64, len. simpl. lia.
  - reflexivity.
Defined.

(** X6.  The samples of a converted series carry strictly increasing
    timestamps, all above the timestamp the coordinator held before the
    call, and the coordinator then holds the timestamp of the last sample:
    the next conversion starts above it.  (As long as the [int64] counter
    cannot wrap.) *)
Theorem convertToTimeSeries_timestamps `{GoRuntime}
    (labels : gmap string string) (values : list (list any))
    (w w' : World) (timeSeries : prompb.TimeSeries) :
  increment (coordinator w) = 1 →
  min_int64 <= lastTimestamp (coordinator w) →
  Forall (λ t, t + len values <= max_int64)
    (lastTimestamp (coordinator w) :: clockReadings (length values) w) →
  convertToTimeSeries labels values w = Some (Ok timeSeries, w') →
  let stamps := prompb.Timestamp <$> prompb.Samples timeSeries in
  StronglySorted Z.lt (lastTimestamp (coordinator w) :: stamps)
  ∧ stamps ≠ []
  ∧ List.last stamps (lastTimestamp (coordinator w))
    = lastTimestamp (coordinator w')
  ∧ increment (coordinator w') = 1.
Proof.
  intros Hinc Hlo Hb. unfold convertToTimeSeries.
  case_decide; [done|].
  destruct (convertSamples_spec values [] w) as (stamped & Hc & Hv & Ht).
  unfold bind. rewrite Hc. cbn [app]. case_decide as Hn; [done|].
  intros [= <- <-]. cbn [prompb.Samples].
  set (n := length (omap acceptedValue values)) in *.
  assert (Hn_le : (n <= length values)%nat).
  { subst n. clear. induction values as [|v vs IH]; [done|].
    change (omap acceptedValue (v :: vs))
      with (match acceptedValue v with
            | Some y => y :: omap acceptedValue vs
            | None => omap acceptedValue vs
            end).
    destruct (acceptedValue v); cbn [length]; lia. }
  assert (Hreadings : clockReadings n w
                      = take n (clockReadings (length values) w)).
  { unfold clockReadings. rewrite take_take, Nat.min_l by done.
    rewrite !take_app, !take_replicate. do 2 f_equal. lia. }
  destruct (NextTimestamps_spec (clockReadings n w) (coordinator w) Hinc Hlo)
    as (Hlen & Hsorted & _).
  { apply Forall_cons in Hb as [Hb0 Hb].
    assert (Hn' : len (clockReadings n w) <= len values).
    { unfold len, clockReadings. rewrite length_take. lia. }
    constructor; [lia|]. rewrite Hreadings.
    apply Forall_take. eapply Forall_impl; [exact Hb|].
    simpl. intros x Hx. rewrite <- Hreadings. lia. }
  destruct (afterTimestamps_coordinator n w) as [Hinc' Hlast].
  rewrite Ht. split; [done|]. split.
  - intros Hnil. apply Hn. rewrite Hnil in Ht.
    apply fmap_nil_inv in Ht. by subst stamped.
  - by rewrite Hlast, Hinc'.
Qed.

Lemma convertToTimeSeries_timestamps_witness :
  let value := [anyFloat (S754_zero false); anyString "3.14"] in
  let w := set_clock [7; 7] quietWorld in
  ∃ timeSeries w',
    @convertToTimeSeries exampleRuntime ∅ [value; value] w
    = Some (Ok timeSeries, w')
    ∧ prompb.Timestamp <$> prompb.Samples timeSeries = [7; 8]
    ∧ StronglySorted Z.lt
        (0 :: (prompb.Timestamp <$> prompb.Samples timeSeries))
    ∧ lastTimestamp (coordinator w') = 8.
Proof.
  intros value w.
  destruct (@convertToTimeSeries exampleRuntime ∅ [value; value] w)
    as [[[timeSeries|e] w']|] eqn:Hrun; vm_compute in Hrun; try discriminate.
  pose proof (@convertToTimeSeries_timestamps exampleRuntime ∅
                [value; value] w w' timeSeries) as Hthm.
  injection Hrun as <- <-.
  destruct Hthm as (Hsorted & _ & Hlast & _).
  - reflexivity.
  - unfold min_int64. simpl. lia.
  - unfold max_int64, len. repeat constructor; simpl; lia.
  - reflexivity.
  - eexists _, _. split; [reflexivity|]. split; [reflexivity|].
    split; [exact Hsorted|]. rewrite <- Hlast. reflexivity.
Defined.

(** ** Label combinations: bounds and distinctness *)

Section CombinationFacts.
Implicit Types (labels : list config.ReplicationLabel)
  (lc : config.ReplicationLabel) (m : gmap string string).

Lemma wrap64_range (z : Z) : in_int64 (wrap64 z).
Proof.
  unfold in_int64, min_int64, max_int64, wrap64.
  pose proof (Z.mod_pos_bound (z + 2 ^ 63) (2 ^ 64) ltac:(lia)). lia.
Qed.

(** The running product is the mathematical one, or the mathematical one
    no longer fits an [int]. *)
Lemma totalCombinationsFrom_le labels : ∀ total T,
  0 < T → total < 2 ^ 63 → (total = T ∨ 2 ^ 63 <= T) →
  totalCombinationsFrom total labels < 2 ^ 63
  ∧ (totalCombinationsFrom total labels = T * radixProduct labels
     ∨ 2 ^ 63 <= T * radixProduct labels).
Proof.
  induction labels as [|lc rest IH]; intros total T HT Ht Hinv; simpl.
  - split; [done|]. rewrite Z.mul_1_r. done.
  - pose proof (radixProduct_pos rest) as Hpos.
    case_decide as Hn; [|by apply IH].
    set (n := len (config.Values lc)) in *.
    assert (Hlt : int_mul total n < 2 ^ 63).
    { pose proof (wrap64_range (total * n)) as Hr.
      unfold int_mul, in_int64, max_int64 in *. lia. }
    assert (Hinv' : int_mul total n = T * n ∨ 2 ^ 63 <= T * n).
    { destruct Hinv as [->|Hbig]; [|right; nia].
      destruct (decide (T * n < 2 ^ 63)) as [Hfit|Hover]; [left|right; lia].
      unfold int_mul. apply wrap64_id.
      unfold in_int64, min_int64, max_int64. nia. }
    destruct (IH (int_mul total n) (T * n) ltac:(nia) Hlt Hinv') as [H1 H2].
    split; [done|].
    replace (T * (n * radixProduct rest))
      with (T * n * radixProduct rest) by lia. done.
Qed.

Lemma totalCombinations_le labels :
  totalCombinations labels <= radixProduct labels.
Proof.
  destruct (totalCombinationsFrom_le labels 1 1) as [Hlt Hres];
    [lia|lia|by left|].
  unfold totalCombinations. lia.
Qed.

(** Different indices below the product give different label sets, when
    the label names and the values of each label are free of repetitions. *)
Lemma fillLabelSet_inj labels :
  NoDup (config.Name <$> labels) →
  Forall (λ lc, NoDup (config.Values lc)) labels →
  ∀ c1 c2 m m',
    0 <= c1 < radixProduct labels → 0 <= c2 < radixProduct labels →
    fillLabelSet labels c1 m = Some m' →
    fillLabelSet labels c2 m = Some m' →
    c1 = c2.
Proof.
  induction labels as [|lc rest IH]; intros Hnames Hvals c1 c2 m m' H1 H2 F1 F2;
    simpl in *; [lia|].
  apply NoDup_cons in Hnames as [Hhead Hnames].
  apply Forall_cons in Hvals as [Hv Hvals].
  pose proof (radixProduct_pos rest) as Hpos.
  case_decide as Hn; [|by eapply (IH Hnames Hvals c1 c2 m m')].
  set (n := len (config.Values lc)) in *.
  destruct (index_mod (config.Values lc) c1 ltac:(lia) Hn) as [Hi1 [v1 Hv1]].
  destruct (index_mod (config.Values lc) c2 ltac:(lia) Hn) as [Hi2 [v2 Hv2]].
  fold n in Hi1, Hi2, Hv1, Hv2.
  rewrite Hi1, Hv1 in F1. rewrite Hi2, Hv2 in F2.
  rewrite Z.quot_div_nonneg in F1, F2 by lia.
  assert (Hother : ∀ lc', lc' ∈ rest → len (config.Values lc') > 0 →
                          config.Name lc' ≠ config.Name lc).
  { intros lc' Hin _ Heq. apply Hhead. rewrite <- Heq.
    by apply list_elem_of_fmap_2. }
  pose proof (fillLabelSet_other _ _ _ _ _ F1 Hother) as L1.
  pose proof (fillLabelSet_other _ _ _ _ _ F2 Hother) as L2.
  rewrite lookup_insert_eq in L1, L2. rewrite L1 in L2.
  injection L2 as ->.
  assert (Hmod : Z.to_nat (c1 mod n) = Z.to_nat (c2 mod n)).
  { by eapply NoDup_lookup. }
  assert (Hdiv : c1 / n = c2 / n).
  { eapply (IH Hnames Hvals); [| |exact F1|exact F2];
      (split; [apply Z.div_pos; lia|apply Z.div_lt_upper_bound; lia]). }
  pose proof (Z.mod_pos_bound c1 n ltac:(lia)).
  pose proof (Z.mod_pos_bound c2 n ltac:(lia)).
  rewrite (Z.div_mod c1 n), (Z.div_mod c2 n) by lia.
  rewrite Hdiv. f_equal. lia.
Qed.

Lemma benchValues_NoDup (rf : Z) : NoDup (benchValues rf).
Proof.
  unfold benchValues. apply NoDup_fmap_2_strong; [|apply NoDup_seqZ].
  intros x y _ _ Heq.
  apply (inj (String.app "bench-")) in Heq as Hp.
  apply (inj pretty) in Hp. lia.
Qed.

Lemma processed_NoDup (spec : list config.ReplicationLabel) (rf : Z) :
  NoDup (config.Name <$> spec) →
  Forall (λ lc, NoDup (config.Values lc)) spec →
  NoDup (config.Name <$> (autoFill rf <$> spec))
  ∧ Forall (λ lc, NoDup (config.Values lc)) (autoFill rf <$> spec).
Proof.
  intros Hnames Hvals. split.
  - rewrite <- list_fmap_compose.
    erewrite list_fmap_ext; [exact Hnames|].
    intros i lc _. apply autoFill_Name.
  - apply Forall_fmap. eapply Forall_impl; [exact Hvals|].
    intros lc Hlc. simpl. unfold autoFill. case_decide; [|done].
    apply benchValues_NoDup.
Qed.

Lemma defaultCombinations_NoDup (rf : Z) :
  NoDup ((λ i, ({[ "benchmark_replica" := "replica-" +:+ itoa i ]}
                : gmap string string)) <$> seqZ 0 rf).
Proof.
  apply NoDup_fmap_2_strong; [|apply NoDup_seqZ].
  intros x y _ _ Heq.
  assert (Hl : ({[ "benchmark_replica" := "replica-" +:+ itoa x ]}
                : gmap string string) !! "benchmark_replica"
               = Some ("replica-" +:+ itoa y)).
  { rewrite Heq. apply lookup_singleton_eq. }
  rewrite lookup_singleton_eq in Hl. apply (inj Some) in Hl.
  apply (inj (String.app "replica-")) in Hl. by apply (inj pretty) in Hl.
Qed.

Lemma processLabels_negative (rf : Z) labels :
  rf < 0 →
  (processLabels rf labels = None
   ↔ ∃ lc, lc ∈ labels ∧ config.Name lc = "benchmark_instance"
           ∧ len (config.Values lc) = 0).
Proof.
  intros Hrf. induction labels as [|lc rest IH]; simpl.
  - split; [done|]. intros (lc & Hin & _). by apply elem_of_nil in Hin.
  - case_decide as Hd.
    + unfold autoValues. rewrite decide_True by done. split; [|done].
      intros _. exists lc. split; [by left|done].
    + rewrite fmap_None, IH. split.
      * intros (lc' & Hin & Hlc'). exists lc'. split; [by right|done].
      * intros (lc' & Hin & Hlc'). apply elem_of_cons in Hin as [->|Hin];
          [done|]. by exists lc'.
Qed.

End CombinationFacts.

(** X7.  With label names that are pairwise different and value lists
    without repetitions, the label sets of [generateLabelCombinations] are
    pairwise different: no two replicas of a series share their labels. *)
Theorem combine_distinct (spec : list config.ReplicationLabel) (rf : Z) :
  0 <= rf →
  NoDup (config.Name <$> spec) →
  Forall (λ lc, NoDup (config.Values lc)) spec →
  ∃ combos, combine spec rf = Some combos ∧ NoDup combos.
Proof.
  intros Hrf Hnames Hvals. destruct (decide (spec = [])) as [->|Hne].
  - eexists. split; [by apply combine_default|].
    apply defaultCombinations_NoDup.
  - destruct (combine_configured spec rf Hne Hrf)
      as (combos & Hc & Hlen & Hfill).
    destruct (processed_NoDup spec rf Hnames Hvals) as [Hn Hv].
    exists combos. split; [done|]. apply NoDup_alt. intros i j comb Hi Hj.
    pose proof (lookup_lt_Some _ _ _ Hi) as Hli.
    pose proof (lookup_lt_Some _ _ _ Hj) as Hlj.
    pose proof (totalCombinations_le (autoFill rf <$> spec)) as Hle.
    apply Hfill in Hi. apply Hfill in Hj.
    apply Nat2Z.inj.
    eapply (fillLabelSet_inj _ Hn Hv); [| |exact Hi|exact Hj]; lia.
Qed.

Lemma combine_distinct_witness :
  ∃ combos,
    combine [config.mkReplicationLabel "region" ["us"; "eu"];
             config.mkReplicationLabel "benchmark_instance" []] 3
    = Some combos ∧ NoDup combos.
Proof.
  apply combine_distinct; [lia| |].
  - simpl. apply NoDup_cons. split; [|apply NoDup_singleton].
    intros Hin. apply list_elem_of_singleton in Hin. discriminate Hin.
  - repeat constructor; simpl.
    + intros Hin. apply list_elem_of_singleton in Hin. discriminate Hin.
    + apply not_elem_of_nil.
Defined.

(** X8.  Whatever the value lists, [generateLabelCombinations] returns for
    a non-negative replication factor, with at most [replicationFactor]
    label sets and, for a non-empty spec, at most as many as the product
    of the lengths of the non-empty value lists -- also when that product
    does not fit Go's [int] and the computed product wraps around. *)
Theorem combine_count_bounded (spec : list config.ReplicationLabel) (rf : Z) :
  0 <= rf →
  ∃ combos,
    combine spec rf = Some combos
    ∧ len combos <= rf
    ∧ (spec ≠ [] → len combos <= radixProduct (autoFill rf <$> spec)).
Proof.
  intros Hrf. destruct (decide (spec = [])) as [->|Hne].
  - eexists. split; [by apply combine_default|]. split; [|done].
    unfold len. rewrite length_fmap, length_seqZ. lia.
  - destruct (combine_configured spec rf Hne Hrf) as (combos & Hc & Hlen & _).
    pose proof (totalCombinations_le (autoFill rf <$> spec)) as Hle.
    pose proof (radixProduct_pos (autoFill rf <$> spec)) as Hpos.
    exists combos. split; [done|]. unfold len. lia.
Qed.

Lemma combine_count_bounded_witness :
  ∃ combos,
    combine [config.mkReplicationLabel "region" ["us"; "eu"]] 5 = Some combos
    ∧ len combos <= 5
    ∧ ([config.mkReplicationLabel "region" ["us"; "eu"]] ≠ [] →
       len combos
       <= radixProduct
            (autoFill 5 <$> [config.mkReplicationLabel "region" ["us"; "eu"]])).
Proof. apply combine_count_bounded. lia. Defined.

(** X9.  With a negative replication factor the function panics exactly
    when it has to allocate a slice of that length: for an empty spec, or
    when an entry named [benchmark_instance] without values is to be
    filled in.  Otherwise it returns no label set at all. *)
Theorem combine_negative_factor (spec : list config.ReplicationLabel) (rf : Z) :
  rf < 0 →
  (combine spec rf = None
   ↔ spec = []
     ∨ ∃ lc, lc ∈ spec ∧ config.Name lc = "benchmark_instance"
             ∧ len (config.Values lc) = 0)
  ∧ ∀ combos, combine spec rf = Some combos → combos = [].
Proof.
  intros Hrf. unfold combine, generateLabelCombinations. simpl.
  destruct spec as [|lc rest].
  - rewrite decide_True by done. unfold defaultCombinations.
    rewrite decide_True by done. split; [|done]. split; [by left|done].
  - rewrite decide_False
      by (rewrite len_cons; pose proof (len_nonneg rest); lia).
    pose proof (processLabels_negative rf (lc :: rest) Hrf) as Hp.
    destruct (processLabels rf (lc :: rest)) as [processed|] eqn:Hproc.
    + set (n := if decide (rf > totalCombinations processed)
                then totalCombinations processed else rf).
      assert (Hn : n < 0) by (subst n; case_decide; lia).
      assert (Hseq : seqZ 0 n = []).
      { apply length_zero_iff_nil. rewrite length_seqZ. lia. }
      rewrite Hseq. simpl. split.
      * split; [done|]. intros [?|Hex]; [done|].
        apply Hp in Hex. done.
      * intros combos Hc. by injection Hc as <-.
    + split; [|done]. split; [|done]. intros _. right. by apply Hp.
Qed.

Lemma combine_negative_factor_witness :
  (combine [config.mkReplicationLabel "region" ["us"]] (-1) = None
   ↔ [config.mkReplicationLabel "region" ["us"]] = []
     ∨ ∃ lc, lc ∈ [config.mkReplicationLabel "region" ["us"]]
             ∧ config.Name lc = "benchmark_instance"
             ∧ len (config.Values lc) = 0)
  ∧ ∀ combos,
      combine [config.mkReplicationLabel "region" ["us"]] (-1) = Some combos →
      combos = [].
Proof. apply combine_negative_factor. lia. Defined.

(** ** Live runs *)

(** What sending leaves alone: [f] is any component of the world that the
    clock, the coordinator, the log, the limiter and the POSTs do not
    touch. *)
Section LiveFrame.
Context `{GoRuntime} {X : Type} (f : World → X).
Hypothesis f_clock : ∀ x w, f (set_clock x w) = f w.
Hypothesis f_coordinator : ∀ x w, f (set_coordinator x w) = f w.
Hypothesis f_logs : ∀ x w, f (set_logs x w) = f w.
Hypothesis f_acquired : ∀ x w, f (set_acquired x w) = f w.
Hypothesis f_waitResults : ∀ x w, f (set_waitResults x w) = f w.
Hypothesis f_postResponses : ∀ x w, f (set_postResponses x w) = f w.
Hypothesis f_posted : ∀ x w, f (set_posted x w) = f w.

Lemma frame_nextTimestamp : preserves f nextTimestamp.
Proof.
  intros w t w'. rewrite nextTimestamp_spec. intros [= _ <-]. simpl.
  by rewrite f_coordinator, f_clock.
Qed.
Hint Resolve frame_nextTimestamp : frame.

Lemma frame_convertSamples values : ∀ samples,
  preserves f (convertSamples values samples).
Proof.
  induction values as [|value rest IH]; intros samples; simpl; frame.
Qed.
Hint Resolve frame_convertSamples : frame.

Lemma frame_convertToTimeSeries labels values :
  preserves f (convertToTimeSeries labels values).
Proof. unfold convertToTimeSeries. frame. Qed.
Hint Resolve frame_convertToTimeSeries : frame.

Lemma frame_sendBatch rw timeSeries : preserves f (sendBatch rw timeSeries).
Proof. unfold sendBatch. frame. Qed.
Hint Resolve frame_sendBatch : frame.

Lemma frame_sendInBatchesFrom rw timeSeries (fuel : nat) : ∀ i,
  preserves f (sendInBatchesFrom fuel rw timeSeries i).
Proof.
  induction fuel as [|fuel IH]; intros i; cbn [sendInBatchesFrom]; frame.
Qed.
Hint Resolve frame_sendInBatchesFrom : frame.

Lemma frame_WriteSamples rw labels values :
  preserves f (WriteSamples rw labels values).
Proof. unfold WriteSamples, sendInBatches. frame. Qed.
Hint Resolve frame_WriteSamples : frame.

Lemma frame_WaitN lim n : preserves f (WaitN lim n).
Proof. unfold WaitN. frame. Qed.
Hint Resolve frame_WaitN : frame.

Lemma frame_sendSamplesFrom b labels values lim (fuel : nat) : ∀ i,
  preserves f (sendSamplesFrom fuel b labels values lim i).
Proof.
  induction fuel as [|fuel IH]; intros i; cbn [sendSamplesFrom]; frame.
Qed.
Hint Resolve frame_sendSamplesFrom : frame.

Lemma frame_sendSamples b labels values lim :
  preserves f (sendSamples b labels values lim).
Proof. unfold sendSamples. frame. Qed.
Hint Resolve frame_sendSamples : frame.

Lemma frame_replicateCombinations b metricName series lim combos : ∀ i,
  preserves f (replicateCombinations b metricName series lim i combos).
Proof.
  induction combos as [|labelSet rest IH]; intros i; simpl; frame.
Qed.
Hint Resolve frame_replicateCombinations : frame.

Lemma frame_replicateSeries b metricName series lim :
  preserves f (replicateSeries b metricName series lim).
Proof.
  unfold replicateSeries. apply preserves_bind; [|intros ?; frame].
  by apply preserves_generateLabelCombinationsLogged.
Qed.
Hint Resolve frame_replicateSeries : frame.

Lemma frame_replicateAll b metricName lim result :
  preserves f (replicateAll b metricName lim result).
Proof. induction result as [|series rest IH]; simpl; frame. Qed.

End LiveFrame.

Section Pacing.
Context `{GoRuntime}.
Implicit Types (b : Benchmarker) (w : World) (rw : RemoteWriter)
  (lim : Limiter).

Lemma samplesIn_app requests1 requests2 :
  samplesIn (requests1 ++ requests2)
  = samplesIn requests1 + samplesIn requests2.
Proof.
  unfold samplesIn. rewrite fmap_app, foldr_app.
  generalize ((λ p : string * list prompb.TimeSeries,
                 foldr Z.add 0
                   ((λ ts, len (prompb.Samples ts)) <$> p.2)) <$> requests1).
  intros l. induction l as [|n l IH]; simpl; lia.
Qed.

Lemma tokensIn_app tokens1 tokens2 :
  tokensIn (tokens1 ++ tokens2) = tokensIn tokens1 + tokensIn tokens2.
Proof.
  unfold tokensIn. rewrite foldr_app.
  induction tokens1 as [|n rest IH]; simpl; lia.
Qed.

Lemma paced_refl endpoint bound w : paced endpoint bound w w.
Proof. exists [], []. by rewrite !app_nil_r. Qed.

Lemma paced_frame endpoint bound w w' :
  acquired w' = acquired w → posted w' = posted w →
  paced endpoint bound w w'.
Proof. intros Ha Hp. exists [], []. by rewrite !app_nil_r. Qed.

Lemma paced_trans endpoint bound w1 w2 w3 :
  paced endpoint bound w1 w2 → paced endpoint bound w2 w3 →
  paced endpoint bound w1 w3.
Proof.
  intros (t1 & r1 & Ha1 & Hp1 & Ht1 & Hr1 & Hs1)
         (t2 & r2 & Ha2 & Hp2 & Ht2 & Hr2 & Hs2).
  exists (t1 ++ t2), (r1 ++ r2).
  rewrite Ha2, Ha1, Hp2, Hp1, !app_assoc.
  rewrite samplesIn_app, tokensIn_app, !Forall_app. repeat split; try done.
  lia.
Qed.

Lemma length_omap_le {A B} (g : A → option B) (l : list A) :
  (length (omap g l) <= length l)%nat.
Proof.
  induction l as [|x l IH]; [done|].
  change (omap g (x :: l))
    with (match g x with Some y => y :: omap g l | None => omap g l end).
  destruct (g x); cbn [length]; lia.
Qed.

(** One call of [WriteSamples]: without an accepted value it fails before
    any request; otherwise it makes one request with the one converted
    series and returns what became of it. *)
Lemma WriteSamples_spec rw (labels : gmap string string)
    (values : list (list any)) w :
  1 <= batchSize rw <= max_int64 →
  let floats := omap acceptedValue values in
  ∃ r w',
    WriteSamples rw labels values w = Some (r, w')
    ∧ (floats = [] →
       r = Some (wrapError "converting to time series"
                   (errorString (if decide (values = [])
                                 then "no values provided"
                                 else "no valid samples found")))
       ∧ posted w' = posted w
       ∧ postResponses w' = postResponses w)
    ∧ (floats ≠ [] →
       ∃ timeSeries,
         prompb.Labels timeSeries = labelPairs labels
         ∧ prompb.SValue <$> prompb.Samples timeSeries = floats
         ∧ prompb.Timestamp <$> prompb.Samples timeSeries
           = NextTimestamps (clockReadings (length floats) w) (coordinator w)
         ∧ r = batchRangeError 0 1 <$> batchError (postOutcome w 0)
         ∧ posted w'
           = posted w ++ (if reachesWire (postOutcome w 0)
                          then [(endpoint rw, [timeSeries])] else [])
         ∧ postResponses w' = tl (postResponses w)).
Proof.
  intros Hbs floats. unfold WriteSamples, convertToTimeSeries.
  destruct values as [|value rest].
  { rewrite decide_True by done. eexists _, _. split; [reflexivity|].
    split; [|done]. intros _. by rewrite decide_True by done. }
  rewrite decide_False
    by (rewrite len_cons; pose proof (len_nonneg rest); lia).
  destruct (convertSamples_spec (value :: rest) [] w)
    as (stamped & Hc & Hv & Ht).
  fold floats in Hc, Hv, Ht. unfold bind at 1 2. rewrite Hc. cbn [app].
  set (w1 := afterTimestamps (length floats) w).
  assert (Hposted1 : posted w1 = posted w).
  { subst w1. clear. generalize (length floats). intros n. revert w.
    induction n as [|n IH]; intros w; [done|]. simpl. by rewrite IH. }
  assert (Hresp1 : postResponses w1 = postResponses w).
  { subst w1. clear. generalize (length floats). intros n. revert w.
    induction n as [|n IH]; intros w; [done|]. simpl. by rewrite IH. }
  destruct stamped as [|sample stamped].
  { rewrite decide_True by done. eexists _, _. split; [reflexivity|].
    split; [|by intros Hne; rewrite <- Hv in Hne].
    intros _. by rewrite decide_False by done. }
  rewrite decide_False
    by (rewrite len_cons; pose proof (len_nonneg stamped); lia).
  set (timeSeries := {| prompb.Labels := labelPairs labels;
                        prompb.Samples := sample :: stamped |}).
  unfold bind, ret. unfold sendInBatches.
  rewrite sendInBatchesFrom_chunks; [|done|by vm_compute|lia|by left|done].
  change (drop (Z.to_nat 0) [timeSeries]) with [timeSeries].
  rewrite chunks_cons by lia.
  rewrite take_ge, drop_ge by (simpl; lia).
  rewrite chunks_nil. cbn [sendBatches]. unfold bind.
  rewrite sendBatch_spec.
  assert (Ho : postOutcome w1 0 = postOutcome w 0)
    by (unfold postOutcome; by rewrite Hresp1).
  rewrite Ho.
  destruct (batchError (postOutcome w 0)) as [e|] eqn:He.
  - eexists _, _. split; [reflexivity|]. split.
    { intros Hnil. by rewrite <- Hv in Hnil. }
    intros _. exists timeSeries. split; [done|]. split; [done|].
    split; [done|]. split; [done|].
    destruct (reachesWire (postOutcome w 0)); simpl;
      rewrite ?Hposted1, ?Hresp1, ?app_nil_r; done.
  - assert (Hwire : reachesWire (postOutcome w 0) = true).
    { destruct (postOutcome w 0); try done. }
    rewrite Hwire. cbn [logCall ret]. eexists _, _. split; [reflexivity|].
    split.
    { intros Hnil. by rewrite <- Hv in Hnil. }
    intros _. exists timeSeries. split; [done|]. split; [done|].
    split; [done|]. split; [done|]. simpl. by rewrite Hposted1, Hresp1.
Qed.

Lemma suffix_tl {A} (l : list A) : tl l `suffix_of` l.
Proof. destruct l; [done|]. by apply suffix_cons_r. Qed.

(** The loops of a live run, for any relation [R] between the world
    before and the world after that composes, holds of the steps that
    leave limiter, writer and coordinator alone, and holds of one chunk as
    [sendSamples] handles it: the wait for its tokens, then its write.
    [P] is what is known of the series the queries return, [L] what
    follows from it for the labels a chunk is written under. *)
Section Steps.
Variables (b : Benchmarker) (bound : Z).
Variables (P : Series → Prop) (L : gmap string string → Prop).
Variable R : World → World → Prop.
Hypothesis b_ready : writerReady b.
Hypothesis P_bounded : ∀ series, P series → len (Values series) < 2 ^ 62.
Hypothesis P_labels : ∀ series combos labelSet,
  P series →
  combine (config.Replication (config b))
    (config.ReplicationFactor (config b)) = Some combos →
  labelSet ∈ combos →
  L (labelSet ∪ Metric series).
Hypothesis R_refl : ∀ w, R w w.
Hypothesis R_trans : ∀ w1 w2 w3, R w1 w2 → R w2 w3 → R w1 w3.
Hypothesis R_quiet : ∀ w w',
  acquired w' = acquired w → posted w' = posted w →
  coordinator w' = coordinator w → clock w' `suffix_of` clock w →
  R w w'.
Hypothesis R_refused : ∀ lim (n : Z) w e w1,
  1 <= n <= bound →
  WaitN lim n w = Some (Some e, w1) →
  R w w1.
Hypothesis R_chunk : ∀ lim labels (chunk : list (list any)) entry w w1 r w3,
  L labels →
  1 <= len chunk <= bound →
  WaitN lim (len chunk) w = Some (None, w1) →
  match remoteWriter b with
  | Some rw => WriteSamples rw labels chunk
  | None => ret None
  end (set_logs (logs w1 ++ [entry]) w1) = Some (r, w3) →
  R w w3.

Ltac quiet := apply R_quiet; [reflexivity..|try reflexivity].

Lemma writeChunk_returns (labels : gmap string string)
    (chunk : list (list any)) w :
  ∃ r w',
    match remoteWriter b with
    | Some rw => WriteSamples rw labels chunk
    | None => ret None
    end w = Some (r, w').
Proof.
  unfold writerReady in b_ready. destruct (remoteWriter b) as [rw|].
  - destruct (WriteSamples_acquired rw labels chunk w b_ready)
      as (r & w' & Hrun & _).
    by exists r, w'.
  - by eexists _, _.
Qed.

Lemma sendSamplesFrom_steps (labels : gmap string string)
    (values : list (list any)) lim :
  L labels →
  Burst lim = bound → 1 <= bound <= max_int64 → len values < 2 ^ 62 →
  ∀ (fuel : nat) (i : Z) w,
    0 <= i → (i = 0 ∨ bound <= i) →
    (length (drop (Z.to_nat i) values) <= fuel)%nat →
    ∃ r w',
      sendSamplesFrom fuel b labels values lim i w = Some (r, w') ∧ R w w'.
Proof.
  intros Hlabels Hlim Hburst Hlen.
  induction fuel as [|fuel IH]; intros i w Hi Hmul Hfuel.
  - assert (Hge : len values <= i).
    { rewrite length_drop in Hfuel. unfold len. lia. }
    exists None, w. simpl. rewrite decide_False by lia. by split.
  - destruct (decide (i < len values)) as [Hlt|Hge].
    2:{ exists None, w. cbn [sendSamplesFrom].
        rewrite decide_False by lia. by split. }
    cbn [sendSamplesFrom]. rewrite decide_True by done. rewrite Hlim.
    assert (Hadd : int_add i bound = i + bound).
    { apply wrap64_id. unfold in_int64, min_int64, max_int64 in *. lia. }
    rewrite Hadd.
    destruct (slice_chunk values i bound) as [Hslice Hend]; [lia..|].
    rewrite Hslice.
    set (chunk := take (Z.to_nat bound) (drop (Z.to_nat i) values)).
    assert (Hchunk : 1 <= len chunk <= bound).
    { subst chunk. unfold len in *. rewrite length_take, length_drop. lia. }
    unfold bind at 1.
    destruct (WaitN_spec lim (len chunk) w) as (rw0 & w1 & Hwait & _).
    rewrite Hwait.
    destruct rw0 as [e|].
    { eexists _, w1. split; [reflexivity|]. by eapply R_refused. }
    unfold int_quot. rewrite !decide_False by lia.
    unfold bind at 1. cbn [logCall]. unfold bind at 1.
    match goal with |- context [match remoteWriter b with _ => _ end ?w0] =>
      destruct (writeChunk_returns labels chunk w0) as (r2 & w3 & Hwrite)
    end.
    rewrite Hwrite.
    assert (Hstep : R w w3) by (by eapply R_chunk).
    destruct r2 as [e|]; [by eexists _, w3|].
    destruct (IH (i + bound) w3) as (r & w' & Hrun & Hrest); [lia|lia| |].
    { rewrite length_drop in *. lia. }
    exists r, w'. split; [exact Hrun|]. by eapply R_trans.
Qed.

Lemma sendSamples_steps (labels : gmap string string)
    (values : list (list any)) lim w :
  L labels →
  Burst lim = bound → 1 <= bound <= max_int64 → len values < 2 ^ 62 →
  ∃ r w', sendSamples b labels values lim w = Some (r, w') ∧ R w w'.
Proof.
  intros Hlabels Hlim Hburst Hlen. unfold sendSamples. case_decide.
  - by exists None, w.
  - apply sendSamplesFrom_steps; [done|done|done|done|lia|by left|done].
Qed.

Lemma replicateCombinations_steps metricName (series : Series) lim :
  Burst lim = bound → 1 <= bound <= max_int64 →
  len (Values series) < 2 ^ 62 →
  ∀ (combos : list (gmap string string)) (i : Z) w,
    Forall (λ labelSet, L (labelSet ∪ Metric series)) combos →
    ∃ r w',
      replicateCombinations b metricName series lim i combos w
      = Some (r, w')
      ∧ R w w'.
Proof.
  intros Hlim Hburst Hlen.
  induction combos as [|labelSet rest IH]; intros i w Hcombos.
  { by exists None, w. }
  apply Forall_cons in Hcombos as [Hlabels Hcombos].
  cbn [replicateCombinations]. case_decide.
  { by exists None, w. }
  destruct (dryRun b).
  - unfold bind. cbn [logCall].
    match goal with |- context [replicateCombinations _ _ _ _ _ rest ?w0] =>
      destruct (IH (i + 1) w0 Hcombos) as (r & w' & Hrun & Hrest) end.
    exists r, w'. split; [exact Hrun|].
    eapply R_trans; [|exact Hrest]. quiet.
  - unfold bind.
    destruct (sendSamples_steps (labelSet ∪ Metric series) (Values series)
                lim w Hlabels Hlim Hburst Hlen) as ([e|] & w1 & -> & Hstep).
    + by eexists _, w1.
    + destruct (IH (i + 1) w1 Hcombos) as (r & w' & Hrun & Hrest).
      exists r, w'. split; [exact Hrun|]. by eapply R_trans.
Qed.

Lemma replicateAll_steps metricName lim :
  0 <= config.ReplicationFactor (config b) →
  Burst lim = bound → 1 <= bound <= max_int64 →
  ∀ (answer : list Series) w,
    Forall P answer →
    ∃ w', replicateAll b metricName lim answer w = Some (None, w') ∧ R w w'.
Proof.
  intros Hrf Hlim Hburst.
  induction answer as [|series rest IH]; intros w Hall.
  { by exists w. }
  apply Forall_cons in Hall as [Hseries Hall].
  cbn [replicateAll]. unfold replicateSeries, bind.
  rewrite generateLabelCombinationsLogged_spec.
  rewrite generateLabelCombinations_combine.
  destruct (combine_total (config.Replication (config b)) _ Hrf)
    as (combos & Hcombos & _).
  rewrite Hcombos.
  assert (Hlogged : R w (set_logs (logs w ++ autoFillReports (config b)) w))
    by quiet.
  destruct (replicateCombinations_steps metricName series lim Hlim Hburst
              (P_bounded _ Hseries) combos 0
              (set_logs (logs w ++ autoFillReports (config b)) w))
    as (r & w1 & -> & Hstep).
  { apply Forall_forall. intros labelSet Hin. by eapply P_labels. }
  destruct r as [e|].
  - cbn [logCall].
    match goal with |- context [replicateAll _ _ _ rest ?w0] =>
      destruct (IH w0 Hall) as (w' & Hrun & Hrest) end.
    exists w'. split; [exact Hrun|].
    eapply R_trans; [exact Hlogged|].
    eapply R_trans; [exact Hstep|].
    eapply R_trans; [|exact Hrest]. quiet.
  - destruct (IH w1 Hall) as (w' & Hrun & Hrest).
    exists w'. split; [exact Hrun|].
    eapply R_trans; [exact Hlogged|]. by eapply R_trans.
Qed.

Lemma processMetric_steps metricName lim w :
  0 <= config.ReplicationFactor (config b) →
  Burst lim = bound → 1 <= bound <= max_int64 →
  answered P (rangeOutcome w) →
  ∃ r w',
    processMetric b metricName lim w = Some (r, w')
    ∧ R w w'
    ∧ rangeResponses w' = tl (rangeResponses w).
Proof.
  intros Hrf Hlim Hburst Hb.
  unfold processMetric, queryMetricRange, nextRangeResponse.
  unfold rangeOutcome in Hb. unfold bind at 1 2.
  destruct (hd _ (rangeResponses w)) as [e|e|e|e|status body data];
    try (eexists _, _; split; [reflexivity|]; split; [quiet|done]).
  unfold bind at 1. cbn [recordQuery].
  case_decide.
  { eexists _, _. split; [reflexivity|]. split; [quiet|done]. }
  cbn [ret]. case_decide.
  { unfold bind. cbn [logCall ret]. eexists _, _. split; [reflexivity|].
    split; [quiet|done]. }
  match goal with |- context [replicateAll _ _ _ data ?w0] =>
    destruct (replicateAll_steps metricName lim Hrf Hlim Hburst data w0 Hb)
      as (w' & Hrun & Hstep);
    pose proof (frame_replicateAll rangeResponses
                  ltac:(done) ltac:(done) ltac:(done) ltac:(done)
                  ltac:(done) ltac:(done) ltac:(done)
                  b metricName lim data _ _ _ Hrun) as Hranges
  end.
  exists None, w'. split; [exact Hrun|]. split; [|exact Hranges].
  eapply R_trans; [|exact Hstep]. quiet.
Qed.

Lemma processEach_steps lim :
  0 <= config.ReplicationFactor (config b) →
  Burst lim = bound → 1 <= bound <= max_int64 →
  ∀ (metrics : list string) w,
    answersSatisfy P w →
    ∃ r w', processEach b lim metrics w = Some (r, w') ∧ R w w'.
Proof.
  intros Hrf Hlim Hburst.
  induction metrics as [|metricName rest IH]; intros w Hw.
  { by exists None, w. }
  cbn [processEach]. unfold bind at 1. unfold ctxDone.
  destruct (hd None (ctxErrs w)) as [ctxErr|].
  { eexists _, _. split; [reflexivity|]. quiet. }
  unfold bind at 1. cbn [logCall]. unfold bind at 1.
  match goal with |- context [processMetric _ _ _ ?w0] =>
    destruct (processMetric_steps metricName lim w0 Hrf Hlim Hburst)
      as (r1 & w1 & Hrun1 & Hstep1 & Hranges1)
  end.
  { unfold answersSatisfy in Hw. unfold rangeOutcome. simpl.
    destruct (rangeResponses w); [done|]. by apply Forall_cons in Hw as [? _]. }
  rewrite Hrun1. simpl in Hranges1.
  assert (Hw1 : answersSatisfy P w1).
  { unfold answersSatisfy in *. rewrite Hranges1.
    destruct (rangeResponses w); [done|]. by apply Forall_cons in Hw as [_ ?]. }
  assert (Hfirst : R w w1).
  { eapply R_trans; [|exact Hstep1]. quiet. }
  destruct r1 as [e|].
  - unfold bind. cbn [logCall].
    match goal with |- context [processEach _ _ rest ?w0] =>
      destruct (IH w0) as (r & w' & Hrun & Hrest); [exact Hw1|] end.
    exists r, w'. split; [exact Hrun|].
    eapply R_trans; [exact Hfirst|].
    eapply R_trans; [|exact Hrest]. quiet.
  - destruct (IH w1 Hw1) as (r & w' & Hrun & Hrest).
    exists r, w'. split; [exact Hrun|]. by eapply R_trans.
Qed.

Lemma Run_steps w :
  1 <= config.ReplicationFactor (config b) →
  1 <= config.SamplesPerSecond (config b) →
  2 * config.SamplesPerSecond (config b) <= max_int64 →
  bound = 2 * config.SamplesPerSecond (config b) →
  answersSatisfy P w →
  ∃ r w', Run b w = Some (r, w') ∧ R w w'.
Proof.
  intros Hrf Hsps Hfit Hbound Hw. unfold Run. unfold bind at 1.
  cbn [logCall]. unfold bind at 1.
  match goal with |- context [discoverMetrics b ?w0] =>
    destruct (discoverMetrics_spec b w0) as (r0 & -> & _) end.
  destruct r0 as [metrics|e].
  2:{ eexists _, _. split; [reflexivity|]. quiet. }
  unfold bind at 1. cbn [logCall]. unfold bind at 1. cbn [logCall].
  unfold processMetrics, bind. cbn [timeNow].
  set (lim := NewLimiter _ _).
  assert (Hburst : Burst lim = bound).
  { unfold lim, Burst, NewLimiter, int_mul. simpl.
    rewrite wrap64_id; [lia|]. unfold in_int64, min_int64, max_int64 in *. lia. }
  match goal with |- context [processEach _ _ _ ?w0] =>
    destruct (processEach_steps lim ltac:(lia) Hburst ltac:(lia)
                (filterMetrics b metrics) w0 Hw) as (r & w' & Hrun & Hstep)
  end.
  exists r, w'. split; [exact Hrun|].
  eapply R_trans; [|exact Hstep]. apply R_quiet; try reflexivity.
  apply suffix_tl.
Qed.

End Steps.

(** The pacing of a run. *)
Section Sending.
Variables (b : Benchmarker) (target : string) (bound : Z).
Hypothesis b_ready : writerReady b.
Hypothesis b_target : ∀ rw, remoteWriter b = Some rw → endpoint rw = target.

Lemma paced_refused lim (n : Z) w e w1 :
  1 <= n <= bound →
  WaitN lim n w = Some (Some e, w1) →
  paced target bound w w1.
Proof.
  intros Hn Hwait.
  destruct (WaitN_spec lim n w) as (r & w' & Hrun & Hacq & _).
  rewrite Hwait in Hrun. injection Hrun as <- <-.
  exists [n], []. rewrite app_nil_r. split; [done|].
  split; [by eapply (frame_WaitN posted), Hwait|].
  split; [by constructor|]. split; [done|].
  unfold samplesIn, tokensIn. simpl. lia.
Qed.

(** The write of one chunk, as [sendSamples] makes it. *)
Lemma writeChunk_paced (labels : gmap string string)
    (chunk : list (list any)) w r w' :
  len chunk <= bound →
  match remoteWriter b with
  | Some rw => WriteSamples rw labels chunk
  | None => ret None
  end w = Some (r, w') →
  ∃ requests,
    acquired w' = acquired w
    ∧ posted w' = posted w ++ requests
    ∧ Forall (singleSeries target bound) requests
    ∧ samplesIn requests <= len chunk.
Proof.
  intros Hbound. unfold writerReady in b_ready.
  destruct (remoteWriter b) as [rw|] eqn:Hrw.
  2:{ intros [= <- <-]. exists []. rewrite app_nil_r.
      repeat split; try done. apply len_nonneg. }
  intros Hrun.
  destruct (WriteSamples_spec rw labels chunk w b_ready)
    as (r0 & w0 & Hrun0 & Hnone & Hsome).
  rewrite Hrun in Hrun0. injection Hrun0 as <- <-.
  assert (Hacq : acquired w' = acquired w).
  { by eapply (frame_WriteSamples acquired), Hrun. }
  pose proof (length_omap_le acceptedValue chunk) as Hle.
  destruct (omap acceptedValue chunk) as [|x floats] eqn:Hfloats.
  - destruct Hnone as (_ & Hp & _); [done|].
    exists []. rewrite app_nil_r. repeat split; try done.
    apply len_nonneg.
  - destruct Hsome as (timeSeries & _ & Hv & _ & _ & Hp & _); [done|].
    assert (Hlen : len (prompb.Samples timeSeries)
                   = Z.of_nat (length (x :: floats))).
    { unfold len. by rewrite <- Hv, length_fmap. }
    cbn [length] in Hlen, Hle. unfold len in Hbound.
    destruct (reachesWire (postOutcome w 0)).
    + exists [(endpoint rw, [timeSeries])].
      repeat split; try done.
      * constructor; [|done]. split; [by apply b_target|].
        exists timeSeries. split; [done|]. simpl. lia.
      * unfold samplesIn, len. simpl. unfold len in Hlen. lia.
    + exists []. repeat split; try done. apply len_nonneg.
Qed.

Lemma paced_chunk lim (labels : gmap string string)
    (chunk : list (list any)) entry w w1 r w3 :
  1 <= len chunk <= bound →
  WaitN lim (len chunk) w = Some (None, w1) →
  match remoteWriter b with
  | Some rw => WriteSamples rw labels chunk
  | None => ret None
  end (set_logs (logs w1 ++ [entry]) w1) = Some (r, w3) →
  paced target bound w w3.
Proof.
  intros Hn Hwait Hwrite.
  destruct (WaitN_spec lim (len chunk) w) as (r0 & w0 & Hrun & Hacq & _).
  rewrite Hwait in Hrun. injection Hrun as <- <-.
  assert (Hposted : posted w1 = posted w).
  { by eapply (frame_WaitN posted), Hwait. }
  destruct (writeChunk_paced labels chunk _ _ _ ltac:(lia) Hwrite)
    as (requests & Hacq3 & Hposted3 & Hreq & Hsum).
  cbn [acquired posted set_logs] in Hacq3, Hposted3.
  exists [len chunk], requests.
  rewrite Hacq3, Hacq, Hposted3, Hposted. repeat split; try done.
  - constructor; [lia|done].
  - unfold tokensIn. simpl. lia.
Qed.

Lemma Run_paced w :
  1 <= config.ReplicationFactor (config b) →
  1 <= config.SamplesPerSecond (config b) →
  2 * config.SamplesPerSecond (config b) <= max_int64 →
  bound = 2 * config.SamplesPerSecond (config b) →
  boundedWorld w →
  ∃ r w', Run b w = Some (r, w') ∧ paced target bound w w'.
Proof.
  apply (Run_steps b bound (λ series, len (Values series) < 2 ^ 62)
           (λ _, True) (paced target bound) b_ready); try done.
  - apply paced_refl.
  - apply paced_trans.
  - intros. by apply paced_frame.
  - apply paced_refused.
  - intros lim labels chunk entry w0 w1 r w3 _. apply paced_chunk.
Qed.

End Sending.

(** A live benchmarker as [NewBenchmarker] builds it. *)
Lemma NewBenchmarker_live (cfg : config.Config) w :
  ∃ b w0,
    NewBenchmarker cfg false w = Some (Ok b, w0)
    ∧ config b = cfg
    ∧ remoteWriter b = Some {| endpoint := config.RemoteWriteURL cfg;
                               batchSize := config.BatchSize cfg |}
    ∧ rangeResponses w0 = rangeResponses w
    ∧ acquired w0 = acquired w
    ∧ posted w0 = posted w
    ∧ coordinator w0 = NewTimestampCoordinator (hd 0 (clock w))
    ∧ clock w0 = tl (clock w).
Proof.
  unfold NewBenchmarker, bind. rewrite compileExcludes_spec. simpl.
  eexists _, _. split; [reflexivity|]. by simpl.
Qed.

Lemma validated_run_paced (cfg : config.Config) w :
  config.Validate cfg = None →
  2 * config.SamplesPerSecond cfg <= max_int64 →
  config.BatchSize cfg <= max_int64 →
  boundedWorld w →
  ∃ b w0 r w',
    NewBenchmarker cfg false w = Some (Ok b, w0)
    ∧ Run b w0 = Some (r, w')
    ∧ paced (config.RemoteWriteURL cfg) (2 * config.SamplesPerSecond cfg)
        w w'.
Proof.
  intros Hvalid Hfit Hbatch Hw.
  unfold config.Validate in Hvalid. repeat case_decide; try done.
  destruct (NewBenchmarker_live cfg w)
    as (b & w0 & Hnew & Hcfg & Hrw & Hranges & Hacq & Hposted & _).
  destruct (Run_paced b (config.RemoteWriteURL cfg)
              (2 * config.SamplesPerSecond cfg)) with (w := w0)
    as (r & w' & Hrun & Hstep).
  - unfold writerReady. rewrite Hrw. simpl. lia.
  - intros rw. rewrite Hrw. by intros [= <-].
  - rewrite Hcfg. lia.
  - rewrite Hcfg. lia.
  - by rewrite Hcfg.
  - by rewrite Hcfg.
  - unfold boundedWorld, answersSatisfy. by rewrite Hranges.
  - exists b, w0, r, w'. split; [done|]. split; [done|].
    eapply paced_trans; [|exact Hstep]. by apply paced_frame.
Qed.

(** What a run asks the query API. *)
Lemma processMetric_queried b metricName lim w r w' :
  processMetric b metricName lim w = Some (r, w') →
  queried w'
  = queried w ++ (if requestCreated (rangeOutcome w) then [metricName] else [])
  ∧ rangeResponses w' = tl (rangeResponses w).
Proof.
  unfold processMetric, queryMetricRange, nextRangeResponse, rangeOutcome.
  unfold bind at 1 2.
  destruct (hd _ (rangeResponses w)) as [e|e|e|e|status body data];
    try (intros [= _ <-]; simpl; by rewrite ?app_nil_r).
  unfold bind at 1. cbn [recordQuery]. case_decide.
  { intros [= _ <-]. by simpl. }
  cbn [ret]. case_decide.
  { unfold bind. cbn [logCall ret]. intros [= _ <-]. by simpl. }
  intros Hrun. split.
  - by rewrite (frame_replicateAll queried
                  ltac:(done) ltac:(done) ltac:(done) ltac:(done)
                  ltac:(done) ltac:(done) ltac:(done) _ _ _ _ _ _ _ Hrun).
  - by rewrite (frame_replicateAll rangeResponses
                  ltac:(done) ltac:(done) ltac:(done) ltac:(done)
                  ltac:(done) ltac:(done) ltac:(done) _ _ _ _ _ _ _ Hrun).
Qed.

Lemma processEach_queried b lim (metrics : list string) :
  ∀ w r w',
    processEach b lim metrics w = Some (r, w') →
    ∃ asked,
      queried w' = queried w ++ asked
      ∧ sublist asked metrics
      ∧ (Forall (λ o, requestCreated o = true) (rangeResponses w) →
         asked `prefix_of` metrics ∧ (r = None → asked = metrics)).
Proof.
  induction metrics as [|metricName rest IH]; intros w r w'.
  { intros [= <- <-]. exists []. by rewrite app_nil_r. }
  cbn [processEach]. unfold bind at 1. unfold ctxDone.
  destruct (hd None (ctxErrs w)) as [ctxErr|].
  { intros [= <- <-]. exists []. rewrite app_nil_r. split; [done|].
    split; [apply sublist_nil_l|]. intros _. split; [|done].
    apply prefix_nil. }
  unfold bind at 1. cbn [logCall]. unfold bind at 1.
  match goal with |- context [processMetric _ _ _ ?w0] =>
    destruct (processMetric b metricName lim w0) as [[r1 w1]|] eqn:Hpm;
      [|done];
    destruct (processMetric_queried _ _ _ _ _ _ Hpm) as [Hq1 Hr1]
  end.
  cbn [queried rangeResponses set_logs set_ctxErrs] in Hq1, Hr1.
  unfold rangeOutcome in Hq1. cbn [rangeResponses set_logs set_ctxErrs] in Hq1.
  assert (Hrest : ∀ w2, queried w2 = queried w1 →
                        rangeResponses w2 = rangeResponses w1 →
            processEach b lim rest w2 = Some (r, w') →
            ∃ asked,
              queried w' = queried w ++ asked
              ∧ sublist asked (metricName :: rest)
              ∧ (Forall (λ o, requestCreated o = true) (rangeResponses w) →
                 asked `prefix_of` metricName :: rest
                 ∧ (r = None → asked = metricName :: rest))).
  { intros w2 Hq2 Hr2 Hrun.
    destruct (IH _ _ _ Hrun) as (asked & Hq & Hsub & Hall).
    rewrite Hq2, Hq1, <- app_assoc in Hq. rewrite Hr2, Hr1 in Hall.
    eexists. split; [exact Hq|]. split.
    - destruct (requestCreated _); simpl;
        [by apply sublist_skip|by apply sublist_cons].
    - intros Hcreated.
      assert (Hhd : requestCreated
                      (hd (GetTransportError (errorString "EOF"))
                         (rangeResponses w)) = true).
      { destruct (rangeResponses w); [done|].
        by apply Forall_cons in Hcreated as [? _]. }
      rewrite Hhd. simpl.
      destruct Hall as [Hpre Hall].
      { destruct (rangeResponses w); [done|].
        by apply Forall_cons in Hcreated as [_ ?]. }
      split; [by apply prefix_cons|]. intros Hr. by rewrite Hall. }
  destruct r1 as [e|].
  - unfold bind. cbn [logCall]. by apply Hrest.
  - by apply Hrest.
Qed.

Lemma Run_queried b w r w' :
  Run b w = Some (r, w') →
  let filtered := filterMetrics b (discovered (nameOutcome w)) in
  ∃ asked,
    queried w' = queried w ++ asked
    ∧ sublist asked filtered
    ∧ (Forall (λ o, requestCreated o = true) (rangeResponses w) →
       asked `prefix_of` filtered ∧ (r = None → asked = filtered)).
Proof.
  unfold Run, discoverMetrics, nextNameResponse, nameOutcome.
  unfold bind at 1. cbn [logCall]. unfold bind at 1 2.
  cbn [nameResponses set_logs].
  assert (Hnil : filterMetrics b [] = []) by done.
  destruct (hd _ (nameResponses w)) as [e|e|e|e|status body data];
    cbn [discovered];
    try (intros [= <- <-]; exists []; rewrite Hnil, app_nil_r;
         split; [done|]; split; [done|]; intros _; by split).
  case_decide as Hstatus.
  { rewrite decide_False by done.
    intros [= <- <-]. exists []. rewrite Hnil, app_nil_r.
    split; [done|]. split; [done|]. intros _. by split. }
  rewrite decide_True by (by destruct (decide (status = "success"))).
  cbn [ret]. unfold bind at 1. cbn [logCall]. unfold bind at 1. cbn [logCall].
  unfold processMetrics, bind. cbn [timeNow].
  intros Hrun. apply processEach_queried in Hrun. exact Hrun.
Qed.

End Pacing.

(** X10.  One call of [WriteSamples] makes at most one remote-write
    request.  When no raw pair of the chunk is accepted the call fails
    during the conversion: nothing is posted and no answer of the server
    is used up.  Otherwise exactly one request is made; it carries one
    series with the given labels and the accepted values in order, under
    fresh timestamps of the coordinator, and the call returns the error of
    that request, if any, as the error of batch [0-1]. *)
Theorem WriteSamples_one_request `{GoRuntime}
    (rw : RemoteWriter) (labels : gmap string string)
    (values : list (list any)) (w : World) :
  1 <= batchSize rw <= max_int64 →
  let floats := omap acceptedValue values in
  ∃ r w',
    WriteSamples rw labels values w = Some (r, w')
    ∧ (floats = [] →
       r = Some (wrapError "converting to time series"
                   (errorString (if decide (values = [])
                                 then "no values provided"
                                 else "no valid samples found")))
       ∧ posted w' = posted w
       ∧ postResponses w' = postResponses w)
    ∧ (floats ≠ [] →
       ∃ timeSeries,
         prompb.Labels timeSeries = labelPairs labels
         ∧ prompb.SValue <$> prompb.Samples timeSeries = floats
         ∧ prompb.Timestamp <$> prompb.Samples timeSeries
           = NextTimestamps (clockReadings (length floats) w) (coordinator w)
         ∧ r = batchRangeError 0 1 <$> batchError (postOutcome w 0)
         ∧ posted w'
           = posted w ++ (if reachesWire (postOutcome w 0)
                          then [(endpoint rw, [timeSeries])] else [])
         ∧ postResponses w' = tl (postResponses w)).
Proof. apply WriteSamples_spec. Qed.

Lemma WriteSamples_one_request_witness :
  let rw := {| endpoint := "http://localhost:9090/api/v1/write";
               batchSize := 100 |} in
  let values := [[anyFloat (S754_zero false); anyString "3.14"];
                 [anyFloat (S754_zero false); anyString "oops"]] in
  let w := set_postResponses [PostStatus 503] quietWorld in
  ∃ r w' timeSeries,
    @WriteSamples exampleRuntime rw ∅ values w = Some (r, w')
    ∧ r = Some (batchRangeError 0 1
                  (errorString "remote write failed with status 503"))
    ∧ posted w' = [(endpoint rw, [timeSeries])]
    ∧ length (prompb.Samples timeSeries) = 1%nat.
Proof.
  intros rw values w.
  destruct (@WriteSamples_one_request exampleRuntime rw ∅ values w)
    as (r & w' & Hrun & _ & Hsome).
  - unfold max_int64. simpl. lia.
  - destruct Hsome as (timeSeries & _ & Hv & _ & Hr & Hp & _);
      [vm_compute; discriminate|].
    exists r, w', timeSeries. split; [exact Hrun|]. split; [exact Hr|].
    split; [exact Hp|].
    apply (f_equal length) in Hv. by rewrite length_fmap in Hv.
Defined.

(** X11.  A live run on a configuration that [Validate] accepts.
    [NewBenchmarker] returns a benchmarker and [Run] returns -- no panic,
    no endless loop.  During the run the limiter is asked for between one
    and [2 * samples_per_second] tokens at a time; every remote-write
    request goes to the configured URL and carries exactly one series of
    between one and [2 * samples_per_second] samples, whatever the batch
    size; and no more samples are posted than tokens were asked for.
    (The doubled rate and the batch size have to fit an [int].) *)
Theorem validated_live_run_is_paced `{GoRuntime}
    (cfg : config.Config) (w : World) :
  config.Validate cfg = None →
  2 * config.SamplesPerSecond cfg <= max_int64 →
  config.BatchSize cfg <= max_int64 →
  boundedWorld w →
  ∃ b w0 r w',
    NewBenchmarker cfg false w = Some (Ok b, w0)
    ∧ Run b w0 = Some (r, w')
    ∧ paced (config.RemoteWriteURL cfg) (2 * config.SamplesPerSecond cfg)
        w w'.
Proof. apply validated_run_paced. Qed.

Lemma validated_live_run_is_paced_witness :
  let cfg := setDefaults (labelConfig [] 0) in
  let value := [anyFloat (S754_zero false); anyString "3.14"] in
  let w := set_nameResponses [GetDecoded "success" "" ["up"]]
             (set_rangeResponses
                [GetDecoded "success" "" [mkSeries ∅ [value; value]]]
                quietWorld) in
  ∃ b w0 r w',
    @NewBenchmarker exampleRuntime cfg false w = Some (Ok b, w0)
    ∧ Run b w0 = Some (r, w')
    ∧ paced (config.RemoteWriteURL cfg) (2 * config.SamplesPerSecond cfg)
        w w'.
Proof.
  intros cfg value w.
  apply (@validated_live_run_is_paced exampleRuntime cfg w).
  - reflexivity.
  - unfold max_int64. simpl. lia.
  - unfold max_int64. simpl. lia.
  - repeat constructor.
Defined.

(** X12.  What a run asks the query API.  The metrics queried during
    [Run] form, in order, a sub-sequence of the discovered metrics that
    [filterMetrics] keeps: an excluded metric is never queried, and
    nothing is queried when the discovery fails.  When every request can
    be built they are an initial part of the kept metrics, and all of
    them when the run returns no error: a failing metric does not stop
    the run, only a cancellation does. *)
Theorem Run_queries_kept_metrics `{GoRuntime}
    (b : Benchmarker) (w : World) (r : option error) (w' : World) :
  Run b w = Some (r, w') →
  let filtered := filterMetrics b (discovered (nameOutcome w)) in
  ∃ asked,
    queried w' = queried w ++ asked
    ∧ sublist asked filtered
    ∧ (Forall (λ o, requestCreated o = true) (rangeResponses w) →
       asked `prefix_of` filtered ∧ (r = None → asked = filtered)).
Proof. apply Run_queried. Qed.

Lemma Run_queries_kept_metrics_witness :
  let b := @mkBenchmarker exampleRuntime (labelConfig [] 2) true ["go_"] None in
  let w := set_nameResponses
             [GetDecoded "success" "" ["go_threads"; "up"; "down"]]
             (set_rangeResponses [GetTransportError (errorString "timeout")]
                quietWorld) in
  ∃ r w', Run b w = Some (r, w') ∧ queried w' = ["up"; "down"].
Proof.
  intros b w.
  destruct (Run b w) as [[r w']|] eqn:Hrun; [|vm_compute in Hrun; discriminate].
  destruct (@Run_queries_kept_metrics exampleRuntime b w r w' Hrun)
    as (asked & Hq & _ & Hall).
  destruct Hall as [_ Hall]; [by repeat constructor|].
  assert (Hr : r = None) by (vm_compute in Hrun; by injection Hrun as <- _).
  exists r, w'. split; [reflexivity|]. rewrite Hq, (Hall Hr). reflexivity.
Defined.

(** ** Logger: the level at run time *)

Lemma ParseLogLevel_range (ToUpper : string → string) (name : string) :
  0 <= ParseLogLevel ToUpper name <= 5.
Proof. unfold ParseLogLevel. repeat case_decide; lia. Qed.

Lemma logAt_fatal (message : string) (fields : list (string * logger.field))
    (s : LogState) (l : Logger) :
  globalLogger s = Some l → exited s = false →
  logAt 5 message fields s
  = if decide (5 < level l) then s
    else {| globalLogger := Some l;
            written := written s ++ [mkLine "FATAL" message (component l)
                                       fields];
            exited := true |}.
Proof.
  intros Hl Hex. unfold logAt. rewrite Hl. unfold log. rewrite Hex.
  destruct (decide (5 < level l)); [done|]. by rewrite Hl.
Qed.

(** X13.  The level of the global logger at run time.  Before [Init],
    [SetLevel] does nothing and [GetLevel] answers [INFO].  After [Init],
    [GetLevel] answers what [SetLevel] has set, and the calls that follow
    are filtered by the new level under the old component.  A level above
    [FATAL] silences even [Fatal], which then neither writes nor ends the
    process; a level that comes from [ParseLogLevel] is never above
    [FATAL], so that [Fatal] after [Init(ParseLogLevel(name), ...)] always
    writes its line and ends the process. *)
Theorem SetLevel_takes_effect
    (ToUpper : string → string) (lvl : Z) (name comp message : string)
    (fields : list (string * logger.field))
    (calls : list logger.LogEntry) (s : LogState) :
  exited s = false →
  Forall (λ e, logger.Level e ≠ logger.FATAL) calls →
  (globalLogger s = None → SetLevel lvl s = s ∧ GetLevel s = 2)
  ∧ (∀ l, globalLogger s = Some l →
       let l' := {| level := lvl; component := component l |} in
       GetLevel (SetLevel lvl s) = lvl
       ∧ replay calls (SetLevel lvl s)
         = {| globalLogger := Some l';
              written := written s
                         ++ (entryLine (component l)
                               <$> filter (passes l') calls);
              exited := false |}
       ∧ (5 < lvl →
          logAt 5 message fields (SetLevel lvl s) = SetLevel lvl s))
  ∧ logAt 5 message fields (Init (ParseLogLevel ToUpper name) comp s)
    = {| globalLogger := Some {| level := ParseLogLevel ToUpper name;
                                 component := comp |};
         written := written s ++ [mkLine "FATAL" message comp fields];
         exited := true |}.
Proof.
  intros Hex Hcalls. split; [|split].
  - intros Hnil. unfold SetLevel, GetLevel. by rewrite Hnil.
  - intros l Hl l'. unfold SetLevel, GetLevel. rewrite Hl. cbn [globalLogger].
    split; [done|]. split.
    + by rewrite (replay_no_fatal calls _ l').
    + intros Hlvl. erewrite logAt_fatal; [|reflexivity|done].
      cbn [level]. by rewrite decide_True by done.
  - pose proof (ParseLogLevel_range ToUpper name) as Hrange.
    erewrite logAt_fatal; [|reflexivity|done].
    cbn [level component]. by rewrite decide_False by lia.
Qed.

Lemma SetLevel_takes_effect_witness :
  let s := Init 2 "promfire" (mkLogState None [] false) in
  let debug := logger.mkLogEntry logger.DEBUG "Processing metric" [] in
  let warn := logger.mkLogEntry logger.WARN "Invalid exclude pattern" [] in
  GetLevel (SetLevel 3 s) = 3
  ∧ written (replay [debug; warn] (SetLevel 3 s)) = [entryLine "promfire" warn]
  ∧ exited (logAt 5 "Invalid configuration" []
              (Init (ParseLogLevel asciiUpper "verbose") "promfire"
                 (mkLogState None [] false))) = true.
Proof.
  intros s debug warn.
  destruct (SetLevel_takes_effect asciiUpper 3 "verbose" "promfire"
              "Invalid configuration" [] [debug; warn] s)
    as (_ & Hset & _); [reflexivity|by repeat constructor|].
  destruct (SetLevel_takes_effect asciiUpper 3 "verbose" "promfire"
              "Invalid configuration" [] [] (mkLogState None [] false))
    as (_ & _ & Hfatal); [reflexivity|by constructor|].
  destruct (Hset _ eq_refl) as (Hget & Hreplay & _).
  split; [exact Hget|]. split.
  - rewrite Hreplay. reflexivity.
  - rewrite Hfatal. reflexivity.
Defined.

(** ** The writer with a batch size below one *)

Section BatchSizeEdge.
Implicit Types (rw : RemoteWriter) (w : World)
  (timeSeries : list prompb.TimeSeries).

Lemma sendInBatchesFrom_negative rw timeSeries (fuel : nat) w :
  timeSeries ≠ [] → min_int64 <= batchSize rw < 0 →
  sendInBatchesFrom fuel rw timeSeries 0 w = None.
Proof.
  intros Hne Hbs.
  assert (Hlen : 0 < len timeSeries).
  { destruct timeSeries; [done|]. rewrite len_cons.
    pose proof (len_nonneg timeSeries). lia. }
  destruct fuel as [|fuel]; cbn [sendInBatchesFrom];
    rewrite decide_True by done; [done|].
  assert (Hadd : int_add 0 (batchSize rw) = batchSize rw).
  { apply wrap64_id. unfold in_int64, min_int64, max_int64 in *. lia. }
  rewrite Hadd, decide_False by lia.
  unfold slice. by rewrite decide_False by lia.
Qed.

Lemma sendInBatchesFrom_zero rw timeSeries :
  timeSeries ≠ [] → batchSize rw = 0 →
  ∀ (fuel : nat) w r w',
    sendInBatchesFrom fuel rw timeSeries 0 w = Some (r, w') →
    (∃ e, r = Some e)
    ∧ ∃ n : nat, posted w' = posted w ++ replicate n (endpoint rw, []).
Proof.
  intros Hne Hbs.
  assert (Hlen : 0 < len timeSeries).
  { destruct timeSeries; [done|]. rewrite len_cons.
    pose proof (len_nonneg timeSeries). lia. }
  induction fuel as [|fuel IH]; intros w r w'; cbn [sendInBatchesFrom];
    rewrite decide_True by done; [done|].
  rewrite Hbs. change (int_add 0 0) with 0. rewrite decide_False by lia.
  unfold slice. rewrite decide_True by lia.
  change (take (Z.to_nat (0 - 0)) (drop (Z.to_nat 0) timeSeries))
    with (@nil prompb.TimeSeries).
  unfold bind at 1. rewrite sendBatch_spec.
  destruct (batchError (postOutcome w 0)) as [e|] eqn:He.
  - intros [= <- <-]. split; [by eexists|].
    destruct (reachesWire (postOutcome w 0)).
    + by exists 1%nat.
    + exists 0%nat. simpl. by rewrite app_nil_r.
  - assert (Hwire : reachesWire (postOutcome w 0) = true).
    { destruct (postOutcome w 0); try done. }
    rewrite Hwire. unfold bind. cbn [logCall]. intros Hrun.
    apply IH in Hrun as [Hr [n Hn]]. split; [exact Hr|].
    exists (S n). rewrite Hn. simpl. by rewrite <- app_assoc.
Qed.

End BatchSizeEdge.

(** X14.  [sendInBatches] needs a batch size of at least one, which only
    [Validate] guards.  On a non-empty list of series, a negative batch
    size makes the first slice expression panic before anything is sent;
    with a batch size of zero the loop never advances: it posts empty
    requests, one after the other, and can only end with the error of a
    request that failed -- however long it is allowed to run, it never
    returns success and never sends a series. *)
Theorem sendInBatches_needs_positive_batch_size
    (rw : RemoteWriter) (timeSeries : list prompb.TimeSeries)
    (fuel : nat) (w : World) :
  timeSeries ≠ [] →
  min_int64 <= batchSize rw <= 0 →
  (batchSize rw < 0 → sendInBatchesFrom fuel rw timeSeries 0 w = None)
  ∧ ∀ r w',
      sendInBatchesFrom fuel rw timeSeries 0 w = Some (r, w') →
      batchSize rw = 0
      ∧ (∃ e, r = Some e)
      ∧ ∃ n : nat, posted w' = posted w ++ replicate n (endpoint rw, []).
Proof.
  intros Hne Hbs. split.
  - intros Hneg. apply sendInBatchesFrom_negative; [done|lia].
  - intros r w' Hrun.
    destruct (decide (batchSize rw < 0)) as [Hneg|Hzero].
    + rewrite sendInBatchesFrom_negative in Hrun; [done|done|lia].
    + assert (H0 : batchSize rw = 0) by lia. split; [done|].
      by eapply sendInBatchesFrom_zero.
Qed.

Lemma sendInBatches_needs_positive_batch_size_witness :
  let rw := {| endpoint := "http://localhost:9090/api/v1/write";
               batchSize := 0 |} in
  let series := {| prompb.Labels := []; prompb.Samples := [] |} in
  let w := set_postResponses [PostStatus 200; PostStatus 500] quietWorld in
  ∃ r w',
    sendInBatchesFrom 5 rw [series] 0 w = Some (r, w')
    ∧ is_Some r
    ∧ posted w' = [(endpoint rw, []); (endpoint rw, [])].
Proof.
  intros rw series w.
  destruct (sendInBatchesFrom 5 rw [series] 0 w) as [[r w']|] eqn:Hrun;
    [|vm_compute in Hrun; discriminate].
  destruct (sendInBatches_needs_positive_batch_size rw [series] 5 w)
    as [_ Hzero]; [discriminate|unfold min_int64; simpl; lia|].
  destruct (Hzero r w' Hrun) as (_ & [e He] & _).
  exists r, w'. split; [reflexivity|]. split; [by exists e|].
  vm_compute in Hrun. by injection Hrun as _ <-.
Defined.

(** ** The order of the timestamps of a run *)

Section Ordering.
Context `{GoRuntime}.
Implicit Types (b : Benchmarker) (w : World) (rw : RemoteWriter)
  (lim : Limiter).

Lemma stampsOf_app requests1 requests2 :
  stampsOf (requests1 ++ requests2)
  = stampsOf requests1 ++ stampsOf requests2.
Proof. apply bind_app. Qed.

Lemma tokensIn_nonneg (tokens : list Z) :
  Forall (λ n, 0 <= n) tokens → 0 <= tokensIn tokens.
Proof.
  unfold tokensIn. induction 1 as [|n rest Hn _ IH]; simpl; lia.
Qed.

Lemma last_cases {A} (l : list A) (d : A) :
  List.last l d = d ∨ List.last l d ∈ l.
Proof.
  revert d. induction l as [|x l IH]; intros d; [by left|].
  right. rewrite last_cons. destruct (IH x) as [->|Hin]; [by left|by right].
Qed.

Lemma sorted_below_last (l : list Z) :
  StronglySorted Z.lt l → ∀ d, Forall (λ t, t <= List.last l d) l.
Proof.
  induction 1 as [|a l Hl IH Ha]; intros d; [done|].
  rewrite last_cons. constructor; [|apply IH].
  destruct (last_cases l a) as [->|Hin]; [lia|].
  apply (proj1 (Forall_forall _ _) Ha) in Hin. lia.
Qed.

Lemma clock_afterTimestamps (n : nat) : ∀ w,
  clock (afterTimestamps n w) = drop n (clock w).
Proof.
  induction n as [|n IH]; intros w; [done|].
  cbn [afterTimestamps]. rewrite IH. simpl. apply drop_tail.
Qed.

(** [k] timestamps in a row. *)
Lemma conversion_inOrder (limit : Z) (k : nat) w :
  coordinated limit w →
  Z.max limit (lastTimestamp (coordinator w)) + Z.of_nat k <= max_int64 →
  let stamps := NextTimestamps (clockReadings k w) (coordinator w) in
  let w1 := afterTimestamps k w in
  coordinated limit w1
  ∧ lastTimestamp (coordinator w) <= lastTimestamp (coordinator w1)
  ∧ lastTimestamp (coordinator w1)
    <= Z.max limit (lastTimestamp (coordinator w)) + Z.of_nat k
  ∧ StronglySorted Z.lt stamps
  ∧ Forall (λ t, lastTimestamp (coordinator w) < t
                 ∧ t <= lastTimestamp (coordinator w1)) stamps.
Proof.
  intros (Hinc & Hlo & Hlimit & Hclock) Hfit stamps w1.
  set (last0 := lastTimestamp (coordinator w)) in *.
  assert (Hlen : length (clockReadings k w) = k).
  { unfold clockReadings. rewrite length_take, length_app, length_replicate.
    lia. }
  assert (Hreadings : Forall (λ t, t <= limit) (clockReadings k w)).
  { unfold clockReadings. apply Forall_take, Forall_app. split; [done|].
    by apply Forall_replicate. }
  destruct (NextTimestamps_spec (clockReadings k w) (coordinator w) Hinc Hlo)
    as (Hslen & Hsorted & _).
  { unfold len. rewrite Hlen. constructor; [fold last0; lia|].
    eapply Forall_impl; [exact Hreadings|]. simpl. intros t Ht. lia. }
  fold stamps last0 in Hslen, Hsorted.
  apply StronglySorted_inv in Hsorted as [Hsorted Habove].
  destruct (afterTimestamps_coordinator k w) as [Hinc1 Hlast1].
  fold stamps w1 last0 in Hinc1, Hlast1.
  pose proof (sorted_below_last stamps Hsorted last0) as Hbelow.
  rewrite <- Hlast1 in Hbelow.
  assert (Hbounds : Forall (λ t, t <= Z.max limit last0 + Z.of_nat k) stamps).
  { apply Forall_lookup. intros idx t Hidx.
    pose proof (lookup_lt_Some _ _ _ Hidx) as Hlt. rewrite Hslen, Hlen in Hlt.
    destruct (NextTimestamps_bounds (clockReadings k w) (coordinator w)
                (Z.max limit last0) Hinc Hlo) with (k := idx) (t := t)
      as [_ Hle]; [| |exact Hidx|lia].
    - constructor; [fold last0; lia|].
      eapply Forall_impl; [exact Hreadings|]. simpl. intros; lia.
    - unfold len. rewrite Hlen. lia. }
  assert (Hfinal : lastTimestamp (coordinator w1) = last0
                   ∨ lastTimestamp (coordinator w1) ∈ stamps).
  { rewrite Hlast1. apply last_cases. }
  assert (Hge : last0 <= lastTimestamp (coordinator w1)).
  { destruct Hfinal as [->|Hin]; [lia|].
    apply (proj1 (Forall_forall _ _) Habove) in Hin. lia. }
  assert (Hle : lastTimestamp (coordinator w1)
                <= Z.max limit last0 + Z.of_nat k).
  { destruct Hfinal as [->|Hin]; [lia|].
    by apply (proj1 (Forall_forall _ _) Hbounds) in Hin. }
  split.
  { split; [by rewrite Hinc1|]. split; [lia|]. split; [done|].
    unfold w1. rewrite clock_afterTimestamps.
    by apply Forall_drop. }
  split; [done|]. split; [done|]. split; [done|].
  apply Forall_forall. intros t Ht. split.
  - by apply (proj1 (Forall_forall _ _) Habove) in Ht.
  - by apply (proj1 (Forall_forall _ _) Hbelow) in Ht.
Qed.

Lemma inOrder_refl limit w : inOrder limit w w.
Proof.
  exists [], []. rewrite !app_nil_r. split; [done|]. split; [done|].
  split; [done|]. intros Hc Hfit. unfold tokensIn. simpl.
  split; [done|]. split; [lia|]. split; [lia|].
  split; constructor.
Qed.

Lemma inOrder_quiet limit w w' :
  acquired w' = acquired w → posted w' = posted w →
  coordinator w' = coordinator w → clock w' `suffix_of` clock w →
  inOrder limit w w'.
Proof.
  intros Ha Hp Hco Hcl. exists [], []. rewrite !app_nil_r.
  split; [done|]. split; [done|]. split; [done|].
  intros (Hinc & Hlo & Hlimit & Hclock) Hfit. unfold tokensIn, coordinated.
  simpl. rewrite Hco. split.
  { split; [done|]. split; [done|]. split; [done|].
    destruct Hcl as [k Hk]. rewrite Hk in Hclock.
    by apply Forall_app in Hclock as [_ ?]. }
  split; [lia|]. split; [lia|]. split; constructor.
Qed.

Lemma inOrder_trans limit w1 w2 w3 :
  inOrder limit w1 w2 → inOrder limit w2 w3 → inOrder limit w1 w3.
Proof.
  intros (t1 & r1 & Ha1 & Hp1 & Ht1 & H1) (t2 & r2 & Ha2 & Hp2 & Ht2 & H2).
  exists (t1 ++ t2), (r1 ++ r2).
  rewrite Ha2, Ha1, Hp2, Hp1, !app_assoc.
  split; [done|]. split; [done|]. split; [by apply Forall_app|].
  rewrite tokensIn_app, stampsOf_app. intros Hc Hfit.
  pose proof (tokensIn_nonneg t1 Ht1). pose proof (tokensIn_nonneg t2 Ht2).
  destruct (H1 Hc) as (Hc2 & Hge1 & Hle1 & Hs1 & Hb1); [lia|].
  destruct (H2 Hc2) as (Hc3 & Hge2 & Hle2 & Hs2 & Hb2); [lia|].
  split; [done|]. split; [lia|]. split; [lia|]. split.
  - apply StronglySorted_app_2; [|done|done]. intros x1 x2 Hx1 Hx2.
    apply (proj1 (Forall_forall _ _) Hb1) in Hx1.
    apply (proj1 (Forall_forall _ _) Hb2) in Hx2. lia.
  - apply Forall_app. split.
    + eapply Forall_impl; [exact Hb1|]. simpl. intros; lia.
    + eapply Forall_impl; [exact Hb2|]. simpl. intros; lia.
Qed.

Lemma inOrder_refused limit lim (n : Z) w e w1 :
  0 <= n →
  WaitN lim n w = Some (Some e, w1) →
  inOrder limit w w1.
Proof.
  intros Hn Hwait.
  destruct (WaitN_spec lim n w) as (r & w' & Hrun & Hacq & _).
  rewrite Hwait in Hrun. injection Hrun as <- <-.
  pose proof (frame_WaitN posted ltac:(done) ltac:(done) _ _ _ _ _ Hwait)
    as Hposted.
  pose proof (frame_WaitN coordinator ltac:(done) ltac:(done) _ _ _ _ _ Hwait)
    as Hco.
  pose proof (frame_WaitN clock ltac:(done) ltac:(done) _ _ _ _ _ Hwait)
    as Hcl.
  exists [n], []. rewrite app_nil_r. split; [done|]. split; [done|].
  split; [by constructor|].
  intros (Hinc & Hlo & Hlimit & Hclock) Hfit. unfold tokensIn, coordinated.
  simpl. rewrite Hco, Hcl.
  split; [done|]. split; [lia|]. split; [lia|]. split; constructor.
Qed.

(** What one call of [WriteSamples] does to the coordinator and the
    clock: one timestamp, and one reading, for each accepted value. *)
Lemma WriteSamples_clockwork rw (labels : gmap string string)
    (values : list (list any)) w r w' :
  WriteSamples rw labels values w = Some (r, w') →
  let w1 := afterTimestamps (length (omap acceptedValue values)) w in
  coordinator w' = coordinator w1 ∧ clock w' = clock w1.
Proof.
  intros Hrun w1. unfold WriteSamples, convertToTimeSeries in Hrun.
  assert (Hsend : ∀ (timeSeries : prompb.TimeSeries) (w2 : World) r2 w3,
            sendInBatches rw [timeSeries] w2 = Some (r2, w3) →
            coordinator w3 = coordinator w2 ∧ clock w3 = clock w2).
  { intros timeSeries w2 r2 w3 Hs. unfold sendInBatches in Hs. split.
    - by eapply (frame_sendInBatchesFrom coordinator), Hs.
    - by eapply (frame_sendInBatchesFrom clock), Hs. }
  destruct values as [|value rest].
  { rewrite decide_True in Hrun by done. by injection Hrun as _ <-. }
  rewrite decide_False in Hrun
    by (rewrite len_cons; pose proof (len_nonneg rest); lia).
  destruct (convertSamples_spec (value :: rest) [] w)
    as (stamped & Hc & _ & _).
  unfold bind at 1 2 in Hrun. rewrite Hc in Hrun. fold w1 in Hrun.
  cbn [app] in Hrun. case_decide.
  - by injection Hrun as _ <-.
  - unfold bind, ret in Hrun. by apply Hsend in Hrun.
Qed.

Section Chunk.
Variables (b : Benchmarker) (limit : Z).
Hypothesis b_ready : writerReady b.

Lemma inOrder_chunk lim (labels : gmap string string)
    (chunk : list (list any)) entry w w1 r w3 :
  WaitN lim (len chunk) w = Some (None, w1) →
  match remoteWriter b with
  | Some rw => WriteSamples rw labels chunk
  | None => ret None
  end (set_logs (logs w1 ++ [entry]) w1) = Some (r, w3) →
  inOrder limit w w3.
Proof.
  intros Hwait Hwrite.
  destruct (WaitN_spec lim (len chunk) w) as (r0 & w0 & Hrun & Hacq & _).
  rewrite Hwait in Hrun. injection Hrun as <- <-.
  pose proof (frame_WaitN posted ltac:(done) ltac:(done) _ _ _ _ _ Hwait)
    as Hposted.
  pose proof (frame_WaitN coordinator ltac:(done) ltac:(done) _ _ _ _ _ Hwait)
    as Hco.
  pose proof (frame_WaitN clock ltac:(done) ltac:(done) _ _ _ _ _ Hwait)
    as Hcl.
  pose proof (len_nonneg chunk) as Hn.
  set (w2 := set_logs (logs w1 ++ [entry]) w1) in *.
  unfold writerReady in b_ready.
  destruct (remoteWriter b) as [rw|].
  2:{ injection Hwrite as _ <-.
      exists [len chunk], []. rewrite app_nil_r.
      split; [done|]. split; [done|]. split; [by constructor|].
      intros (Hinc & Hlo & Hlimit & Hclock) Hfit.
      unfold tokensIn, coordinated in *. simpl in *. rewrite Hco, Hcl.
      split; [done|]. split; [lia|]. split; [lia|]. split; constructor. }
  set (k := length (omap acceptedValue chunk)).
  assert (Hk : (k <= length chunk)%nat) by apply length_omap_le.
  destruct (WriteSamples_clockwork rw labels chunk w2 r w3 Hwrite)
    as [Hco3 Hcl3]. fold k in Hco3, Hcl3.
  assert (Hacq3 : acquired w3 = acquired w2).
  { by eapply (frame_WriteSamples acquired), Hwrite. }
  destruct (WriteSamples_spec rw labels chunk w2 b_ready)
    as (r1 & w4 & Hrun & Hnone & Hsome).
  rewrite Hwrite in Hrun. injection Hrun as <- <-.
  assert (Hreq : ∃ requests,
            posted w3 = posted w2 ++ requests
            ∧ (stampsOf requests = []
               ∨ stampsOf requests
                 = NextTimestamps (clockReadings k w2) (coordinator w2))).
  { destruct (omap acceptedValue chunk) as [|x floats] eqn:Hfloats.
    - destruct Hnone as (_ & Hp & _); [done|].
      exists []. rewrite app_nil_r. split; [done|by left].
    - destruct Hsome as (timeSeries & _ & _ & Ht & _ & Hp & _); [done|].
      destruct (reachesWire (postOutcome w2 0)).
      + exists [(endpoint rw, [timeSeries])]. split; [done|]. right.
        unfold stampsOf. simpl. by rewrite !app_nil_r.
      + exists []. split; [done|by left]. }
  destruct Hreq as (requests & Hposted3 & Hstamps).
  exists [len chunk], requests.
  rewrite Hacq3, Hposted3. cbn [acquired posted w2 set_logs].
  rewrite Hacq, Hposted. split; [done|]. split; [done|].
  split; [by constructor|].
  intros Hcoord Hfit. unfold tokensIn in Hfit. simpl in Hfit.
  assert (Hcoord2 : coordinated limit w2).
  { unfold coordinated in *. cbn [coordinator clock w2 set_logs].
    by rewrite Hco, Hcl. }
  destruct (conversion_inOrder limit k w2 Hcoord2)
    as (Hc3 & Hge & Hle & Hsorted & Hbounds).
  { cbn [coordinator w2 set_logs]. rewrite Hco. unfold len in Hfit. lia. }
  cbn [coordinator w2 set_logs] in Hge, Hle, Hbounds.
  rewrite Hco in Hge, Hle, Hbounds. rewrite <- Hco3 in Hge, Hle, Hbounds.
  split.
  { unfold coordinated in *. rewrite Hco3, Hcl3. exact Hc3. }
  split; [done|]. split; [unfold tokensIn, len in *; simpl; lia|].
  change (coordinator w2) with (coordinator w1) in Hstamps, Hsorted.
  rewrite Hco in Hstamps, Hsorted.
  destruct Hstamps as [Hs|Hs]; rewrite Hs.
  - split; [apply SSorted_nil|apply Forall_nil_2].
  - split; [exact Hsorted|exact Hbounds].
Qed.

End Chunk.

Lemma Run_inOrder b (limit : Z) w :
  writerReady b →
  1 <= config.ReplicationFactor (config b) →
  1 <= config.SamplesPerSecond (config b) →
  2 * config.SamplesPerSecond (config b) <= max_int64 →
  boundedWorld w →
  ∃ r w', Run b w = Some (r, w') ∧ inOrder limit w w'.
Proof.
  intros Hready Hrf Hsps Hfit Hw.
  apply (Run_steps b (2 * config.SamplesPerSecond (config b))
           (λ series, len (Values series) < 2 ^ 62) (λ _, True)
           (inOrder limit) Hready); try done.
  - apply inOrder_refl.
  - apply inOrder_trans.
  - apply inOrder_quiet.
  - intros lim n w0 e w1 Hn. apply inOrder_refused. lia.
  - intros lim labels chunk entry w0 w1 r w3 _ _. by apply inOrder_chunk.
Qed.

Lemma validated_run_inOrder (cfg : config.Config) (limit : Z) w :
  config.Validate cfg = None →
  2 * config.SamplesPerSecond cfg <= max_int64 →
  config.BatchSize cfg <= max_int64 →
  boundedWorld w →
  Forall (λ t, 0 <= t <= limit) (clock w) → 0 <= limit →
  ∃ b w0 r w' tokens requests,
    NewBenchmarker cfg false w = Some (Ok b, w0)
    ∧ Run b w0 = Some (r, w')
    ∧ acquired w' = acquired w ++ tokens
    ∧ posted w' = posted w ++ requests
    ∧ (limit + tokensIn tokens <= max_int64 →
       StronglySorted Z.lt (stampsOf requests)
       ∧ Forall (λ t, hd 0 (clock w) < t) (stampsOf requests)).
Proof.
  intros Hvalid Hfit Hbatch Hw Hclock Hlimit.
  unfold config.Validate in Hvalid. repeat case_decide; try done.
  destruct (NewBenchmarker_live cfg w)
    as (b & w0 & Hnew & Hcfg & Hrw & Hranges & Hacq & Hposted & Hco & Hcl).
  destruct (Run_inOrder b limit w0)
    as (r & w' & Hrun & tokens & requests & Ha & Hp & Ht & Hin).
  - unfold writerReady. rewrite Hrw. simpl. lia.
  - rewrite Hcfg. lia.
  - rewrite Hcfg. lia.
  - by rewrite Hcfg.
  - unfold boundedWorld, answersSatisfy. by rewrite Hranges.
  - exists b, w0, r, w', tokens, requests.
    split; [done|]. split; [done|]. rewrite <- Hacq, <- Hposted.
    split; [done|]. split; [done|]. intros Hroom.
    assert (Hnow : 0 <= hd 0 (clock w) <= limit).
    { destruct (clock w) as [|now rest]; [simpl; lia|].
      by apply Forall_cons in Hclock as [? _]. }
    destruct Hin as (_ & _ & _ & Hsorted & Hbounds).
    + unfold coordinated. rewrite Hco, Hcl. simpl.
      split; [done|]. split; [unfold min_int64; lia|]. split; [done|].
      destruct (clock w) as [|now rest]; [done|]. simpl.
      apply Forall_cons in Hclock as [_ Hrest].
      eapply Forall_impl; [exact Hrest|]. simpl. intros; lia.
    + rewrite Hco. simpl. lia.
    + split; [done|]. rewrite Hco in Hbounds. simpl in Hbounds.
      eapply Forall_impl; [exact Hbounds|]. simpl. intros; lia.
Qed.

End Ordering.

(** X15.  The timestamps of a live run.  On a configuration that
    [Validate] accepts, all samples that the run posts carry strictly
    increasing timestamps -- within a request and from each request to
    the next, across chunks, label sets, series and metrics -- and all of
    them lie above the clock reading at which the writer was created.
    This holds as long as the coordinator cannot reach the end of
    [int64]: the clock shows between [0] and [limit], and [limit] plus
    the number of tokens the run asked of the limiter fits an [int64]. *)
Theorem live_run_posts_increasing_timestamps `{GoRuntime}
    (cfg : config.Config) (limit : Z) (w : World) :
  config.Validate cfg = None →
  2 * config.SamplesPerSecond cfg <= max_int64 →
  config.BatchSize cfg <= max_int64 →
  boundedWorld w →
  Forall (λ t, 0 <= t <= limit) (clock w) → 0 <= limit →
  ∃ b w0 r w' tokens requests,
    NewBenchmarker cfg false w = Some (Ok b, w0)
    ∧ Run b w0 = Some (r, w')
    ∧ acquired w' = acquired w ++ tokens
    ∧ posted w' = posted w ++ requests
    ∧ (limit + tokensIn tokens <= max_int64 →
       StronglySorted Z.lt (stampsOf requests)
       ∧ Forall (λ t, hd 0 (clock w) < t) (stampsOf requests)).
Proof. apply validated_run_inOrder. Qed.

Lemma live_run_posts_increasing_timestamps_witness :
  let cfg := setDefaults (labelConfig [] 0) in
  let value := [anyFloat (S754_zero false); anyString "3.14"] in
  let w := set_clock [1000; 1000; 1000; 1000; 1000; 1000]
             (set_nameResponses [GetDecoded "success" "" ["up"]]
                (set_rangeResponses
                   [GetDecoded "success" "" [mkSeries ∅ [value; value]]]
                   quietWorld)) in
  ∃ b w0 w',
    @NewBenchmarker exampleRuntime cfg false w = Some (Ok b, w0)
    ∧ Run b w0 = Some (None, w')
    ∧ stampsOf (posted w') = [1001; 1002; 1003; 1004]
    ∧ StronglySorted Z.lt (stampsOf (posted w')).
Proof.
  intros cfg value w.
  destruct (@live_run_posts_increasing_timestamps exampleRuntime cfg 1000 w)
    as (b & w0 & r & w' & tokens & requests & Hnew & Hrun & Hacq & Hp & Hord).
  - reflexivity.
  - unfold max_int64. simpl. lia.
  - unfold max_int64. simpl. lia.
  - repeat constructor.
  - repeat constructor; lia.
  - lia.
  - pose proof Hnew as Hnew'. vm_compute in Hnew'. injection Hnew' as <- <-.
    pose proof Hrun as Hrun'. vm_compute in Hrun'. injection Hrun' as <- <-.
    simpl in Hacq, Hp. subst tokens requests.
    eexists _, _, _. split; [exact Hnew|]. split; [exact Hrun|].
    split; [reflexivity|]. apply Hord. unfold max_int64. vm_compute.
    discriminate.
Defined.

(** ** The labels of a run *)

Section Labels.
Context `{GoRuntime}.
Implicit Types (b : Benchmarker) (w : World) (rw : RemoteWriter)
  (lim : Limiter) (labels : gmap string string).

(** The label pairs of a series are the entries of its label map, each
    name once. *)
Lemma labelPairs_spec labels :
  NoDup (prompb.Name <$> labelPairs labels)
  ∧ ∀ name value,
      prompb.mkLabel name value ∈ labelPairs labels
      ↔ labels !! name = Some value.
Proof.
  unfold labelPairs. split.
  - rewrite <- list_fmap_compose.
    erewrite list_fmap_ext; [apply NoDup_fst_map_to_list|].
    by intros i [k v] _.
  - intros name value. rewrite list_elem_of_fmap. split.
    + intros ([k v] & [= -> ->] & Hin). by apply elem_of_map_to_list.
    + intros Hl. exists (name, value). split; [done|].
      by apply elem_of_map_to_list.
Qed.

Section Relation.
Variables (b : Benchmarker) (L : gmap string string → Prop).
Hypothesis b_ready : writerReady b.

Lemma labelledBy_refl w : labelledBy L w w.
Proof. exists []. by rewrite app_nil_r. Qed.

Lemma labelledBy_frame w w' : posted w' = posted w → labelledBy L w w'.
Proof. intros Hp. exists []. by rewrite app_nil_r. Qed.

Lemma labelledBy_trans w1 w2 w3 :
  labelledBy L w1 w2 → labelledBy L w2 w3 → labelledBy L w1 w3.
Proof.
  intros (r1 & Hp1 & Hr1) (r2 & Hp2 & Hr2). exists (r1 ++ r2).
  rewrite Hp2, Hp1, app_assoc. split; [done|]. by apply Forall_app.
Qed.

Lemma labelledBy_chunk lim labels (chunk : list (list any)) entry w w1 r w3 :
  L labels →
  WaitN lim (len chunk) w = Some (None, w1) →
  match remoteWriter b with
  | Some rw => WriteSamples rw labels chunk
  | None => ret None
  end (set_logs (logs w1 ++ [entry]) w1) = Some (r, w3) →
  labelledBy L w w3.
Proof.
  intros Hlabels Hwait Hwrite.
  pose proof (frame_WaitN posted ltac:(done) ltac:(done) _ _ _ _ _ Hwait)
    as Hposted.
  set (w2 := set_logs (logs w1 ++ [entry]) w1) in *.
  unfold writerReady in b_ready.
  destruct (remoteWriter b) as [rw|].
  2:{ injection Hwrite as _ <-. by apply labelledBy_frame. }
  destruct (WriteSamples_spec rw labels chunk w2 b_ready)
    as (r1 & w4 & Hrun & Hnone & Hsome).
  rewrite Hwrite in Hrun. injection Hrun as <- <-.
  destruct (omap acceptedValue chunk) as [|x floats] eqn:Hfloats.
  - destruct Hnone as (_ & Hp & _); [done|].
    apply labelledBy_frame. by rewrite Hp.
  - destruct Hsome as (timeSeries & Hl & _ & _ & _ & Hp & _); [done|].
    destruct (reachesWire (postOutcome w2 0)).
    + exists [(endpoint rw, [timeSeries])]. rewrite Hp. cbn [posted w2 set_logs].
      rewrite Hposted. split; [done|]. constructor; [|done].
      by exists timeSeries, labels.
    + apply labelledBy_frame. rewrite Hp, app_nil_r. done.
Qed.

End Relation.

Lemma pendingSeries_answer w o status body data (series : Series) :
  o ∈ rangeResponses w → o = GetDecoded status body data →
  series ∈ data → series ∈ pendingSeries w.
Proof.
  intros Ho -> Hs. unfold pendingSeries. apply list_elem_of_bind.
  by eexists (GetDecoded status body data).
Qed.

Lemma validated_run_labels (cfg : config.Config) w :
  config.Validate cfg = None →
  2 * config.SamplesPerSecond cfg <= max_int64 →
  config.BatchSize cfg <= max_int64 →
  boundedWorld w →
  ∃ b w0 r w' combos requests,
    NewBenchmarker cfg false w = Some (Ok b, w0)
    ∧ Run b w0 = Some (r, w')
    ∧ combine (config.Replication cfg) (config.ReplicationFactor cfg)
      = Some combos
    ∧ posted w' = posted w ++ requests
    ∧ Forall (λ p, ∃ timeSeries labelSet series,
                p.2 = [timeSeries]
                ∧ labelSet ∈ combos ∧ series ∈ pendingSeries w
                ∧ NoDup (prompb.Name <$> prompb.Labels timeSeries)
                ∧ ∀ name value,
                    prompb.mkLabel name value ∈ prompb.Labels timeSeries
                    ↔ labelSet !! name = Some value
                      ∨ (labelSet !! name = None
                         ∧ Metric series !! name = Some value))
        requests.
Proof.
  intros Hvalid Hfit Hbatch Hw.
  unfold config.Validate in Hvalid. repeat case_decide; try done.
  destruct (NewBenchmarker_live cfg w)
    as (b & w0 & Hnew & Hcfg & Hrw & Hranges & Hacq & Hposted & _).
  destruct (combine_total (config.Replication cfg)
              (config.ReplicationFactor cfg)) as (combos & Hcombos & _); [lia|].
  set (P := λ series : Series,
              len (Values series) < 2 ^ 62 ∧ series ∈ pendingSeries w).
  set (L := λ labels : gmap string string,
              ∃ labelSet series,
                labelSet ∈ combos ∧ series ∈ pendingSeries w
                ∧ labels = labelSet ∪ Metric series).
  destruct (Run_steps b (2 * config.SamplesPerSecond cfg) P L
              (labelledBy L)) with (w := w0)
    as (r & w' & Hrun & requests & Hp & Hreq).
  - unfold writerReady. rewrite Hrw. simpl. lia.
  - by intros series [? _].
  - intros series combos' labelSet [_ Hs]. rewrite Hcfg, Hcombos.
    intros [= <-] Hin. by exists labelSet, series.
  - apply labelledBy_refl.
  - apply labelledBy_trans.
  - intros w1 w2 _ Hp _ _. by apply labelledBy_frame.
  - intros lim n w1 e w2 _ Hwait. apply labelledBy_frame.
    by eapply (frame_WaitN posted), Hwait.
  - intros lim labels chunk entry w1 w2 r w3 Hl _.
    apply labelledBy_chunk; [|done]. unfold writerReady. rewrite Hrw. simpl. lia.
  - rewrite Hcfg. lia.
  - rewrite Hcfg. lia.
  - by rewrite Hcfg.
  - by rewrite Hcfg.
  - unfold answersSatisfy. rewrite Hranges. apply Forall_forall.
    intros o Ho. unfold boundedWorld, answersSatisfy in Hw.
    pose proof (proj1 (Forall_forall _ _) Hw o Ho) as Hb.
    destruct o as [e|e|e|e|status body data]; try done. simpl in *.
    apply Forall_forall. intros series Hs. split.
    + by apply (proj1 (Forall_forall _ _) Hb).
    + by eapply pendingSeries_answer.
  - exists b, w0, r, w', combos, requests.
    split; [done|]. split; [done|]. split; [done|].
    rewrite <- Hposted. split; [done|].
    eapply Forall_impl; [exact Hreq|]. simpl.
    intros p (timeSeries & labels & Hp2 & (labelSet & series & Hc & Hs & ->)
              & Hlabels).
    exists timeSeries, labelSet, series.
    destruct (labelPairs_spec (labelSet ∪ Metric series)) as [Hnodup Hmem].
    rewrite Hlabels. split; [done|]. split; [done|]. split; [done|].
    split; [done|]. intros name value.
    by rewrite Hmem, lookup_union_Some_raw.
Qed.

End Labels.

(** X16.  The labels of a live run.  On a configuration that [Validate]
    accepts, every request that the run posts carries one series whose
    labels come from one label set of [generateLabelCombinations] laid
    over the labels of one series that a range query returned: each
    replication label with the value of the label set, each other label
    of the series as it was, nothing else, and no label name twice.  On a
    shared name the replication label wins. *)
Theorem live_run_posts_replicated_labels `{GoRuntime}
    (cfg : config.Config) (w : World) :
  config.Validate cfg = None →
  2 * config.SamplesPerSecond cfg <= max_int64 →
  config.BatchSize cfg <= max_int64 →
  boundedWorld w →
  ∃ b w0 r w' combos requests,
    NewBenchmarker cfg false w = Some (Ok b, w0)
    ∧ Run b w0 = Some (r, w')
    ∧ combine (config.Replication cfg) (config.ReplicationFactor cfg)
      = Some combos
    ∧ posted w' = posted w ++ requests
    ∧ Forall (λ p, ∃ timeSeries labelSet series,
                p.2 = [timeSeries]
                ∧ labelSet ∈ combos ∧ series ∈ pendingSeries w
                ∧ NoDup (prompb.Name <$> prompb.Labels timeSeries)
                ∧ ∀ name value,
                    prompb.mkLabel name value ∈ prompb.Labels timeSeries
                    ↔ labelSet !! name = Some value
                      ∨ (labelSet !! name = None
                         ∧ Metric series !! name = Some value))
        requests.
Proof. apply validated_run_labels. Qed.

Lemma live_run_posts_replicated_labels_witness :
  let cfg := setDefaults (labelConfig [] 0) in
  let value := [anyFloat (S754_zero false); anyString "3.14"] in
  let series := mkSeries {[ "job" := "api" ]} [value] in
  let w := set_nameResponses [GetDecoded "success" "" ["up"]]
             (set_rangeResponses [GetDecoded "success" "" [series]]
                quietWorld) in
  ∃ b w0 r w' requests,
    @NewBenchmarker exampleRuntime cfg false w = Some (Ok b, w0)
    ∧ Run b w0 = Some (r, w')
    ∧ posted w' = requests
    ∧ Forall (λ p, ∃ timeSeries replica,
                p.2 = [timeSeries]
                ∧ prompb.mkLabel "benchmark_replica" replica
                  ∈ prompb.Labels timeSeries
                ∧ prompb.mkLabel "job" "api" ∈ prompb.Labels timeSeries)
        requests.
Proof.
  intros cfg value series w.
  destruct (@live_run_posts_replicated_labels exampleRuntime cfg w)
    as (b & w0 & r & w' & combos & requests & Hnew & Hrun & Hc & Hp & Hreq).
  - reflexivity.
  - unfold max_int64. simpl. lia.
  - unfold max_int64. simpl. lia.
  - repeat constructor.
  - exists b, w0, r, w', requests.
    split; [exact Hnew|]. split; [exact Hrun|]. split; [exact Hp|].
    vm_compute in Hc. injection Hc as <-.
    eapply Forall_impl; [exact Hreq|]. simpl.
    intros p (timeSeries & labelSet & series' & Hp2 & Hin & Hs & _ & Hmem).
    assert (Hseries : series' = series).
    { unfold pendingSeries in Hs. simpl in Hs.
      by apply list_elem_of_singleton in Hs. }
    subst series'.
    assert (Hreplica : ∃ replica,
              labelSet = {[ "benchmark_replica" := replica ]}).
    { apply elem_of_cons in Hin as [->|Hin]; [by eexists|].
      apply list_elem_of_singleton in Hin as ->. by eexists. }
    destruct Hreplica as [replica ->].
    exists timeSeries, replica. split; [exact Hp2|]. split.
    + apply Hmem. left. apply lookup_singleton_eq.
    + apply Hmem. right. split; [reflexivity|reflexivity].
Defined.

(** ** Runs in which nothing fails *)

Section Complete.
Context `{GoRuntime}.
Implicit Types (b : Benchmarker) (w : World) (rw : RemoteWriter)
  (lim : Limiter) (labels : gmap string string).

Lemma benign_step w w' :
  ctxErrs w' `suffix_of` ctxErrs w →
  waitResults w' `suffix_of` waitResults w →
  postResponses w' `suffix_of` postResponses w →
  benign w → benign w'.
Proof.
  intros [k1 H1] [k2 H2] [k3 H3] (Hc & Hw & Hp).
  rewrite H1 in Hc. rewrite H2 in Hw. rewrite H3 in Hp.
  apply Forall_app in Hc as [_ Hc]. apply Forall_app in Hw as [_ Hw].
  apply Forall_app in Hp as [_ Hp]. by split.
Qed.

Lemma valuesOf_app requests1 requests2 :
  valuesOf (requests1 ++ requests2)
  = valuesOf requests1 ++ valuesOf requests2.
Proof. apply bind_app. Qed.

Lemma WaitN_benign lim (n : Z) w :
  n <= burst lim → benign w →
  ∃ w1,
    WaitN lim n w = Some (None, w1)
    ∧ benign w1 ∧ posted w1 = posted w.
Proof.
  intros Hn (Hc & Hw & Hp). unfold WaitN, bind, recordAcquire.
  rewrite decide_False by lia. unfold nextWaitResult. cbn [waitResults set_acquired].
  assert (Hhd : hd None (waitResults w) = None).
  { destruct (waitResults w); [done|]. by apply Forall_cons in Hw as [? _]. }
  rewrite Hhd. eexists. split; [reflexivity|]. split; [|done].
  apply (benign_step w); simpl; [done|apply suffix_tl|done|by split].
Qed.

Lemma WriteSamples_benign rw labels (chunk : list (list any)) w :
  1 <= batchSize rw <= max_int64 →
  benign w → omap acceptedValue chunk ≠ [] →
  ∃ w' timeSeries,
    WriteSamples rw labels chunk w = Some (None, w')
    ∧ benign w'
    ∧ posted w' = posted w ++ [(endpoint rw, [timeSeries])]
    ∧ prompb.SValue <$> prompb.Samples timeSeries = omap acceptedValue chunk.
Proof.
  intros Hbs Hbenign Hne.
  destruct (WriteSamples_spec rw labels chunk w Hbs)
    as (r & w' & Hrun & _ & Hsome).
  destruct (Hsome Hne) as (timeSeries & _ & Hv & _ & Hr & Hp & Hresp).
  assert (Hok : batchError (postOutcome w 0) = None).
  { destruct Hbenign as (_ & _ & Hposts). unfold postOutcome.
    destruct (postResponses w) as [|o rest]; [done|].
    by apply Forall_cons in Hposts as [? _]. }
  assert (Hwire : reachesWire (postOutcome w 0) = true).
  { destruct (postOutcome w 0); try done. }
  rewrite Hok in Hr. rewrite Hwire in Hp. simpl in Hr. subst r.
  exists w', timeSeries. split; [done|]. split; [|by split].
  apply (benign_step w); [| | |done].
  - by rewrite (ctxErrs_WriteSamples _ _ _ _ _ _ Hrun).
  - by rewrite (frame_WriteSamples waitResults ltac:(done) ltac:(done)
                  ltac:(done) ltac:(done) ltac:(done) _ _ _ _ _ _ Hrun).
  - rewrite Hresp. apply suffix_tl.
Qed.

Section Sending.
Variables (b : Benchmarker) (rw : RemoteWriter).
Hypothesis b_writer : remoteWriter b = Some rw.
Hypothesis b_live : dryRun b = false.
Hypothesis rw_ready : 1 <= batchSize rw <= max_int64.

Lemma sendSamplesFrom_complete labels (values : list (list any)) lim :
  1 <= Burst lim <= max_int64 → len values < 2 ^ 62 →
  ∀ (fuel : nat) (i : Z) w,
    0 <= i → (i = 0 ∨ Burst lim <= i) →
    (length (drop (Z.to_nat i) values) <= fuel)%nat →
    benign w →
    Forall (λ chunk, omap acceptedValue chunk ≠ [])
      (chunks (Burst lim) (drop (Z.to_nat i) values)) →
    ∃ w' requests,
      sendSamplesFrom fuel b labels values lim i w = Some (None, w')
      ∧ benign w'
      ∧ posted w' = posted w ++ requests
      ∧ valuesOf requests = omap acceptedValue (drop (Z.to_nat i) values).
Proof.
  intros Hburst Hlen.
  induction fuel as [|fuel IH]; intros i w Hi Hmul Hfuel Hbenign Hchunks.
  - assert (Hge : len values <= i).
    { rewrite length_drop in Hfuel. unfold len. lia. }
    exists w, []. simpl. rewrite decide_False by lia.
    rewrite drop_ge by (unfold len in *; lia). by rewrite app_nil_r.
  - destruct (decide (i < len values)) as [Hlt|Hge].
    2:{ exists w, []. cbn [sendSamplesFrom].
        rewrite decide_False by lia.
        rewrite drop_ge by (unfold len in *; lia). by rewrite app_nil_r. }
    cbn [sendSamplesFrom]. rewrite decide_True by done.
    assert (Hadd : int_add i (Burst lim) = i + Burst lim).
    { apply wrap64_id. unfold in_int64, min_int64, max_int64 in *. lia. }
    rewrite Hadd.
    destruct (slice_chunk values i (Burst lim)) as [Hslice Hend]; [lia..|].
    rewrite Hslice.
    destruct (drop (Z.to_nat i) values) as [|x rest] eqn:Hdrop.
    { apply (f_equal length) in Hdrop. rewrite length_drop in Hdrop.
      unfold len in *. simpl in Hdrop. lia. }
    rewrite chunks_cons in Hchunks by lia.
    apply Forall_cons in Hchunks as [Hchunk Hchunks].
    set (chunk := take (Z.to_nat (Burst lim)) (x :: rest)) in *.
    assert (Hsize : 1 <= len chunk <= Burst lim).
    { subst chunk. unfold len in *. rewrite length_take. cbn [length]. lia. }
    unfold bind at 1.
    destruct (WaitN_benign lim (len chunk) w) as (w1 & -> & Hb1 & Hp1);
      [unfold Burst in *; lia|done|].
    unfold int_quot. rewrite !decide_False by lia.
    unfold bind at 1. cbn [logCall]. unfold bind at 1. rewrite b_writer.
    match goal with |- context [WriteSamples rw labels chunk ?w2] =>
      destruct (WriteSamples_benign rw labels chunk w2 rw_ready)
        as (w3 & timeSeries & -> & Hb3 & Hp3 & Hv3); [|done|]
    end.
    { apply (benign_step w1); simpl; done. }
    cbn [posted set_logs] in Hp3.
    assert (Hrest : drop (Z.to_nat (i + Burst lim)) values
                    = drop (Z.to_nat (Burst lim)) (x :: rest)).
    { rewrite <- Hdrop, drop_drop. f_equal. lia. }
    destruct (IH (i + Burst lim) w3) as (w' & requests & Hrun & Hb & Hp & Hv);
      [lia|lia| |done| |].
    { rewrite Hrest, length_drop. cbn [length] in *. lia. }
    { by rewrite Hrest. }
    exists w', ((endpoint rw, [timeSeries]) :: requests).
    split; [exact Hrun|]. split; [done|]. split.
    + rewrite Hp, Hp3, Hp1. by rewrite <- app_assoc.
    + unfold valuesOf in *. rewrite bind_cons. simpl. rewrite app_nil_r.
      rewrite Hv, Hv3, Hrest. rewrite <- omap_app. unfold chunk.
      by rewrite take_drop.
Qed.

Lemma sendSamples_complete labels (series : Series) lim w :
  1 <= Burst lim <= max_int64 → len (Values series) < 2 ^ 62 →
  benign w → sendable (Burst lim) series →
  ∃ w' requests,
    sendSamples b labels (Values series) lim w = Some (None, w')
    ∧ benign w'
    ∧ posted w' = posted w ++ requests
    ∧ valuesOf requests = omap acceptedValue (Values series).
Proof.
  intros Hburst Hlen Hbenign Hsend. unfold sendSamples. case_decide as Hnil.
  - exists w, []. rewrite app_nil_r.
    destruct (Values series) as [|value rest]; [done|].
    rewrite len_cons in Hnil. pose proof (len_nonneg rest). exfalso. lia.
  - apply sendSamplesFrom_complete; [done|done|lia|by left|done|done|done].
Qed.

Lemma replicateCombinations_complete metricName (series : Series) lim :
  1 <= Burst lim <= max_int64 → len (Values series) < 2 ^ 62 →
  sendable (Burst lim) series →
  ∀ (combos : list (gmap string string)) (i : Z) w,
    i + len combos <= config.ReplicationFactor (config b) →
    benign w →
    ∃ w' requests,
      replicateCombinations b metricName series lim i combos w
      = Some (None, w')
      ∧ benign w'
      ∧ posted w' = posted w ++ requests
      ∧ valuesOf requests = seriesValues combos series.
Proof.
  intros Hburst Hlen Hsend.
  induction combos as [|labelSet rest IH]; intros i w Hi Hbenign.
  { exists w, []. by rewrite app_nil_r. }
  rewrite len_cons in Hi. pose proof (len_nonneg rest).
  cbn [replicateCombinations]. rewrite decide_False by lia.
  rewrite b_live. unfold bind.
  destruct (sendSamples_complete (labelSet ∪ Metric series) series lim w
              Hburst Hlen Hbenign Hsend) as (w1 & r1 & -> & Hb1 & Hp1 & Hv1).
  destruct (IH (i + 1) w1) as (w' & requests & Hrun & Hb & Hp & Hv);
    [lia|done|].
  exists w', (r1 ++ requests). split; [exact Hrun|]. split; [done|]. split.
  - by rewrite Hp, Hp1, app_assoc.
  - rewrite valuesOf_app, Hv, Hv1. unfold seriesValues. by rewrite bind_cons.
Qed.

Lemma replicateAll_complete metricName lim (combos : list (gmap string string)) :
  combine (config.Replication (config b))
    (config.ReplicationFactor (config b)) = Some combos →
  len combos <= config.ReplicationFactor (config b) →
  1 <= Burst lim <= max_int64 →
  ∀ (answer : list Series) w,
    Forall (λ series, len (Values series) < 2 ^ 62
                      ∧ sendable (Burst lim) series) answer →
    benign w →
    ∃ w' requests,
      replicateAll b metricName lim answer w = Some (None, w')
      ∧ benign w'
      ∧ posted w' = posted w ++ requests
      ∧ valuesOf requests = answer ≫= seriesValues combos.
Proof.
  intros Hcombos Hcount Hburst.
  induction answer as [|series rest IH]; intros w Hall Hbenign.
  { exists w, []. by rewrite app_nil_r. }
  apply Forall_cons in Hall as [[Hlen Hsend] Hall].
  cbn [replicateAll]. unfold replicateSeries, bind.
  rewrite generateLabelCombinationsLogged_spec.
  rewrite generateLabelCombinations_combine, Hcombos.
  destruct (replicateCombinations_complete metricName series lim Hburst Hlen
              Hsend combos 0
              (set_logs (logs w ++ autoFillReports (config b)) w))
    as (w1 & r1 & -> & Hb1 & Hp1 & Hv1);
    [lia|apply (benign_step w); simpl; done|].
  cbn [posted set_logs] in Hp1.
  destruct (IH w1 Hall Hb1) as (w' & requests & Hrun & Hb & Hp & Hv).
  exists w', (r1 ++ requests). split; [exact Hrun|]. split; [done|]. split.
  - by rewrite Hp, Hp1, app_assoc.
  - by rewrite valuesOf_app, Hv, Hv1, bind_cons.
Qed.

Lemma processMetric_complete metricName lim (combos : list (gmap string string)) w :
  combine (config.Replication (config b))
    (config.ReplicationFactor (config b)) = Some combos →
  len combos <= config.ReplicationFactor (config b) →
  1 <= Burst lim <= max_int64 →
  answered (λ series, len (Values series) < 2 ^ 62
                      ∧ sendable (Burst lim) series) (rangeOutcome w) →
  benign w →
  ∃ r w' requests,
    processMetric b metricName lim w = Some (r, w')
    ∧ benign w'
    ∧ posted w' = posted w ++ requests
    ∧ valuesOf requests = answerValues combos (rangeOutcome w)
    ∧ rangeResponses w' = tl (rangeResponses w).
Proof.
  intros Hcombos Hcount Hburst Hanswer Hbenign.
  unfold processMetric, queryMetricRange, nextRangeResponse.
  unfold rangeOutcome in *. unfold bind at 1 2.
  destruct (hd _ (rangeResponses w)) as [e|e|e|e|status body data];
    try (eexists _, _, []; split; [reflexivity|];
         rewrite app_nil_r; split; [|done];
         apply (benign_step w); simpl; done).
  unfold bind at 1. cbn [recordQuery]. cbn [answerValues].
  case_decide as Hstatus.
  { rewrite decide_False by done.
    eexists _, _, []. split; [reflexivity|]. rewrite app_nil_r.
    split; [|done]. apply (benign_step w); simpl; done. }
  rewrite decide_True by (by destruct (decide (status = "success"))).
  cbn [ret]. case_decide as Hempty.
  { unfold bind. cbn [logCall ret]. eexists _, _, [].
    split; [reflexivity|]. rewrite app_nil_r.
    split; [apply (benign_step w); simpl; done|]. split; [done|].
    split; [|done]. destruct data as [|series rest]; [done|].
    rewrite len_cons in Hempty. pose proof (len_nonneg rest). exfalso. lia. }
  match goal with |- context [replicateAll _ _ _ data ?w0] =>
    destruct (replicateAll_complete metricName lim combos Hcombos Hcount
                Hburst data w0 Hanswer)
      as (w' & requests & Hrun & Hb & Hp & Hv);
      [apply (benign_step w); simpl; done|];
    pose proof (frame_replicateAll rangeResponses
                  ltac:(done) ltac:(done) ltac:(done) ltac:(done)
                  ltac:(done) ltac:(done) ltac:(done)
                  b metricName lim data _ _ _ Hrun) as Hranges
  end.
  exists None, w', requests. split; [exact Hrun|]. by split.
Qed.

Lemma processEach_complete lim (combos : list (gmap string string)) :
  combine (config.Replication (config b))
    (config.ReplicationFactor (config b)) = Some combos →
  len combos <= config.ReplicationFactor (config b) →
  1 <= Burst lim <= max_int64 →
  ∀ (metrics : list string) w,
    answersSatisfy (λ series, len (Values series) < 2 ^ 62
                              ∧ sendable (Burst lim) series) w →
    benign w →
    ∃ w' requests,
      processEach b lim metrics w = Some (None, w')
      ∧ posted w' = posted w ++ requests
      ∧ valuesOf requests
        = take (length metrics) (rangeResponses w) ≫= answerValues combos.
Proof.
  intros Hcombos Hcount Hburst.
  induction metrics as [|metricName rest IH]; intros w Hw Hbenign.
  { exists w, []. by rewrite app_nil_r. }
  cbn [processEach]. unfold bind at 1. unfold ctxDone.
  assert (Hctx : hd None (ctxErrs w) = None).
  { destruct Hbenign as (Hc & _). destruct (ctxErrs w); [done|].
    by apply Forall_cons in Hc as [? _]. }
  rewrite Hctx. unfold bind at 1. cbn [logCall]. unfold bind at 1.
  match goal with |- context [processMetric _ _ _ ?w0] =>
    destruct (processMetric_complete metricName lim combos w0 Hcombos Hcount
                Hburst)
      as (r1 & w1 & requests1 & Hrun1 & Hb1 & Hp1 & Hv1 & Hranges1)
  end.
  { unfold answersSatisfy in Hw. unfold rangeOutcome. simpl.
    destruct (rangeResponses w); [done|]. by apply Forall_cons in Hw as [? _]. }
  { apply (benign_step w); simpl; [apply suffix_tl|done|done|done]. }
  rewrite Hrun1. simpl in Hranges1, Hp1.
  unfold rangeOutcome in Hv1. simpl in Hv1.
  assert (Hw1 : answersSatisfy (λ series, len (Values series) < 2 ^ 62
                                          ∧ sendable (Burst lim) series) w1).
  { unfold answersSatisfy in *. rewrite Hranges1.
    destruct (rangeResponses w); [done|]. by apply Forall_cons in Hw as [_ ?]. }
  assert (Hexpected : ∀ requests,
            valuesOf requests
            = take (length rest) (rangeResponses w1) ≫= answerValues combos →
            valuesOf (requests1 ++ requests)
            = take (length (metricName :: rest)) (rangeResponses w)
                ≫= answerValues combos).
  { intros requests Hv. rewrite valuesOf_app, Hv, Hv1, Hranges1.
    destruct (rangeResponses w) as [|o others].
    - simpl. by rewrite take_nil.
    - change (take (length (metricName :: rest)) (o :: others))
        with (o :: take (length rest) others).
      by rewrite bind_cons. }
  destruct r1 as [e|].
  - unfold bind. cbn [logCall].
    match goal with |- context [processEach _ _ rest ?w0] =>
      destruct (IH w0) as (w' & requests & Hrun & Hp & Hv) end.
    { exact Hw1. }
    { apply (benign_step w1); simpl; done. }
    exists w', (requests1 ++ requests). split; [exact Hrun|]. split.
    + simpl in Hp. by rewrite Hp, Hp1, app_assoc.
    + apply Hexpected. exact Hv.
  - destruct (IH w1 Hw1 Hb1) as (w' & requests & Hrun & Hp & Hv).
    exists w', (requests1 ++ requests). split; [exact Hrun|]. split.
    + by rewrite Hp, Hp1, app_assoc.
    + by apply Hexpected.
Qed.

Lemma Run_complete (combos : list (gmap string string)) w :
  combine (config.Replication (config b))
    (config.ReplicationFactor (config b)) = Some combos →
  len combos <= config.ReplicationFactor (config b) →
  1 <= config.SamplesPerSecond (config b) →
  2 * config.SamplesPerSecond (config b) <= max_int64 →
  answersSatisfy
    (λ series, len (Values series) < 2 ^ 62
               ∧ sendable (2 * config.SamplesPerSecond (config b)) series) w →
  benign w →
  ∃ r w' requests,
    Run b w = Some (r, w')
    ∧ r = (wrapError "discovering metrics"
             <$> discoveryError (nameOutcome w))
    ∧ posted w' = posted w ++ requests
    ∧ valuesOf requests
      = take (length (filterMetrics b (discovered (nameOutcome w))))
          (rangeResponses w)
          ≫= answerValues combos.
Proof.
  intros Hcombos Hcount Hsps Hfit Hw Hbenign.
  unfold Run, discoverMetrics, nextNameResponse, nameOutcome.
  unfold bind at 1. cbn [logCall]. unfold bind at 1 2.
  cbn [nameResponses set_logs].
  assert (Hnil : filterMetrics b [] = []) by done.
  destruct (hd _ (nameResponses w)) as [e|e|e|e|status body data];
    cbn [discovered discoveryError];
    try (eexists _, _, []; split; [reflexivity|]; split; [done|];
         rewrite Hnil, app_nil_r; by split).
  case_decide as Hstatus.
  { rewrite decide_False by done.
    eexists _, _, []. split; [reflexivity|]. split; [done|].
    rewrite Hnil, app_nil_r. by split. }
  rewrite decide_True by (by destruct (decide (status = "success"))).
  cbn [ret]. unfold bind at 1. cbn [logCall]. unfold bind at 1. cbn [logCall].
  unfold processMetrics, bind. cbn [timeNow].
  set (lim := NewLimiter _ _).
  assert (Hburst : Burst lim = 2 * config.SamplesPerSecond (config b)).
  { unfold lim, Burst, NewLimiter, int_mul. simpl.
    rewrite wrap64_id; [lia|]. unfold in_int64, min_int64, max_int64 in *. lia. }
  match goal with |- context [processEach _ _ _ ?w0] =>
    destruct (processEach_complete lim combos Hcombos Hcount
                ltac:(rewrite Hburst; lia) (filterMetrics b data) w0)
      as (w' & requests & Hrun & Hp & Hv)
  end.
  { rewrite Hburst. exact Hw. }
  { apply (benign_step w); simpl; done. }
  exists None, w', requests. split; [exact Hrun|]. by split.
Qed.

End Sending.

Lemma NewBenchmarker_live_scripts (cfg : config.Config) w b w0 :
  NewBenchmarker cfg false w = Some (Ok b, w0) →
  dryRun b = false
  ∧ nameResponses w0 = nameResponses w
  ∧ ctxErrs w0 = ctxErrs w
  ∧ waitResults w0 = waitResults w
  ∧ postResponses w0 = postResponses w.
Proof.
  unfold NewBenchmarker, bind. rewrite compileExcludes_spec. simpl.
  by intros [= <- <-].
Qed.

Lemma validated_run_complete (cfg : config.Config) w :
  config.Validate cfg = None →
  2 * config.SamplesPerSecond cfg <= max_int64 →
  config.BatchSize cfg <= max_int64 →
  benign w →
  answersSatisfy
    (λ series, len (Values series) < 2 ^ 62
               ∧ sendable (2 * config.SamplesPerSecond cfg) series) w →
  ∃ b w0 r w' combos requests,
    NewBenchmarker cfg false w = Some (Ok b, w0)
    ∧ Run b w0 = Some (r, w')
    ∧ r = (wrapError "discovering metrics"
             <$> discoveryError (nameOutcome w))
    ∧ combine (config.Replication cfg) (config.ReplicationFactor cfg)
      = Some combos
    ∧ posted w' = posted w ++ requests
    ∧ valuesOf requests
      = take (length (filterMetrics b (discovered (nameOutcome w))))
          (rangeResponses w)
          ≫= answerValues combos.
Proof.
  intros Hvalid Hfit Hbatch Hbenign Hw.
  unfold config.Validate in Hvalid. repeat case_decide; try done.
  destruct (NewBenchmarker_live cfg w)
    as (b & w0 & Hnew & Hcfg & Hrw & Hranges & Hacq & Hposted & _).
  destruct (NewBenchmarker_live_scripts cfg w b w0 Hnew)
    as (Hlive & Hnames & Hctx & Hwait & Hresp).
  destruct (combine_total (config.Replication cfg)
              (config.ReplicationFactor cfg)) as (combos & Hcombos & Hcount);
    [lia|].
  destruct (Run_complete b _ Hrw Hlive) with (combos := combos) (w := w0)
    as (r & w' & requests & Hrun & Hr & Hp & Hv).
  - simpl. lia.
  - by rewrite Hcfg.
  - by rewrite Hcfg.
  - rewrite Hcfg. lia.
  - by rewrite Hcfg.
  - rewrite Hcfg. unfold answersSatisfy. by rewrite Hranges.
  - destruct Hbenign as (? & ? & ?). unfold benign.
    by rewrite Hctx, Hwait, Hresp.
  - unfold nameOutcome in *. rewrite Hnames, Hranges in *.
    exists b, w0, r, w', combos, requests.
    split; [done|]. split; [done|]. split; [done|]. split; [done|].
    rewrite <- Hposted. by split.
Qed.

End Complete.

(** X17.  A live run in which nothing fails replicates every accepted
    sample.  Take a configuration that [Validate] accepts, a world in
    which the context is never cancelled, every wait is granted and every
    POST is answered with a success status, and answers to the range
    queries in which every chunk of every series holds an accepted value.
    Then the run returns no error but that of a failed discovery, and the
    sample values it posts are, in order: for each kept metric the answer
    of its range query, for each series of the answer, for each label
    set of [generateLabelCombinations], the accepted values of the
    series.  A metric whose query fails contributes nothing. *)
Theorem benign_live_run_replicates_every_sample `{GoRuntime}
    (cfg : config.Config) (w : World) :
  config.Validate cfg = None →
  2 * config.SamplesPerSecond cfg <= max_int64 →
  config.BatchSize cfg <= max_int64 →
  benign w →
  answersSatisfy
    (λ series, len (Values series) < 2 ^ 62
               ∧ sendable (2 * config.SamplesPerSecond cfg) series) w →
  ∃ b w0 r w' combos requests,
    NewBenchmarker cfg false w = Some (Ok b, w0)
    ∧ Run b w0 = Some (r, w')
    ∧ r = (wrapError "discovering metrics"
             <$> discoveryError (nameOutcome w))
    ∧ combine (config.Replication cfg) (config.ReplicationFactor cfg)
      = Some combos
    ∧ posted w' = posted w ++ requests
    ∧ valuesOf requests
      = take (length (filterMetrics b (discovered (nameOutcome w))))
          (rangeResponses w)
          ≫= answerValues combos.
Proof. apply validated_run_complete. Qed.

Lemma benign_live_run_replicates_every_sample_witness :
  let cfg := setDefaults (labelConfig [] 0) in
  let value := [anyFloat (S754_zero false); anyString "3.14"] in
  let bad := [anyFloat (S754_zero false); anyString "oops"] in
  let series := mkSeries {[ "job" := "api" ]} [value; bad; value] in
  let w := set_nameResponses [GetDecoded "success" "" ["up"; "down"]]
             (set_rangeResponses
                [GetTransportError (errorString "timeout");
                 GetDecoded "success" "" [series]]
                quietWorld) in
  ∃ b w0 w' x,
    @NewBenchmarker exampleRuntime cfg false w = Some (Ok b, w0)
    ∧ Run b w0 = Some (None, w')
    ∧ valuesOf (posted w') = [x; x; x; x].
Proof.
  intros cfg value bad series w.
  destruct (@benign_live_run_replicates_every_sample exampleRuntime cfg w)
    as (b & w0 & r & w' & combos & requests
        & Hnew & Hrun & Hr & Hc & Hp & Hv).
  - reflexivity.
  - unfold max_int64. simpl. lia.
  - unfold max_int64. simpl. lia.
  - repeat split; constructor.
  - apply Forall_cons. split; [exact I|].
    apply Forall_cons. split; [|apply Forall_nil_2].
    apply Forall_cons. split; [|apply Forall_nil_2].
    split; [reflexivity|]. unfold sendable. vm_compute.
    repeat (apply Forall_cons; split; [discriminate|]). apply Forall_nil_2.
  - vm_compute in Hc. injection Hc as <-.
    simpl in Hr. subst r.
    pose proof Hnew as Hnew'. vm_compute in Hnew'. injection Hnew' as <- <-.
    simpl in Hp. subst requests.
    eexists _, _, w', _. split; [exact Hnew|]. split; [exact Hrun|].
    rewrite Hv. vm_compute. reflexivity.
Defined.
